(** * Sampling grids, cubic splines and Simpson quadrature of transit

    A shallow embedding of [transit/src/makesample.c]: the grid generator
    ([makesample1], [makesample]), the builders of the wavenumber, impact
    parameter and temperature grids ([makewnsample], [makeipsample],
    [maketempsample]), the tridiagonal solver and the spline engine ([tri],
    [spline3], [splinterp], [splinterp_pt], [spline_init]), the Simpson
    quadrature ([makeh], [geth], [simpson], [simps]) and the binary
    persistence of a sampling ([savesample], [restsample]).

    The C code computes on [double].  The embedding is written once over an
    interface of the arithmetic the code uses ([Scalar]) and is run on two
    instances: exact rationals ([Q]), for the algebra of the formulas, and
    IEEE-754 binary64 (Rocq's primitive floats), which evaluates the code
    the way the machine does, rounding included. *)

From Stdlib Require Import ZArith QArith Qround Qabs Floats List Bool Lia Lqa Field.
Import ListNotations.

Set Implicit Arguments.

Local Open Scope Z_scope.

(** ** The arithmetic of [double] *)

Declare Scope scalar_scope.
Delimit Scope scalar_scope with S.

Class Scalar (F : Type) : Type := {
  of_long : Z -> F;            (* conversion of an int or a long to double *)
  add : F -> F -> F;
  sub : F -> F -> F;
  mul : F -> F -> F;
  div : F -> F -> F;
  neg : F -> F;
  ltb : F -> F -> bool;        (* x < y  *)
  leb : F -> F -> bool;        (* x <= y *)
  eqb : F -> F -> bool;        (* x == y *)
  trunc : F -> option Z        (* integral part, toward zero; None if not finite *)
}.

Infix "+" := add : scalar_scope.
Infix "-" := sub : scalar_scope.
Infix "*" := mul : scalar_scope.
Infix "/" := div : scalar_scope.
Notation "- x" := (neg x) : scalar_scope.
Infix "<?" := ltb : scalar_scope.
Infix "<=?" := leb : scalar_scope.
Infix "=?" := eqb : scalar_scope.
Notation "x >? y" := (ltb y x) (only parsing) : scalar_scope.
Notation "x >=? y" := (leb y x) (only parsing) : scalar_scope.
Notation "x !=? y" := (negb (eqb x y)) (at level 70) : scalar_scope.

(** Exact arithmetic: what the formulas mean over the reals. *)
#[export] Instance Q_scalar : Scalar Q := {
  of_long := inject_Z;
  add := Qplus;
  sub := Qminus;
  mul := Qmult;
  div := Qdiv;
  neg := Qopp;
  ltb := fun x y => negb (Qle_bool y x);
  leb := Qle_bool;
  eqb := Qeq_bool;
  trunc := fun q => Some (Z.quot (Qnum q) (Zpos (Qden q)))
}.

(** binary64, round to nearest even: the arithmetic of the compiled code. *)
Definition float_of_long (z : Z) : float :=
  SF2Prim (binary_normalize prec emax z 0 false).

Definition float_trunc (x : float) : option Z :=
  match Prim2SF x with
  | S754_zero _ => Some 0%Z
  | S754_finite s m e =>
      let mag := match e with
                 | Z0 => Zpos m
                 | Zpos p => Z.shiftl (Zpos m) (Zpos p)
                 | Zneg p => Z.shiftr (Zpos m) (Zpos p)
                 end in
      Some (if s then (- mag)%Z else mag)
  | S754_infinity _ | S754_nan => None
  end.

#[export] Instance binary64 : Scalar float := {
  of_long := float_of_long;
  add := PrimFloat.add;
  sub := PrimFloat.sub;
  mul := PrimFloat.mul;
  div := PrimFloat.div;
  neg := PrimFloat.opp;
  ltb := PrimFloat.ltb;
  leb := PrimFloat.leb;
  eqb := PrimFloat.eqb;
  trunc := float_trunc
}.

(** ** Machine integers

    [long] is 64 bits wide and [int] 32; arithmetic on [long] that leaves the
    range wraps around (two's complement). *)

Definition LONG_MIN : Z := - 2 ^ 63.
Definition LONG_MAX : Z := 2 ^ 63 - 1.

Definition wrap_long (z : Z) : Z := (z + 2 ^ 63) mod 2 ^ 64 - 2 ^ 63.

(** Conversion of a double to [long]: the fraction is discarded; a value
    that has no [long] (too large, infinite, NaN) converts to [LONG_MIN], as
    the x86-64 conversion instruction does. *)
Definition to_long {F} `{Scalar F} (x : F) : Z :=
  match trunc x with
  | Some t => if ((LONG_MIN <=? t) && (t <=? LONG_MAX))%Z then t else LONG_MIN
  | None => LONG_MIN
  end.

(** ** Arrays

    The functions receive bare [double *]: a base address that the code
    indexes at any offset, with no length attached.  An array is therefore a
    map from offsets to values, and a store is a functional update. *)

Definition arr (F : Type) : Type := Z -> F.

Definition upd {F} (a : arr F) (k : Z) (x : F) : arr F :=
  fun j => if (j =? k)%Z then x else a j.

(** A block of zeros. *)
Definition zeros {F} `{Scalar F} : arr F := fun _ => of_long 0.

(** An array holding the elements of a list from offset 0 on. *)
Definition of_list {F} `{Scalar F} (l : list F) : arr F :=
  fun j => if (j <? 0)%Z then of_long 0 else nth (Z.to_nat j) l (of_long 0).

(** The first [cnt] cells of an array. *)
Definition to_list {F} (a : arr F) (cnt : nat) : list F :=
  map (fun k => a (Z.of_nat k)) (seq 0 cnt).

(** ** Counted loops

    [for_up body lo cnt s] runs [body lo], [body (lo+1)], ... [cnt] times on
    the state [s]: the loop [for (i = lo; i < lo + cnt; i++)].
    [for_down body hi cnt s] runs [body hi], [body (hi-1)], ... *)

Fixpoint for_up {S : Type} (body : Z -> S -> S) (lo : Z) (cnt : nat) (s : S) : S :=
  match cnt with
  | O => s
  | Datatypes.S c => for_up body (lo + 1) c (body lo s)
  end.

Fixpoint for_down {S : Type} (body : Z -> S -> S) (hi : Z) (cnt : nat) (s : S) : S :=
  match cnt with
  | O => s
  | Datatypes.S c => for_down body (hi - 1) c (body hi s)
  end.

(** ** The sampling structure *)

(** What a [double *] field can hold. *)
Inductive pointer (F : Type) : Type :=
| NULL                      (* no block *)
| Block (a : arr F)         (* a block owned by the structure *)
| Stale.                    (* an address read back from a file *)
Arguments NULL {F}.
Arguments Block {F} a.
Arguments Stale {F}.

(** Modelled from the spec: the structure [prop_samp], whose declaration
    (in transit.h) is not among the sources.  The spec's data model gives
    it a units factor, the bounds [initial] and [final], a [spacing] (all
    float64), an [oversample] and a [count] (integers) and the values; the
    names and the order of the fields are those of the initialisers of
    this file ([{n, d, i, f, o, v, fct}]), where [n] is a [long]
    ([PREC_NREC]), [o] an [int] and the others doubles ([PREC_RES]). *)
Record prop_samp (F : Type) : Type := mk_samp {
  s_n : Z;                  (* n: number of elements *)
  s_d : F;                  (* d: spacing *)
  s_i : F;                  (* i: initial value *)
  s_f : F;                  (* f: final value *)
  s_o : Z;                  (* o: oversampling *)
  s_v : pointer F;          (* v: the values *)
  s_fct : F                 (* fct: units factor *)
}.

(** Modelled from the spec: the error reporting ([transiterror] and
    [transitASSERT], declared outside the sources).  The spec has the grid
    generator return its errors to the caller as codes and lets the caller
    go on or abort; the calls flagged [TERR_ALLOWCONT] are those that
    return, a call without the flag stops the program, and a warning has no
    effect on the result.  A call therefore ends in one of three ways: it
    returns a code and leaves the structure it was given in some state
    ([Return]), or the program stops in the error report ([Fatal]), or it
    stores through a pointer that has no cell there ([Fault]). *)
Inductive outcome (F : Type) : Type :=
| Return (res : Z) (samp : prop_samp F)
| Fatal
| Fault.
Arguments Return {F} res samp.
Arguments Fatal {F}.
Arguments Fault {F}.

(** [calloc(n, sizeof(double))].  Memory is not bounded in this model: a
    request for a count that is not negative is granted, with a block of
    zeros; a negative count, which the conversion to [size_t] makes larger
    than any block, is refused with a null pointer. *)
Definition calloc {F} `{Scalar F} (n : Z) : pointer F :=
  if (n <? 0)%Z then NULL else Block zeros.

(** [memcpy(dst, src, cnt * sizeof(double))]. *)
Definition memcpy {F} (dst src : arr F) (cnt : Z) : arr F :=
  fun j => if ((0 <=? j) && (j <? cnt))%Z then src j else dst j.

Section Sampling.
Context {F : Type} `{Scalar F}.
Local Open Scope scalar_scope.

Definition set_n (s : prop_samp F) (x : Z) : prop_samp F :=
  mk_samp x (s_d s) (s_i s) (s_f s) (s_o s) (s_v s) (s_fct s).
Definition set_d (s : prop_samp F) (x : F) : prop_samp F :=
  mk_samp (s_n s) x (s_i s) (s_f s) (s_o s) (s_v s) (s_fct s).
Definition set_i (s : prop_samp F) (x : F) : prop_samp F :=
  mk_samp (s_n s) (s_d s) x (s_f s) (s_o s) (s_v s) (s_fct s).
Definition set_f (s : prop_samp F) (x : F) : prop_samp F :=
  mk_samp (s_n s) (s_d s) (s_i s) x (s_o s) (s_v s) (s_fct s).
Definition set_o (s : prop_samp F) (x : Z) : prop_samp F :=
  mk_samp (s_n s) (s_d s) (s_i s) (s_f s) x (s_v s) (s_fct s).
Definition set_v (s : prop_samp F) (x : pointer F) : prop_samp F :=
  mk_samp (s_n s) (s_d s) (s_i s) (s_f s) (s_o s) x (s_fct s).
Definition set_fct (s : prop_samp F) (x : F) : prop_samp F :=
  mk_samp (s_n s) (s_d s) (s_i s) (s_f s) (s_o s) (s_v s) x.

(** [double okfinalexcess = 1e-8]: the double nearest to 10^-8, which a
    correctly rounded division of 1 by 10^8 yields. *)
Definition okfinalexcess_init : F := of_long 1 / of_long 100000000.

(** Lines 129-133 and 302-306: the number of points before oversampling.
    The quotient is a double; the assignment to the [long] field
    discards its fraction. *)
Definition npoints (i f d : F) : Z :=
  let okfinalexcess :=
    if d <? of_long 0 then - okfinalexcess_init else okfinalexcess_init in
  let n := to_long (((of_long 1 + okfinalexcess) * f - i) / d + of_long 1) in
  if (n <? 0)%Z then wrap_long (- n) else n.

(** Lines 152-156 and 331-335:
    [*v = si; v += --n; while(n) *v-- = si + n--*osd;]
    [v] and [n] go down together, so the cell written is always the one
    at offset [n]: with [k] the value of [n] on entry of an iteration, the
    store is [v[k] = si + k*osd]. *)
Fixpoint fill_loop (si osd : F) (k : nat) (v : arr F) : arr F :=
  match k with
  | O => v
  | Datatypes.S k' =>
      fill_loop si osd k' (upd v (Z.of_nat k) (si + of_long (Z.of_nat k) * osd))
  end.

Definition fill_values (si osd : F) (n : Z) (v : arr F) : arr F :=
  let v := upd v 0 si in
  fill_loop si osd (Z.to_nat (n - 1)) v.

(** Lines 144-171 and 322-350: oversampled count, allocation, fill.  The
    result of [calloc] is not tested: with a count below 1 the first
    store [*v = si] has no cell to go to (a null pointer for a negative
    count, an empty block for 0). *)
Definition oversample_and_fill (samp : prop_samp F) (o : Z) (res : Z) : outcome F :=
  let samp := set_o samp o in
  let samp := set_n samp (wrap_long ((s_n samp - 1) * s_o samp + 1)) in
  let osd := s_d samp / of_long (s_o samp) in
  let si := s_i samp in
  match calloc (s_n samp) with
  | Block v =>
      if (s_n samp =? 0)%Z then Fault
      else Return res (set_v samp (Block (fill_values si osd (s_n samp) v)))
  | _ => Fault
  end.

(** [makesample1], lines 77-172. *)
Definition makesample1 (samp ref : prop_samp F) : outcome F :=
  let dhint := s_d ref !=? of_long 0 in
  let samp := set_fct samp (s_fct ref) in
  let samp := set_i samp (s_i ref) in
  let samp := set_f samp (s_f ref) in
  if s_f samp <? s_i samp then Return (-3) samp
  else if negb dhint then Return (-5) samp
  else if s_d ref !=? of_long 0 then
    let samp := set_d samp (s_d ref) in
    let samp := set_n samp (npoints (s_i samp) (s_f samp) (s_d samp)) in
    if (s_o ref <=? 0)%Z then Return (-6) samp
    else oversample_and_fill samp (s_o ref) 0
  else Fatal.

(** [makesample], lines 196-351.  [transitASSERT(c, ...)] stops the
    program when [c] holds (the macro is declared outside this file; the
    comment above its use says the hinted spacing has to be positive
    there). *)
Definition makesample (samp hint ref : prop_samp F) : outcome F :=
  let dhint := s_d hint !=? of_long 0 in
  let samp :=
    if s_fct hint <=? of_long 0 then set_fct samp (s_fct ref)
    else set_fct samp (s_fct hint) in
  let '(samp, res) :=
    if s_i hint <=? of_long 0 then (set_i samp (s_i ref), Z.lor 0 1)
    else (set_i samp (s_i hint), 0%Z) in
  let '(samp, res) :=
    if s_f hint <=? of_long 0 then (set_f samp (s_f ref), Z.lor res 2)
    else (set_f samp (s_f hint), res) in
  let spaced (samp : prop_samp F) : outcome F :=
    if ((s_f samp <=? s_i samp) && (s_d samp >? of_long 0))
       || ((s_f samp >=? s_i samp) && (s_d samp <? of_long 0))
    then Return (-3) samp
    else
      let samp := set_n samp (npoints (s_i samp) (s_f samp) (s_d samp)) in
      if (s_o hint <=? 0)%Z then
        if (s_o ref <=? 0)%Z then Return (-6) samp
        else oversample_and_fill samp (s_o ref) res
      else oversample_and_fill samp (s_o hint) res in
  if negb dhint then
    if (s_d ref =? of_long 0) && (s_n ref <=? 0)%Z then Return (-5) samp
    else if s_d ref !=? of_long 0 then spaced (set_d samp (s_d ref))
    else
      let samp := set_n samp (s_n ref) in
      let samp := set_d samp (of_long 0) in
      match calloc (s_n samp), s_v ref with
      | Block dst, Block src =>
          let samp := set_v samp (Block (memcpy dst src (s_n samp))) in
          Return res (set_o samp 0)
      | _, _ => Fault
      end
  else
    if s_d hint <=? of_long 0 then Fatal
    else spaced (set_d samp (s_d hint)).

End Sampling.

(** ** The domain grid builders *)

(** Modelled from the spec: [struct transithint] and [struct transit],
    declared in transit.h, which is not among the sources.  The spec gives
    every axis (wavenumber, wavelength, radius, impact parameter,
    temperature) the hints of the user and one grid that its builder owns.
    The fields are named after the accesses in the source: the hints
    [th->wns], [th->wavs], [th->rads], [th->ips] and [th->temp]; in the
    main structure the hints [ds.th], the grids [owns], [wns], [rads],
    [ips] and [temp], and the progress indicator [pi].  What the builders
    of this file do not touch is left out, and so are [odivs] and
    [ndivs], which only receive the result of [divisors], a function
    outside the sources. *)
Record transithint (F : Type) : Type := mk_hint {
  th_wns : prop_samp F;
  th_wavs : prop_samp F;
  th_rads : prop_samp F;
  th_ips : prop_samp F;
  th_temp : prop_samp F
}.

Record transit (F : Type) : Type := mk_transit {
  tr_th : transithint F;
  tr_owns : prop_samp F;
  tr_wns : prop_samp F;
  tr_rads : prop_samp F;
  tr_ips : prop_samp F;
  tr_temp : prop_samp F;
  tr_pi : Z
}.

(** How a builder ends: it returns a code and leaves the main structure
    in some state, or the program stops in an error report, or a grid
    generator it called stored through a pointer that has no cell. *)
Inductive ending (F : Type) : Type :=
| Done (res : Z) (tr : transit F)
| Stopped
| Faulted.
Arguments Done {F} res tr.
Arguments Stopped {F}.
Arguments Faulted {F}.

Section Builders.
Context {F : Type} `{Scalar F}.
Local Open Scope scalar_scope.

(** The bits of the progress indicator are constants of transit.h; the
    builders are given them.  Modelled from the spec: [transitcheckcalled],
    also outside the sources, is the test that an earlier stage has
    completed (the impact-parameter builder requires the radius builder to
    have completed); the builder is given its verdict on the indicator and
    the bit, and the program stops when it is negative. *)
Variables TRPI_MAKEWN TRPI_MAKEIP TRPI_MAKETEMP TRPI_MAKERAD : Z.
Variable transitcheckcalled : Z -> Z -> bool.

Definition set_owns (tr : transit F) (x : prop_samp F) : transit F :=
  mk_transit (tr_th tr) x (tr_wns tr) (tr_rads tr) (tr_ips tr) (tr_temp tr) (tr_pi tr).
Definition set_wns (tr : transit F) (x : prop_samp F) : transit F :=
  mk_transit (tr_th tr) (tr_owns tr) x (tr_rads tr) (tr_ips tr) (tr_temp tr) (tr_pi tr).
Definition set_ips (tr : transit F) (x : prop_samp F) : transit F :=
  mk_transit (tr_th tr) (tr_owns tr) (tr_wns tr) (tr_rads tr) x (tr_temp tr) (tr_pi tr).
Definition set_temp (tr : transit F) (x : prop_samp F) : transit F :=
  mk_transit (tr_th tr) (tr_owns tr) (tr_wns tr) (tr_rads tr) (tr_ips tr) x (tr_pi tr).
Definition set_pi (tr : transit F) (x : Z) : transit F :=
  mk_transit (tr_th tr) (tr_owns tr) (tr_wns tr) (tr_rads tr) (tr_ips tr) (tr_temp tr) x.

(** [if(res >= 0) tr->pi |= BIT; return res;] *)
Definition progress (BIT : Z) (res : Z) (tr : transit F) : ending F :=
  Done res (if (res >=? 0)%Z then set_pi tr (Z.lor (tr_pi tr) BIT) else tr).

(** [makewnsample], lines 358-438: the two bounds, in cm-1, from the
    wavenumber hint or else from the wavelength hint; [None] when the
    program stops in one of the error reports. *)
Definition wn_initial (hsamp wlsamp : prop_samp F) : option F :=
  if s_i hsamp >? of_long 0 then
    if s_fct hsamp <=? of_long 0 then None
    else Some (s_i hsamp * s_fct hsamp)
  else if s_f wlsamp >? of_long 0 then
    if s_fct wlsamp <=? of_long 0 then None
    else Some (of_long 1 / (s_f wlsamp * s_fct wlsamp))
  else None.

Definition wn_final (hsamp wlsamp : prop_samp F) : option F :=
  if s_f hsamp >? of_long 0 then
    if s_fct hsamp <? of_long 0 then None
    else Some (s_f hsamp * s_fct hsamp)
  else if s_i wlsamp >? of_long 0 then
    if s_fct wlsamp <? of_long 0 then None
    else Some (of_long 1 / (s_i wlsamp * s_fct wlsamp))
  else None.

(** The reference structure starts as zeros ([memset]).  The code of the
    first call of [makesample1] is overwritten by that of the second. *)
Definition makewnsample (tr : transit F) : ending F :=
  let th := tr_th tr in
  let hsamp := th_wns th in
  let wlsamp := th_wavs th in
  let rsamp := mk_samp 0 (of_long 0) (of_long 0) (of_long 0) 0 NULL (of_long 0) in
  match wn_initial hsamp wlsamp with
  | None => Stopped
  | Some i =>
      let rsamp := set_i rsamp i in
      match wn_final hsamp wlsamp with
      | None => Stopped
      | Some f =>
          let rsamp := set_f rsamp f in
          let rsamp := set_o rsamp (s_o hsamp) in
          let rsamp := set_fct rsamp (of_long 1) in
          let rsamp := set_n rsamp 0 in
          if s_d hsamp <=? of_long 0 then Stopped
          else
            let rsamp := set_d rsamp (s_d hsamp) in
            match makesample1 (tr_owns tr) rsamp with
            | Return _ owns =>
                let tr := set_owns tr owns in
                let rsamp := set_o rsamp 1 in
                match makesample1 (tr_wns tr) rsamp with
                | Return res wns => progress TRPI_MAKEWN res (set_wns tr wns)
                | Fatal => Stopped
                | Fault => Faulted
                end
            | Fatal => Stopped
            | Fault => Faulted
            end
      end
  end.

(** [makeipsample], lines 590-637.  The first branch copies the radius
    grid in reverse order into a fresh block; with a count above 0 it
    needs both blocks.  [outsample], called for [th->savefiles], only
    prints.  The counter [i] is an [int] next to a [long] bound; counts
    stay far below 2^31. *)
Definition makeipsample (tr : transit F) : ending F :=
  let th := tr_th tr in
  if s_d (th_rads th) =? of_long (-1) then
    let rads := tr_rads tr in
    let ips := tr_ips tr in
    let ips := set_n ips (s_n rads) in
    let ips := set_d ips (of_long 0) in
    let ips := set_i ips (s_f rads) in
    let ips := set_f ips (s_i rads) in
    let ips := set_v ips (calloc (s_n ips)) in
    let n := s_n ips in
    let filled :=
      if (0 <? n)%Z then
        match s_v ips, s_v rads with
        | Block dst, Block src =>
            Some (set_v ips (Block (for_up (fun i v => upd v i (src (n - i - 1)%Z))
                                           0 (Z.to_nat n) dst)))
        | _, _ => None
        end
      else Some ips in
    match filled with
    | None => Faulted
    | Some ips =>
        let ips := set_o ips 0 in
        let ips := set_fct ips (s_fct rads) in
        progress TRPI_MAKEIP 0 (set_ips tr ips)
    end
  else
    match s_v (tr_rads tr) with
    | Block radv =>
        let usamp := mk_samp 0 (- s_d (th_ips th)) (s_f (th_ips th)) (s_i (th_ips th))
                             (s_o (th_ips th)) NULL (s_fct (th_ips th)) in
        let rsamp := mk_samp 0 (- s_d (tr_rads tr)) (radv (s_n (tr_rads tr) - 1)%Z)
                             (radv 0%Z) (s_o (tr_rads tr)) NULL (s_fct (tr_rads tr)) in
        if s_f usamp <? s_i usamp then Stopped
        else if negb (transitcheckcalled (tr_pi tr) TRPI_MAKERAD) then Stopped
        else
          match makesample (tr_ips tr) usamp rsamp with
          | Return res ips => progress TRPI_MAKEIP res (set_ips tr ips)
          | Fatal => Stopped
          | Fault => Faulted
          end
    | _ => Faulted
    end.

(** [maketempsample], lines 644-666. *)
Definition maketempsample (tr : transit F) : ending F :=
  let th := tr_th tr in
  let usamp := mk_samp 0 (s_d (th_temp th)) (s_i (th_temp th)) (s_f (th_temp th))
                       1 NULL (of_long 1) in
  let rsamp := mk_samp 0 (of_long 0) (of_long 0) (of_long 0) 1 NULL (of_long 1) in
  if s_f usamp <? s_i usamp then Stopped
  else
    match makesample (tr_temp tr) usamp rsamp with
    | Return res temp => progress TRPI_MAKETEMP res (set_temp tr temp)
    | Fatal => Stopped
    | Fault => Faulted
    end.

End Builders.

(** ** The tridiagonal solver and the spline engine *)

(** The result of the binary search of [splinterp_pt]: the index it
    assigned, or none when the loop ends with [first > last] and leaves
    [index] as it was declared, without a value; [Spent] is for a search
    given too few iterations, which [pt_search_total] rules out. *)
Inductive search : Type :=
| Found (index : Z)
| Unset
| Spent.

Section Spline.
Context {F : Type} `{Scalar F}.
Local Open Scope scalar_scope.

(** [tri], lines 669-694.  The loop counters are [int]s next to a [long]
    bound; sizes stay far below 2^31, so the counters are not wrapped.
    [a] and [c] are only read (the callers pass the same array for both);
    [d], [b] and [e] are distinct blocks. *)
Definition tri_forward (a c : arr F) (i : Z) (s : arr F * arr F) : arr F * arr F :=
  let '(d, b) := s in
  let xmult := a (i - 1)%Z / d (i - 1)%Z in
  let d := upd d i (d i - xmult * c (i - 1)%Z) in
  let b := upd b i (b i - xmult * b (i - 1)%Z) in
  (d, b).

Definition tri_backward (d c b : arr F) (j : Z) (e : arr F) : arr F :=
  upd e j ((b (j - 1)%Z - c (j - 1)%Z * e (j + 1)%Z) / d (j - 1)%Z).

(** The three blocks the call leaves behind: the diagonal, the right-hand
    side and the output buffer (which the C function also returns). *)
Record tri_result : Type := mk_tri {
  tri_d : arr F;
  tri_b : arr F;
  tri_e : arr F
}.

Definition tri (a d c b e : arr F) (n : Z) : tri_result :=
  let '(d, b) := for_up (tri_forward a c) 1 (Z.to_nat n) (d, b) in
  let e := upd e (n - 1) (b (n - 1)%Z / d (n - 1)%Z) in
  let e := for_down (tri_backward d c b) n (Z.to_nat n) e in
  let e := upd e 0 (of_long 0) in
  let e := upd e (n + 1) (of_long 0) in
  mk_tri d b e.

(** [spline3], lines 696-724.  The inner loop leaves in [j] the last
    [i < N-1] with [xi[i] <= x[n]]; [j] is declared without a value and
    keeps what an earlier point left in it, so it is a state of the outer
    loop, unset at first.  Using it unset has no defined result. *)
Definition spline3_locate (xi : arr F) (xn : F) (N : Z) (j : option Z) : option Z :=
  for_up (fun i j => if xi i <=? xn then Some i else j) 0 (Z.to_nat (N - 1)) j.

Definition spline3_eval (xi yi z h : arr F) (xn : F) (j : Z) : F :=
  let amult := (z (j + 1)%Z - z j) / (of_long 6 * h j) in
  let bmult := z j / of_long 2 in
  let cmult := (yi (j + 1)%Z - yi j) / h j
               - h j / of_long 6 * (z (j + 1)%Z + of_long 2 * z j) in
  let dx := xn - xi j in
  yi j + dx * cmult + dx * dx * bmult + dx * dx * dx * amult.

Definition spline3_step (xi yi x z h : arr F) (N : Z) (n : Z)
    (s : option (option Z * arr F)) : option (option Z * arr F) :=
  match s with
  | None => None
  | Some (j, y) =>
      match spline3_locate xi (x n) N j with
      | None => None
      | Some j => Some (Some j, upd y n (spline3_eval xi yi z h (x n) j))
      end
  end.

Definition spline3 (xi yi x z h y : arr F) (nx N : Z) : option (arr F) :=
  let y := upd y 0 (yi 0%Z) in
  match for_up (spline3_step xi yi x z h N) 0 (Z.to_nat (nx + 1)) (Some (None, y)) with
  | Some (_, y) => Some y
  | None => None
  end.

(** [splinterp], lines 726-796: the bulk mode.  The blocks are fresh
    [calloc]s (their results are not tested).  [b] is computed and never
    read.  With two knots the call of [tri] has [n = 0], and its statement
    [e[n-1] = b[n-1]/d[n-1]] addresses the cell before each of the three
    blocks; arrays have no bounds here, and no later step reads that
    cell. *)
Definition splinterp (N : Z) (xi yi : arr F) (nx : Z) (xout : arr F) : option (arr F) :=
  let nx := (nx - 1)%Z in
  let b := upd zeros 0 ((yi 1%Z - yi 0%Z) / (xi 1%Z - xi 0%Z)) in
  let b := for_up (fun i b =>
             upd b (i + 1) (- b i + of_long 2 * (yi (i + 1)%Z - yi i) / (xi (i + 1)%Z - xi i)))
           0 (Z.to_nat (N - 2 + 1)) b in
  let N := (N - 1)%Z in
  let h := for_up (fun i h => upd h i (xi (i + 1)%Z - xi i)) 0 (Z.to_nat (N - 1 + 1)) zeros in
  let k := for_up (fun i k =>
             upd k i (of_long 6 * ((yi (i + 2)%Z - yi (i + 1)%Z) / h (i + 1)%Z
                                   - (yi (i + 1)%Z - yi i) / h i)))
           0 (Z.to_nat (N - 2 + 1)) zeros in
  let a := for_up (fun i a => upd a i (h (i + 1)%Z)) 0 (Z.to_nat (N - 2 + 1)) zeros in
  let d := for_up (fun i d => upd d i (of_long 2 * (h i + h (i + 1)%Z)))
           0 (Z.to_nat (N - 2 + 1)) zeros in
  let N := (N + 1)%Z in
  let c := a in
  let e := zeros in
  let z := tri_e (tri a d c k e (N - 2)) in
  spline3 xi yi xout z h zeros nx N.

(** [splinterp_pt], lines 798-860: the point mode.  The search halves
    [first..last]; [fuel] bounds its iterations, and one more than the
    number of indices in [first..last] is enough ([pt_search_total]). *)
Fixpoint pt_search (fuel : nat) (x : arr F) (xout : F) (first last midindex : Z) : search :=
  match fuel with
  | O => Spent
  | Datatypes.S fuel =>
      if (first <=? last)%Z then
        if (x midindex <? xout) && (x (midindex + 1)%Z >? xout) then Found midindex
        else if x midindex <? xout then
          let first := (midindex + 1)%Z in
          pt_search fuel x xout first last ((first + last) ÷ 2)
        else if x midindex >? xout then
          let last := (midindex - 1)%Z in
          pt_search fuel x xout first last ((first + last) ÷ 2)
        else Found midindex
      else Unset
  end.

Definition splinterp_pt (z : arr F) (N : Z) (x y : arr F) (xout : F) : option F :=
  let first := 0%Z in
  let last := N in
  let midindex := ((first + last) ÷ 2)%Z in
  match pt_search (Datatypes.S (Z.to_nat (last - first + 1))) x xout first last midindex with
  | Found index =>
      let x_lo := x index in
      let x_hi := x (index + 1)%Z in
      let y_lo := y index in
      let y_hi := y (index + 1)%Z in
      let h := x_hi - x_lo in
      let dy := y_hi - y_lo in
      Some (if x index =? xout then y index
            else if h >? of_long 0 then
              let dx := xout - x_lo in
              let a := (z (index + 1)%Z - z index) / (of_long 6 * h) in
              let b := z index / of_long 2 in
              let c := dy / h - h / of_long 6 * (z (index + 1)%Z + of_long 2 * z index) in
              y_lo + dx * (c + dx * (b + dx * a))
            else of_long 0)
  | _ => None
  end.

(** [spline_init], lines 862-896: the second derivatives for the point
    mode, written into the caller's [z].  The last turn of the [k] loop
    reads [y[N]] and [h[N-1]], one past the data; what it stores in
    [k[N-2]] is not used by [tri] for [z]. *)
Definition spline_init (z x y : arr F) (N : Z) : arr F :=
  let h := for_up (fun i h => upd h i (x (i + 1)%Z - x i)) 0 (Z.to_nat (N - 1)) zeros in
  let d := for_up (fun i d => upd d i (of_long 2 * (h i + h (i + 1)%Z)))
           0 (Z.to_nat (N - 2)) zeros in
  let a := for_up (fun i a => upd a i (h (i + 1)%Z)) 0 (Z.to_nat (N - 2)) zeros in
  let k := for_up (fun i k =>
             upd k i (of_long 6 * ((y (i + 2)%Z - y (i + 1)%Z) / h (i + 1)%Z
                                   - (y (i + 1)%Z - y i) / h i)))
           0 (Z.to_nat (N - 1)) zeros in
  tri_e (tri a d a k z (N - 2)).

End Spline.

(** ** Simpson quadrature *)

Section Simpson.
Context {F : Type} `{Scalar F}.
Local Open Scope scalar_scope.

(** [makeh], lines 1016-1024. *)
Definition makeh (x h : arr F) (n : Z) : arr F :=
  for_up (fun i h => upd h i (x (i + 1)%Z - x i)) 0 (Z.to_nat (n - 1)) h.

(** [geth], lines 929-959; [n] is the number of samples.  The three
    output blocks are distinct. *)
Definition geth_step (h : arr F) (even : Z) (i : Z)
    (s : arr F * arr F * arr F) : arr F * arr F * arr F :=
  let '(hsum, hratio, hfactor) := s in
  let j := (2 * i + even)%Z in
  let hsum := upd hsum i (h j + h (j + 1)%Z) in
  let hratio := upd hratio i (h (j + 1)%Z / h j) in
  let hfactor := upd hfactor i (hsum i * hsum i / (h j * h (j + 1)%Z)) in
  (hsum, hratio, hfactor).

Definition geth (h hsum hratio hfactor : arr F) (n : Z) : arr F * arr F * arr F :=
  if (n =? 0)%Z then (hsum, hratio, hfactor)
  else
    let even := Z.rem n 2 in
    let size := (n ÷ 2)%Z in
    let even := if (even =? 0)%Z then 1%Z else 0%Z in
    for_up (geth_step h even) 0 (Z.to_nat size) (hsum, hratio, hfactor).

(** [simpson], lines 1028-1053. *)
Definition simpson_term (y hsum hratio hfactor : arr F) (n i : Z) : F :=
  let j := (2 * i + (if (Z.rem n 2 =? 0)%Z then 1 else 0))%Z in
  (y j * (of_long 2 - hratio i)
   + y (j + 1)%Z * hfactor i
   + y (j + 2)%Z * (of_long 2 - of_long 1 / hratio i)) * hsum i.

Definition simpson (y hsum hratio hfactor : arr F) (n : Z) : F :=
  let res := for_up (fun i res => res + simpson_term y hsum hratio hfactor n i)
               0 (Z.to_nat ((n - 1) ÷ 2)) (of_long 0) in
  res / of_long 6.

(** [simps], lines 990-1012. *)
Definition simps (y h hsum hratio hfactor : arr F) (n : Z) : F :=
  let even := (Z.rem n 2 =? 0)%Z in
  if (n =? 1)%Z then of_long 0
  else if (n =? 2)%Z then h 0%Z * (y 0%Z + y 1%Z) / of_long 2
  else
    let integ := simpson y hsum hratio hfactor n in
    if even then integ + h 0%Z * (y 0%Z + y 1%Z) / of_long 2
    else integ.

End Simpson.


(** ** Persistence

    A [FILE *] is the sequence of objects written to it or still to be read
    from it: whole [prop_samp] records and doubles (the layout in bytes is
    not modelled).  Writing never fails. *)

Inductive item (F : Type) : Type :=
| Rec (s : prop_samp F)
| Val (x : F).
Arguments Rec {F} s.
Arguments Val {F} x.

Section Persistence.
Context {F : Type} `{Scalar F}.

(** What [fwrite] puts in the file for the field [v] is an address, not
    the block it points to. *)
Definition address_of (p : pointer F) : pointer F :=
  match p with
  | NULL => NULL
  | _ => Stale
  end.

(** [savesample_arr], lines 1103-1108; [None] when [fwrite] is given a
    pointer that has no block. *)
Definition savesample_arr (out : list (item F)) (samp : prop_samp F) : option (list (item F)) :=
  if (s_n samp >? 0)%Z then
    match s_v samp with
    | Block a => Some (out ++ map Val (to_list a (Z.to_nat (s_n samp))))
    | _ => None
    end
  else Some out.

(** [savesample], lines 1093-1098. *)
Definition savesample (out : list (item F)) (samp : prop_samp F) : option (list (item F)) :=
  savesample_arr (out ++ [Rec (set_v samp (address_of (s_v samp)))]) samp.

(** [fread(ptr, sizeof(double), cnt, in)]: the doubles read, at most
    [cnt], and what is left of the file. *)
Fixpoint fread_vals (cnt : nat) (inp : list (item F)) : list F * list (item F) :=
  match cnt, inp with
  | S c, Val x :: rest =>
      let '(xs, rest) := fread_vals c rest in (x :: xs, rest)
  | _, _ => ([], inp)
  end.

(** The doubles read go to the first cells of the block. *)
Definition store (dst : arr F) (xs : list F) : arr F :=
  fun j => if ((0 <=? j) && (j <? Z.of_nat (length xs)))%Z
           then nth (Z.to_nat j) xs (of_long 0) else dst j.

(** [restsample_arr], lines 1136-1151: the code returned, the structure
    and the rest of the file. *)
Definition restsample_arr (inp : list (item F)) (samp : prop_samp F)
    : Z * prop_samp F * list (item F) :=
  if (s_n samp <? 0)%Z then (-2, samp, inp)
  else if (s_n samp >? 1000000)%Z then (1, samp, inp)
  else
    let samp := set_v samp (calloc (s_n samp)) in
    match s_v samp with
    | Block v =>
        if (s_n samp =? 0)%Z then (0, samp, inp)
        else
          let '(xs, rest) := fread_vals (Z.to_nat (s_n samp)) inp in
          let samp := set_v samp (Block (store v xs)) in
          if negb (Z.of_nat (length xs) =? s_n samp)%Z then (-1, samp, rest)
          else (0, samp, rest)
    | _ => (-3, samp, inp)
    end.

(** [restsample], lines 1119-1125. *)
Definition restsample (inp : list (item F)) (samp : prop_samp F)
    : Z * prop_samp F * list (item F) :=
  match inp with
  | Rec s :: rest => restsample_arr rest s
  | _ => (-1, samp, inp)
  end.

End Persistence.

(** ** The wording of the specification, for comparison with the code *)

(** The specification's epsilon. *)
Definition eps : Q := 1 # 100000000.



(** "values[n-1] = initial, then each earlier value computed as
    initial + k*effective_spacing for k = n-1-index". *)
Definition spec_backward_value (F : Type) `{Scalar F} (si osd : F) (n index : Z) : F :=
  (si + of_long (n - 1 - index) * osd)%S.

(** "accumulate (y[j]*(2-hratio) + y[j+1]*hfactor + y[j+2]*(2-1/hratio))*hsum"
    over the pairs of intervals [(2i+offset, 2i+1+offset)], "final result
    divided by 6". *)
Definition spec_pair_term (F : Type) `{Scalar F}
    (y hsum hratio hfactor : arr F) (offset : Z) (i : nat) : F :=
  let j := (2 * Z.of_nat i + offset)%Z in
  ((y j * (of_long 2 - hratio (Z.of_nat i))
    + y (j + 1)%Z * hfactor (Z.of_nat i)
    + y (j + 2)%Z * (of_long 2 - of_long 1 / hratio (Z.of_nat i))) * hsum (Z.of_nat i))%S.

Definition spec_paired_sum (F : Type) `{Scalar F}
    (y hsum hratio hfactor : arr F) (offset : Z) (npairs : nat) : F :=
  (fold_left add (map (spec_pair_term y hsum hratio hfactor offset) (seq 0 npairs)) (of_long 0)
   / of_long 6)%S.

(** The sum of the first [cnt] interval widths. *)
Fixpoint sum_h (h : arr Q) (cnt : nat) : Q :=
  match cnt with
  | O => 0%Q
  | S c => (sum_h h c + h (Z.of_nat c))%Q
  end.

(** ** Notions used in the statements *)

(** The values a structure holds: the first [n] cells of its block. *)
Definition values_of {F} (samp : prop_samp F) : list F :=
  match s_v samp with
  | Block a => to_list a (Z.to_nat (s_n samp))
  | _ => []
  end.

(** The sum of the widths of the first [m] pairs of intervals, the first
    pair starting at interval [off]. *)
Fixpoint pair_sum (h : arr Q) (off : Z) (m : nat) : Q :=
  match m with
  | O => 0%Q
  | S c => (pair_sum h off c
            + (h (2 * Z.of_nat c + off)%Z + h (2 * Z.of_nat c + off + 1)%Z))%Q
  end.

(** Knots [xi[0..N-1]] that the comparisons of the arithmetic see in
    strictly increasing order (in binary64: increasing, none of them a
    NaN). *)
Definition knots_ordered {F} `{Scalar F} (xi : arr F) (N : Z) : Prop :=
  forall p q, 0 <= p -> p <= q -> q <= N - 1 ->
    (xi p <? xi q)%S = (p <? q)
    /\ (xi q <? xi p)%S = false
    /\ (p = q -> (xi p =? xi q)%S = true).

(** Knots [xi[0..N-1]] in strictly increasing order. *)
Definition increasing (xi : arr Q) (N : Z) : Prop :=
  forall i, 0 <= i < N - 1 -> (xi i < xi (i + 1)%Z)%Q.

(** The interval of a point [x] of the table: the last knot not above it. *)
Definition interval_of (xi : arr Q) (N : Z) (x : Q) (t : Z) : Prop :=
  0 <= t <= N - 1 /\ (xi t <= x)%Q /\ forall q, t < q <= N - 1 -> (x < xi q)%Q.

(** The interval the scan of the bulk mode settles on for the point [x],
    starting with [j] unset. *)
Definition scan_of (xi : arr Q) (N : Z) (x : Q) : Z :=
  match spline3_locate xi x N None with
  | Some p => p
  | None => 0
  end.

(** A polynomial of degree at most two, [c2*t^2 + c1*t + c0], and its
    integral from [lo] to [hi]. *)
Definition quadratic (c0 c1 c2 t : Q) : Q := (c2 * t * t + c1 * t + c0)%Q.

Definition quadratic_integral (c0 c1 c2 lo hi : Q) : Q :=
  (c2 * (hi * hi * hi - lo * lo * lo) / 3 + c1 * (hi * hi - lo * lo) / 2 + c0 * (hi - lo))%Q.

(** * Properties *)

Unset Implicit Arguments.

(** ** Arrays and loops *)

(** Case analysis on the integer tests of a goal. *)
Ltac ztests :=
  repeat match goal with
         | |- context [(?a <=? ?b)%Z] => destruct (Z.leb_spec a b)
         | |- context [(?a <? ?b)%Z] => destruct (Z.ltb_spec a b)
         | |- context [(?a =? ?b)%Z] => destruct (Z.eqb_spec a b)
         end;
  cbn [andb orb negb].

(** C division and remainder by 2 on the counts of the loops. *)
Lemma rem_even (n : Z) : Z.even n = true -> Z.rem n 2 = 0.
Proof.
  intros He. apply Z.even_spec in He. destruct He as [m ->].
  rewrite Z.mul_comm. now apply Z.rem_mul.
Qed.

Lemma rem_odd (n : Z) : 0 <= n -> Z.even n = false -> Z.rem n 2 = 1.
Proof.
  intros Hn Ho. rewrite Z.rem_mod_nonneg by lia.
  rewrite Zmod_even, Ho. reflexivity.
Qed.

Lemma quot2_nonneg (n : Z) : 0 <= n -> n ÷ 2 = n / 2.
Proof. intros Hn. apply Z.quot_div_nonneg; lia. Qed.

Lemma upd_same {F} (a : arr F) (k : Z) (x : F) : upd a k x k = x.
Proof. unfold upd. now rewrite Z.eqb_refl. Qed.

Lemma upd_other {F} (a : arr F) (k j : Z) (x : F) : j <> k -> upd a k x j = a j.
Proof. unfold upd. intros Hjk. now apply Z.eqb_neq in Hjk as ->. Qed.

Lemma for_up_end {S : Type} (body : Z -> S -> S) (cnt : nat) :
  forall lo s,
    for_up body lo (Datatypes.S cnt) s = body (lo + Z.of_nat cnt) (for_up body lo cnt s).
Proof.
  induction cnt as [|c IH]; intros lo s.
  - simpl. now rewrite Z.add_0_r.
  - change (for_up body lo (Datatypes.S (Datatypes.S c)) s)
      with (for_up body (lo + 1) (Datatypes.S c) (body lo s)).
    rewrite IH. simpl for_up at 2.
    f_equal. lia.
Qed.

Lemma for_down_end {S : Type} (body : Z -> S -> S) (cnt : nat) :
  forall hi s,
    for_down body hi (Datatypes.S cnt) s = body (hi - Z.of_nat cnt) (for_down body hi cnt s).
Proof.
  induction cnt as [|c IH]; intros hi s.
  - simpl. now rewrite Z.sub_0_r.
  - change (for_down body hi (Datatypes.S (Datatypes.S c)) s)
      with (for_down body (hi - 1) (Datatypes.S c) (body hi s)).
    rewrite IH. simpl for_down at 2.
    f_equal. lia.
Qed.

(** A loop that stores [g i] in cell [i] of one array, where [g] may read
    the cells stored before. *)
Lemma for_up_store {F} (g : Z -> arr F -> F) (cnt : nat) (a0 : arr F) :
  let a := for_up (fun i a => upd a i (g i a)) 0 cnt a0 in
  forall j, (0 <= j < Z.of_nat cnt -> a j = g j (for_up (fun i a => upd a i (g i a)) 0 (Z.to_nat j) a0))
            /\ (j < 0 \/ Z.of_nat cnt <= j -> a j = a0 j).
Proof.
  induction cnt as [|c IH]; intros a j; subst a.
  - simpl. split; [lia | reflexivity].
  - rewrite for_up_end. simpl Z.add.
    destruct (IH j) as [IHin IHout]. split.
    + intros Hj. destruct (Z.eq_dec j (Z.of_nat c)) as [->|Hne].
      * rewrite upd_same. now rewrite Nat2Z.id.
      * rewrite upd_other by assumption. apply IHin. lia.
    + intros Hj. rewrite upd_other by lia. apply IHout. lia.
Qed.

(** The same when [g] reads no cell of the array it fills. *)
Lemma for_up_fill {F} (g : Z -> F) (cnt : nat) (a0 : arr F) (j : Z) :
  for_up (fun i a => upd a i (g i)) 0 cnt a0 j
  = if ((0 <=? j) && (j <? Z.of_nat cnt))%Z then g j else a0 j.
Proof.
  destruct (for_up_store (fun i _ => g i) cnt a0 j) as [Hin Hout].
  ztests; first [apply Hin; lia | apply Hout; lia].
Qed.

(** ** The grid generator: the fill *)

Section FillFacts.
Context {F : Type} `{Scalar F}.
Local Open Scope scalar_scope.

Lemma fill_loop_spec (si osd : F) (k : nat) :
  forall (v : arr F) (j : Z),
    fill_loop si osd k v j
    = if ((1 <=? j) && (j <=? Z.of_nat k))%Z then si + of_long j * osd else v j.
Proof.
  induction k as [|k IH]; intros v j.
  - cbn [fill_loop]. ztests; try reflexivity; lia.
  - cbn [fill_loop]. rewrite IH.
    ztests; try reflexivity; try lia.
    + replace j with (Z.of_nat (Datatypes.S k)) by lia. now rewrite upd_same.
    + apply upd_other. lia.
    + apply upd_other. lia.
Qed.

Lemma fill_values_cells (si osd : F) (n : Z) (v : arr F) :
  (1 <= n)%Z ->
  fill_values si osd n v 0%Z = si
  /\ (forall index, (1 <= index <= n - 1)%Z ->
        fill_values si osd n v index = si + of_long index * osd)
  /\ (forall index, (index < 0 \/ n <= index)%Z -> fill_values si osd n v index = v index).
Proof.
  intros Hn. unfold fill_values. repeat split.
  - rewrite fill_loop_spec. ztests; try lia; apply upd_same.
  - intros index Hi. rewrite fill_loop_spec. ztests; try reflexivity; lia.
  - intros index Hi. rewrite fill_loop_spec. ztests; try lia; apply upd_other; lia.
Qed.

End FillFacts.

(** C2, as the code has it: the cells are stored from the last one down,
    but the value of the cell at offset [index] is
    [initial + index * effective_spacing]; the cell 0 holds [initial], the
    cell [n-1] the far end of the grid, and no cell outside [0..n-1] is
    touched. *)
Theorem fill_values_forward (F : Type) `{Scalar F} (si osd : F) (n : Z) (v : arr F) :
  1 <= n ->
  fill_values si osd n v 0 = si
  /\ (forall index, 1 <= index <= n - 1 ->
        fill_values si osd n v index = (si + of_long index * osd)%S)
  /\ (forall index, index < 0 \/ n <= index -> fill_values si osd n v index = v index).
Proof. intros Hn. now apply fill_values_cells. Qed.

Lemma fill_values_forward_witness :
  1 <= 5
  /\ fill_values 1%float 0.25%float 5 zeros 0 = 1%float
  /\ fill_values 1%float 0.25%float 5 zeros 4 = (1 + float_of_long 4 * 0.25)%float.
Proof.
  split; [lia|].
  destruct (fill_values_forward float 1%float 0.25%float 5 zeros) as (H0 & Hk & _); [lia|].
  split; [exact H0 | apply (Hk 4); lia].
Defined.

(** The grid of the specification's own example (initial 1, final 2,
    spacing 0.5, oversampling 2), run in binary64: the last cell holds the
    final value 2, not the initial value, and the cell 1 holds 1.25, not
    the 1.75 of a reversed fill. *)
Lemma backward_fill_counterexample :
  let blank : prop_samp float := mk_samp 0 0%float 0%float 0%float 0 NULL 0%float in
  let hint : prop_samp float := mk_samp 0 0.5%float 1%float 2%float 2 NULL 1%float in
  let ref : prop_samp float := mk_samp 0 0%float 0%float 0%float 0 NULL 1%float in
  exists s a,
    makesample blank hint ref = Return 0 s /\ s_v s = Block a /\ s_n s = 5
    /\ s_i s = 1%float
    /\ to_list a 5 = [1; 1.25; 1.5; 1.75; 2]%float
    /\ a (s_n s - 1) <> s_i s
    /\ spec_backward_value (s_i s) (s_d s / float_of_long (s_o s))%float (s_n s) 1 = 1.75%float
    /\ a 1 <> spec_backward_value (s_i s) (s_d s / float_of_long (s_o s))%float (s_n s) 1.
Proof.
  intros blank hint ref.
  eexists. eexists.
  split; [vm_compute; reflexivity|].
  split; [reflexivity|].
  split; [reflexivity|].
  split; [reflexivity|].
  split; [vm_compute; reflexivity|].
  split; [vm_compute; intros E; discriminate E|].
  split; [vm_compute; reflexivity|].
  vm_compute; intros E; discriminate E.
Qed.

(** ** The quadrature engine: the shape of [simps] *)

Section SimpsonFacts.
Context {F : Type} `{Scalar F}.
Local Open Scope scalar_scope.

(** An accumulating loop adds up its terms from the left. *)
Lemma for_up_sum (g : Z -> F) (cnt : nat) :
  forall lo s,
    for_up (fun i res => res + g i) lo cnt s
    = fold_left add (map (fun k => g (lo + Z.of_nat k)%Z) (seq 0 cnt)) s.
Proof.
  induction cnt as [|c IH]; intros lo s.
  - reflexivity.
  - cbn [for_up]. rewrite IH.
    change (seq 0 (Datatypes.S c)) with (0%nat :: seq 1 c).
    rewrite <- seq_shift. cbn [map fold_left]. rewrite map_map.
    rewrite Z.add_0_r. f_equal.
    apply map_ext. intros k. f_equal. lia.
Qed.

Lemma simpson_even (y hsum hratio hfactor : arr F) (n : Z) :
  4 <= n -> Z.even n = true ->
  simpson y hsum hratio hfactor n
  = spec_paired_sum y hsum hratio hfactor 1 (Z.to_nat ((n - 2) / 2)).
Proof.
  intros Hn He. pose proof (rem_even n He) as Hrem.
  assert (Hq : ((n - 1) ÷ 2 = (n - 2) / 2)%Z).
  { rewrite quot2_nonneg by lia.
    apply Z.even_spec in He. destruct He as [m ->].
    Z.div_mod_to_equations. lia. }
  unfold simpson, spec_paired_sum. rewrite for_up_sum, Hq.
  do 2 f_equal. apply map_ext. intros k.
  unfold simpson_term, spec_pair_term. rewrite Hrem. reflexivity.
Qed.

End SimpsonFacts.

(** C5: [simps] returns 0 for one sample, the trapezoid of the single
    interval for two, and for an even number of samples from 4 on the sum
    over the interval pairs (offset 1: the first interval is skipped)
    divided by 6, plus the trapezoid of the first interval. *)
Theorem simps_cases (F : Type) `{Scalar F} (y h hsum hratio hfactor : arr F) :
  simps y h hsum hratio hfactor 1 = of_long 0
  /\ simps y h hsum hratio hfactor 2 = (h 0 * (y 0 + y 1) / of_long 2)%S
  /\ (forall n, 4 <= n -> Z.even n = true ->
        simps y h hsum hratio hfactor n
        = (spec_paired_sum y hsum hratio hfactor 1 (Z.to_nat ((n - 2) / 2))
           + h 0 * (y 0 + y 1) / of_long 2)%S).
Proof.
  repeat split.
  intros n Hn He. unfold simps.
  rewrite (rem_even n He). cbn [Z.eqb].
  destruct (Z.eqb_spec n 1); [lia|]. destruct (Z.eqb_spec n 2); [lia|].
  now rewrite simpson_even.
Qed.

Lemma simps_cases_witness :
  let y : arr Q := of_list [1; 2; 3; 4]%Q in
  let h : arr Q := of_list [1; 2; 3]%Q in
  4 <= 4 /\ Z.even 4 = true
  /\ simps y h zeros zeros zeros 4
     = (spec_paired_sum y zeros zeros zeros 1 (Z.to_nat ((4 - 2) / 2))
        + h 0 * (y 0 + y 1) / of_long 2)%S.
Proof.
  intros y h. split; [lia|]. split; [reflexivity|].
  apply (proj2 (proj2 (simps_cases Q y h zeros zeros zeros))); [lia | reflexivity].
Defined.

(** ** Persistence *)

Section PersistenceFacts.
Context {F : Type} `{Scalar F}.

Lemma fread_vals_all (xs : list F) (tail : list (item F)) :
  fread_vals (length xs) (map Val xs ++ tail) = (xs, tail).
Proof.
  induction xs as [|x xs IH]; cbn [length map app fread_vals].
  - now destruct tail as [|[]].
  - now rewrite IH.
Qed.

Lemma to_list_length (a : arr F) (cnt : nat) : length (to_list a cnt) = cnt.
Proof. unfold to_list. now rewrite length_map, length_seq. Qed.

Lemma to_list_store (dst : arr F) (xs : list F) : to_list (store dst xs) (length xs) = xs.
Proof.
  unfold to_list. apply nth_ext with (d := of_long 0) (d' := of_long 0).
  - now rewrite length_map, length_seq.
  - intros k Hk. rewrite length_map, length_seq in Hk.
    rewrite (nth_indep _ _ (store dst xs (Z.of_nat 0))) by now rewrite length_map, length_seq.
    rewrite (map_nth (fun j => store dst xs (Z.of_nat j))), seq_nth by assumption.
    unfold store. cbn [Nat.add]. ztests; try lia. now rewrite Nat2Z.id.
Qed.

Lemma restsample_arr_reads (xs : list F) (tail : list (item F)) (samp : prop_samp F) :
  0 <= s_n samp <= 1000000 -> Z.of_nat (length xs) = s_n samp ->
  exists a,
    restsample_arr (map Val xs ++ tail) samp = (0, set_v samp (Block a), tail)
    /\ to_list a (length xs) = xs.
Proof.
  intros Hn Hlen. unfold restsample_arr, calloc.
  destruct (Z.ltb_spec (s_n samp) 0); [lia|].
  destruct (Z.gtb_spec (s_n samp) 1000000); [lia|].
  cbn [s_v s_n set_v].
  destruct (Z.eqb_spec (s_n samp) 0) as [E0|E0].
  - destruct xs; [|cbn [length] in Hlen; lia].
    exists zeros. split; reflexivity.
  - rewrite <- Hlen, Nat2Z.id, fread_vals_all.
    cbn [s_n set_v]. rewrite Z.eqb_refl. cbn [negb].
    exists (store zeros xs). split; [reflexivity | apply to_list_store].
Qed.

End PersistenceFacts.

(** C7: [restsample_arr] returns -2 exactly when the stored count is
    negative; it returns 1 for every count above 1,000,000; and for a count
    in [0, 1,000,000] followed in the file by that many doubles it returns
    0, having read exactly these doubles into the block (none for 0). *)
Theorem restsample_arr_codes (F : Type) `{Scalar F} (inp : list (item F)) (samp : prop_samp F) :
  (fst (fst (restsample_arr inp samp)) = -2 <-> s_n samp < 0)
  /\ (1000000 < s_n samp -> fst (fst (restsample_arr inp samp)) = 1)
  /\ (0 <= s_n samp <= 1000000 ->
      forall xs tail, inp = map Val xs ++ tail -> Z.of_nat (length xs) = s_n samp ->
      exists a,
        restsample_arr inp samp = (0, set_v samp (Block a), tail)
        /\ to_list a (length xs) = xs).
Proof.
  split; [|split].
  - unfold restsample_arr, calloc.
    destruct (Z.ltb_spec (s_n samp) 0) as [Hneg|Hpos]; [cbn; split; [intros _; exact Hneg | reflexivity]|].
    split; [|lia]. intros Hcode. exfalso. revert Hcode.
    destruct (Z.gtb_spec (s_n samp) 1000000); [cbn; discriminate|].
    cbn [s_v s_n set_v].
    destruct (Z.eqb_spec (s_n samp) 0); [cbn; discriminate|].
    destruct (fread_vals _ _) as [xs rest].
    destruct (negb _); cbn; discriminate.
  - intros Hbig. unfold restsample_arr.
    destruct (Z.ltb_spec (s_n samp) 0); [lia|].
    destruct (Z.gtb_spec (s_n samp) 1000000); [reflexivity | lia].
  - intros Hn xs tail -> Hlen. now apply restsample_arr_reads.
Qed.

Lemma restsample_arr_codes_witness :
  let samp : prop_samp Q := mk_samp 2 0%Q 0%Q 0%Q 1 Stale 1%Q in
  exists a,
    restsample_arr [Val 5%Q; Val 7%Q; Val 9%Q] samp = (0, set_v samp (Block a), [Val 9%Q])
    /\ to_list a 2 = [5%Q; 7%Q].
Proof.
  intros samp.
  apply (proj2 (proj2 (restsample_arr_codes Q [Val 5%Q; Val 7%Q; Val 9%Q] samp)))
    with (xs := [5%Q; 7%Q]) (tail := [Val 9%Q]).
  - cbn. lia.
  - reflexivity.
  - reflexivity.
Defined.

(** C8: what [savesample] appends to a file, [restsample] reads back: it
    returns 0, consumes exactly what was written, and leaves a structure
    with the same units factor, bounds, spacing, oversampling and count,
    and the same values. *)
Theorem save_restore_roundtrip (F : Type) `{Scalar F}
    (samp : prop_samp F) (out : list (item F)) :
  0 <= s_n samp <= 1000000 ->
  (0 < s_n samp -> exists a, s_v samp = Block a) ->
  exists chunk,
    savesample out samp = Some (out ++ chunk)
    /\ forall (tail : list (item F)) (old : prop_samp F),
         exists back,
           restsample (chunk ++ tail) old = (0, back, tail)
           /\ s_fct back = s_fct samp /\ s_i back = s_i samp /\ s_f back = s_f samp
           /\ s_d back = s_d samp /\ s_o back = s_o samp /\ s_n back = s_n samp
           /\ values_of back = values_of samp.
Proof.
  intros Hn Hv.
  assert (Hlen : Z.of_nat (length (values_of samp)) = s_n samp).
  { unfold values_of. destruct (Z.eq_dec (s_n samp) 0) as [E|E].
    - rewrite E. now destruct (s_v samp).
    - destruct Hv as [a ->]; [lia|]. rewrite to_list_length. lia. }
  exists (Rec (set_v samp (address_of (s_v samp))) :: map Val (values_of samp)). split.
  - unfold savesample, savesample_arr.
    destruct (Z.gtb_spec (s_n samp) 0) as [Hpos|Hzero].
    + destruct Hv as [a Ha]; [lia|]. unfold values_of. rewrite Ha, <- app_assoc. reflexivity.
    + assert (E : s_n samp = 0) by lia.
      replace (values_of samp) with (@nil F).
      * reflexivity.
      * unfold values_of. rewrite E. now destruct (s_v samp).
  - intros tail old. cbn [app restsample].
    destruct (restsample_arr_reads (values_of samp) tail
                (set_v samp (address_of (s_v samp))))
      as (a' & Hrest & Hvals); [exact Hn | exact Hlen |].
    eexists. split; [exact Hrest|].
    repeat (split; [reflexivity|]).
    unfold values_of at 1. cbn [s_v s_n set_v].
    etransitivity; [|exact Hvals].
    f_equal. lia.
Qed.

Lemma save_restore_roundtrip_witness :
  let samp : prop_samp float :=
    mk_samp 3 0.5%float 1%float 2%float 1 (Block (of_list [1; 1.5; 2]%float)) 1%float in
  exists chunk,
    savesample [] samp = Some ([] ++ chunk)
    /\ forall (tail : list (item float)) (old : prop_samp float),
         exists back,
           restsample (chunk ++ tail) old = (0, back, tail)
           /\ s_fct back = s_fct samp /\ s_i back = s_i samp /\ s_f back = s_f samp
           /\ s_d back = s_d samp /\ s_o back = s_o samp /\ s_n back = s_n samp
           /\ values_of back = values_of samp.
Proof.
  intros samp.
  apply (save_restore_roundtrip float samp []).
  - cbn. lia.
  - intros _. eexists. reflexivity.
Defined.

(** ** The tridiagonal solver *)

Section TriFacts.
Context {F : Type} `{Scalar F}.
Local Open Scope scalar_scope.

Lemma tri_forward_spec (a c d b : arr F) (m : nat) :
  let s := for_up (tri_forward a c) 1 m (d, b) in
  (forall i, (1 <= i <= Z.of_nat m)%Z ->
     fst s i = d i - a (i - 1)%Z / fst s (i - 1)%Z * c (i - 1)%Z
     /\ snd s i = b i - a (i - 1)%Z / fst s (i - 1)%Z * snd s (i - 1)%Z)
  /\ (forall i, (i < 1 \/ Z.of_nat m < i)%Z -> fst s i = d i /\ snd s i = b i).
Proof.
  induction m as [|m IH]; intros s; subst s.
  - cbn [for_up fst snd]. split; [intros i Hi; lia | intros i _; split; reflexivity].
  - rewrite for_up_end.
    destruct (for_up (tri_forward a c) 1 m (d, b)) as [dm bm] eqn:Es.
    cbn [fst snd] in IH. destruct IH as [IHin IHout].
    unfold tri_forward. cbn [fst snd].
    replace (1 + Z.of_nat m - 1)%Z with (Z.of_nat m) by lia.
    split.
    + intros i Hi. destruct (Z.eq_dec i (1 + Z.of_nat m)) as [->|Hne].
      * rewrite !upd_same.
        replace (1 + Z.of_nat m - 1)%Z with (Z.of_nat m) by lia.
        rewrite !upd_other by lia.
        destruct (IHout (1 + Z.of_nat m)%Z) as [-> ->]; [lia|].
        split; reflexivity.
      * rewrite !upd_other by lia. apply IHin. lia.
    + intros i Hi. rewrite !upd_other by lia. apply IHout. lia.
Qed.

Lemma tri_backward_spec (d c b e0 : arr F) (n : Z) (m : nat) :
  let e := for_down (tri_backward d c b) n m e0 in
  (forall j, (n - Z.of_nat m < j <= n)%Z ->
     e j = (b (j - 1)%Z - c (j - 1)%Z * e (j + 1)%Z) / d (j - 1)%Z)
  /\ (forall j, (j <= n - Z.of_nat m \/ n < j)%Z -> e j = e0 j).
Proof.
  induction m as [|m IH]; intros e; subst e.
  - cbn [for_down]. split; [intros j Hj; lia | reflexivity].
  - rewrite for_down_end. destruct IH as [IHin IHout].
    set (em := for_down (tri_backward d c b) n m e0) in *.
    unfold tri_backward. split.
    + intros j Hj. destruct (Z.eq_dec j (n - Z.of_nat m)) as [->|Hne].
      * rewrite upd_same. rewrite upd_other by lia. reflexivity.
      * rewrite !upd_other by lia. apply IHin. lia.
    + intros j Hj. rewrite upd_other by lia. apply IHout. lia.
Qed.

End TriFacts.

(** C10, as the code has it: [tri] stores into the caller's [d] and [b]:
    the cells [1..n] receive the eliminated diagonal
    [d[i] - xmult*c[i-1]] and right-hand side [b[i] - xmult*b[i-1]], with
    [xmult = a[i-1]/d[i-1]] taken on the cell [d[i-1]] just eliminated
    (the stored value is the old one whenever the term subtracted is
    zero); no other cell of [d] or [b] changes, and [a] and [c] are only
    read.  The solution goes to [e]: the cells [1..n] obey the back
    substitution, started from what [e[n+1]] held on entry, and [e[0]] and
    [e[n+1]] are 0 on return. *)
Theorem tri_overwrites (F : Type) `{Scalar F} (a d c b e : arr F) (n : Z) :
  1 <= n ->
  let r := tri a d c b e n in
  (forall i, 1 <= i <= n ->
     tri_d r i = (d i - a (i - 1)%Z / tri_d r (i - 1)%Z * c (i - 1)%Z)%S
     /\ tri_b r i = (b i - a (i - 1)%Z / tri_d r (i - 1)%Z * tri_b r (i - 1)%Z)%S)
  /\ (forall i, i < 1 \/ n < i -> tri_d r i = d i /\ tri_b r i = b i)
  /\ (forall j, 1 <= j <= n ->
        tri_e r j = ((tri_b r (j - 1)%Z
                      - c (j - 1)%Z
                        * (if (j =? n)%Z then e (n + 1)%Z else tri_e r (j + 1)%Z))
                     / tri_d r (j - 1)%Z)%S)
  /\ tri_e r 0 = of_long 0
  /\ tri_e r (n + 1) = of_long 0.
Proof.
  intros Hn r. subst r. unfold tri.
  pose proof (tri_forward_spec a c d b (Z.to_nat n)) as Hf. cbv zeta in Hf.
  destruct (for_up (tri_forward a c) 1 (Z.to_nat n) (d, b)) as [d' b'].
  cbn [fst snd] in Hf. destruct Hf as [Hin Hout]. cbn [tri_d tri_b tri_e].
  set (e1 := upd e (n - 1) (b' (n - 1)%Z / d' (n - 1)%Z)%S).
  pose proof (tri_backward_spec d' c b' e1 n (Z.to_nat n)) as Hb. cbv zeta in Hb.
  set (e2 := for_down (tri_backward d' c b') n (Z.to_nat n) e1) in *.
  destruct Hb as [Hbin Hbout].
  split; [|split; [|split; [|split]]].
  - intros i Hi. apply Hin. lia.
  - intros i Hi. apply Hout. lia.
  - intros j Hj. rewrite !upd_other by lia. rewrite Hbin by lia.
    destruct (Z.eqb_spec j n) as [->|Hne].
    + rewrite Hbout by lia. unfold e1. rewrite upd_other by lia. reflexivity.
    + rewrite (upd_other _ (n + 1)) by lia. rewrite (upd_other _ 0) by lia.
      reflexivity.
  - rewrite upd_other by lia. apply upd_same.
  - apply upd_same.
Qed.

Lemma tri_overwrites_witness :
  let a : arr float := of_list [1; 1]%float in
  let d : arr float := of_list [4; 4; 4]%float in
  let b : arr float := of_list [6; 12; 0]%float in
  let r := tri a d a b zeros 2 in
  tri_d r 1 = (d 1%Z - a 0%Z / tri_d r 0%Z * a 0%Z)%float
  /\ tri_b r 1 = (b 1%Z - a 0%Z / tri_d r 0%Z * tri_b r 0%Z)%float
  /\ tri_e r 0 = 0%float /\ tri_e r 3 = 0%float.
Proof.
  intros a d b r.
  destruct (tri_overwrites float a d a b zeros 2) as (Hin & _ & _ & H0 & Hn); [lia|].
  destruct (Hin 1) as [Hd Hb]; [lia|].
  split; [exact Hd|]. split; [exact Hb|]. split; [exact H0 | exact Hn].
Defined.

(** Two systems in binary64.  The system of a spline through data on a
    straight line (knots 0, 1, 2, 3 and values 0, 1, 2, 3: unit widths,
    diagonal 4, right-hand side 0): the right-hand side is stored into but
    comes back as it was, cell for cell.  A system with a zero
    sub-diagonal: both the diagonal and the right-hand side come back as
    they were. *)
Lemma tri_keeps_zero_rhs :
  let a : arr float := of_list [1; 1]%float in
  let d : arr float := of_list [4; 4]%float in
  let b : arr float := of_list [0; 0]%float in
  let r := tri a d a b zeros 2 in
  let a' : arr float := of_list [0; 0]%float in
  let d' : arr float := of_list [4; 4; 4]%float in
  let b' : arr float := of_list [6; 12; 18]%float in
  let r' := tri a' d' a b' zeros 2 in
  (tri_b r 1 = b 1 /\ tri_b r 2 = b 2 /\ to_list (tri_b r) 3 = to_list b 3)
  /\ (to_list (tri_d r') 3 = to_list d' 3 /\ to_list (tri_b r') 3 = to_list b' 3).
Proof.
  intros a d b r a' d' b' r'. repeat split; vm_compute; reflexivity.
Qed.

(** ** The quadrature engine on a constant, in exact arithmetic *)

(** The class operations on [Q] are the operations of [Q]. *)
Ltac to_Q :=
  cbn [add sub mul div neg ltb leb eqb of_long trunc Q_scalar] in *;
  change (inject_Z 0) with 0%Q in *;
  change (inject_Z 1) with 1%Q in *;
  change (inject_Z 2) with 2%Q in *;
  change (inject_Z 6) with 6%Q in *.

Section GethFacts.
Context {F : Type} `{Scalar F}.
Local Open Scope scalar_scope.

Lemma geth_loop_spec (h : arr F) (even : Z) (m : nat) (hs0 hr0 hf0 : arr F) :
  let s := for_up (geth_step h even) 0 m (hs0, hr0, hf0) in
  forall i, (0 <= i < Z.of_nat m)%Z ->
    let j := (2 * i + even)%Z in
    fst (fst s) i = h j + h (j + 1)%Z
    /\ snd (fst s) i = h (j + 1)%Z / h j
    /\ snd s i = (h j + h (j + 1)%Z) * (h j + h (j + 1)%Z) / (h j * h (j + 1)%Z).
Proof.
  induction m as [|m IH]; intros s i Hi j; subst s j.
  - lia.
  - rewrite for_up_end. cbn [Z.add].
    destruct (for_up (geth_step h even) 0 m (hs0, hr0, hf0)) as [[hs hr] hf].
    cbn [fst snd] in IH. unfold geth_step. cbn [fst snd].
    destruct (Z.eq_dec i (Z.of_nat m)) as [->|Hne].
    + rewrite !upd_same. repeat split.
    + rewrite !upd_other by assumption. apply IH. lia.
Qed.

End GethFacts.

Lemma pair_sum_offset0 (h : arr Q) (m : nat) : (pair_sum h 0 m == sum_h h (2 * m))%Q.
Proof.
  induction m as [|m IH].
  - reflexivity.
  - replace (2 * Datatypes.S m)%nat with (Datatypes.S (Datatypes.S (2 * m))) by lia.
    cbn [pair_sum sum_h]. rewrite IH.
    replace (2 * Z.of_nat m + 0) with (Z.of_nat (2 * m)) by lia.
    replace (Z.of_nat (2 * m) + 1) with (Z.of_nat (Datatypes.S (2 * m))) by lia.
    ring.
Qed.

Lemma pair_sum_offset1 (h : arr Q) (m : nat) :
  (h 0%Z + pair_sum h 1 m == sum_h h (Datatypes.S (2 * m)))%Q.
Proof.
  induction m as [|m IH].
  - change (2 * 0)%nat with 0%nat. cbn [pair_sum sum_h Z.of_nat]. ring.
  - replace (2 * Datatypes.S m)%nat with (Datatypes.S (Datatypes.S (2 * m))) by lia.
    cbn [pair_sum sum_h]. cbn [pair_sum sum_h] in IH. rewrite <- IH.
    replace (2 * Z.of_nat m + 1) with (Z.of_nat (Datatypes.S (2 * m))) by lia.
    replace (Z.of_nat (Datatypes.S (2 * m)) + 1)
      with (Z.of_nat (Datatypes.S (Datatypes.S (2 * m)))) by lia.
    ring.
Qed.

(** One pair of intervals under a constant integrand. *)
Lemma pair_weights (k a b : Q) :
  (0 < a -> 0 < b ->
   (k * (2 - b / a) + k * ((a + b) * (a + b) / (a * b)) + k * (2 - 1 / (b / a))) * (a + b)
   == 6 * (k * (a + b)))%Q.
Proof. intros Ha Hb. field. split; lra. Qed.

Lemma simpson_constant (y h hsum hratio hfactor : arr Q) (k : Q) (n : Z) (m : nat) :
  let off := if Z.rem n 2 =? 0 then 1 else 0 in
  (forall i, 0 <= i < Z.of_nat m ->
     let j := 2 * i + off in
     hsum i = (h j + h (j + 1)%Z)%Q
     /\ hratio i = (h (j + 1)%Z / h j)%Q
     /\ hfactor i = ((h j + h (j + 1)%Z) * (h j + h (j + 1)%Z) / (h j * h (j + 1)%Z))%Q) ->
  (forall i, 0 <= i < 2 * Z.of_nat m + off -> (0 < h i)%Q) ->
  (forall i, 0 <= i <= 2 * Z.of_nat m + off -> (y i == k)%Q) ->
  (for_up (fun i res => (res + simpson_term y hsum hratio hfactor n i)%S) 0 m 0%Q
   == 6 * (k * pair_sum h off m))%Q.
Proof.
  intros off. induction m as [|m IH]; intros Hg Hh Hy.
  - cbn [for_up pair_sum]. ring.
  - rewrite for_up_end. cbn [Z.add pair_sum]. to_Q.
    rewrite IH.
    + unfold simpson_term. fold off.
      destruct (Hg (Z.of_nat m)) as (-> & -> & ->); [lia|]. to_Q.
      rewrite (Hy (2 * Z.of_nat m + off)), (Hy (2 * Z.of_nat m + off + 1)),
        (Hy (2 * Z.of_nat m + off + 2)) by (subst off; destruct (Z.rem n 2 =? 0); lia).
      rewrite pair_weights by (apply Hh; subst off; destruct (Z.rem n 2 =? 0); lia).
      ring.
    + intros i Hi. apply Hg. lia.
    + intros i Hi. apply Hh. lia.
    + intros i Hi. apply Hy. lia.
Qed.

Lemma sum_h_telescopes (h x : arr Q) (cnt : nat) :
  (forall i, 0 <= i < Z.of_nat cnt -> (h i == x (i + 1)%Z - x i)%Q) ->
  (sum_h h cnt == x (Z.of_nat cnt) - x 0%Z)%Q.
Proof.
  induction cnt as [|c IH]; intros Hh.
  - cbn [sum_h Z.of_nat]. ring.
  - cbn [sum_h]. rewrite IH by (intros i Hi; apply Hh; lia).
    rewrite (Hh (Z.of_nat c)) by lia.
    replace (Z.of_nat (Datatypes.S c)) with (Z.of_nat c + 1) by lia. ring.
Qed.

(** C4, as the code has it, in exact arithmetic: on a constant integrand
    [k], with the pair data that [geth] derives from positive widths
    [h[0..n-2]], [simps] returns [k] times the sum of the widths, exactly:
    [k * (x[n-1] - x[0])] when the widths are those of abscissas [x]. *)
Theorem simps_constant (n : Z) (h y hs0 hr0 hf0 : arr Q) (k : Q) :
  1 <= n ->
  (forall i, 0 <= i < n - 1 -> (0 < h i)%Q) ->
  (forall i, 0 <= i < n -> (y i == k)%Q) ->
  let '(hsum, hratio, hfactor) := geth h hs0 hr0 hf0 n in
  (simps y h hsum hratio hfactor n == k * sum_h h (Z.to_nat (n - 1)))%Q
  /\ forall x : arr Q,
       (forall i, 0 <= i < n - 1 -> (h i == x (i + 1)%Z - x i)%Q) ->
       (simps y h hsum hratio hfactor n == k * (x (n - 1)%Z - x 0%Z))%Q.
Proof.
  intros Hn Hh Hy.
  destruct (geth h hs0 hr0 hf0 n) as [[hsum hratio] hfactor] eqn:Eg.
  assert (Hmain : (simps y h hsum hratio hfactor n == k * sum_h h (Z.to_nat (n - 1)))%Q).
  { unfold simps.
    destruct (Z.eqb_spec n 1) as [->|Hn1].
    { change (Z.to_nat (1 - 1)) with 0%nat. cbn [sum_h]. to_Q. ring. }
    destruct (Z.eqb_spec n 2) as [->|Hn2].
    { change (Z.to_nat (2 - 1)) with 1%nat. cbn [sum_h Z.of_nat]. to_Q.
      rewrite (Hy 0), (Hy 1) by lia. field. }
    pose proof (geth_loop_spec h (if Z.rem n 2 =? 0 then 1 else 0)
                  (Z.to_nat (n ÷ 2)) hs0 hr0 hf0) as Hg.
    cbv zeta in Hg. unfold geth in Eg.
    destruct (Z.eqb_spec n 0); [lia|]. rewrite Eg in Hg. cbn [fst snd] in Hg.
    assert (Hq : n ÷ 2 = n / 2) by (apply quot2_nonneg; lia).
    assert (Hq1 : (n - 1) ÷ 2 = (n - 1) / 2) by (apply quot2_nonneg; lia).
    pose proof (simpson_constant y h hsum hratio hfactor k n (Z.to_nat ((n - 1) ÷ 2))) as Hs.
    cbv zeta in Hs. unfold simpson.
    destruct (Z.even n) eqn:He.
    - pose proof (rem_even n He) as Hrem. rewrite Hrem in *. cbn [Z.eqb] in *.
      apply Z.even_spec in He. destruct He as [p Hp].
      assert (Hm : Z.of_nat (Z.to_nat ((n - 1) ÷ 2)) = p - 1)
        by (rewrite Hq1; subst n; Z.div_mod_to_equations; lia).
      to_Q. rewrite Hs.
      + rewrite (Hy 0), (Hy 1) by lia.
        replace (Z.to_nat (n - 1)) with (Datatypes.S (2 * Z.to_nat ((n - 1) ÷ 2))) by lia.
        rewrite <- pair_sum_offset1. field.
      + intros i Hi. apply Hg. rewrite Hq. subst n. Z.div_mod_to_equations. lia.
      + intros i Hi. apply Hh. lia.
      + intros i Hi. apply Hy. lia.
    - assert (Hrem : Z.rem n 2 = 1) by (apply rem_odd; [lia | exact He]). rewrite Hrem in *. cbn [Z.eqb] in *.
      assert (Ho : Z.odd n = true) by (rewrite <- Z.negb_even, He; reflexivity).
      apply Z.odd_spec in Ho. destruct Ho as [p Hp].
      assert (Hm : Z.of_nat (Z.to_nat ((n - 1) ÷ 2)) = p)
        by (rewrite Hq1; subst n; Z.div_mod_to_equations; lia).
      to_Q. rewrite Hs.
      + replace (Z.to_nat (n - 1)) with (2 * Z.to_nat ((n - 1) ÷ 2))%nat by lia.
        rewrite <- pair_sum_offset0. field.
      + intros i Hi. apply Hg. rewrite Hq. subst n. Z.div_mod_to_equations. lia.
      + intros i Hi. apply Hh. lia.
      + intros i Hi. apply Hy. lia. }
  split; [exact Hmain|].
  intros x Hx. rewrite Hmain, (sum_h_telescopes h x) by (intros i Hi; apply Hx; lia).
  replace (Z.of_nat (Z.to_nat (n - 1))) with (n - 1) by lia. reflexivity.
Qed.

Lemma simps_constant_witness :
  let h : arr Q := of_list [1; 2; 3]%Q in
  let y : arr Q := fun _ => 5%Q in
  let '(hsum, hratio, hfactor) := geth h zeros zeros zeros 4 in
  (simps y h hsum hratio hfactor 4 == 5 * sum_h h (Z.to_nat (4 - 1)))%Q
  /\ forall x : arr Q,
       (forall i, 0 <= i < 4 - 1 -> (h i == x (i + 1)%Z - x i)%Q) ->
       (simps y h hsum hratio hfactor 4 == 5 * (x (4 - 1)%Z - x 0%Z))%Q.
Proof.
  intros h y.
  apply (simps_constant 4 h y zeros zeros zeros 5%Q).
  - lia.
  - intros i Hi.
    assert (Ei : i = 0 \/ i = 1 \/ i = 2) by lia.
    destruct Ei as [->|[->| ->]]; reflexivity.
  - intros i Hi. reflexivity.
Defined.

(** The same quadrature in binary64 keeps no tolerance over all positive
    widths.  On three samples of the constant 1 with the widths 1 and
    2^-60, the weights [2 - hratio], [hfactor] and [2 - 1/hratio] are 2,
    2^60 and [2 - 2^60]; their sum, 4 in exact arithmetic, is 0 in
    binary64, and [simps] returns 0 where the integral is 1.  With the
    widths 1 and 10^-9 and the constant 5 it returns 5.0000003228914398
    where [k] times the total width is 5.000000005. *)
Lemma simps_constant_binary64 :
  let y1 : arr float := fun _ => 1%float in
  let h1 : arr float := of_list [1; 0x1p-60]%float in
  let y5 : arr float := fun _ => 5%float in
  let h5 : arr float := of_list [1; 1e-9]%float in
  (let '(hsum, hratio, hfactor) := geth h1 zeros zeros zeros 3 in
   simps y1 h1 hsum hratio hfactor 3 = 0%float
   /\ (1 * (h1 0%Z + h1 1%Z))%float = 1%float)
  /\ (let '(hsum, hratio, hfactor) := geth h5 zeros zeros zeros 3 in
      simps y5 h5 hsum hratio hfactor 3 = 5.0000003228914398%float
      /\ (5 * (h5 0%Z + h5 1%Z))%float = 5.0000000050000004%float)
  /\ (0 <? h1 0%Z)%float = true /\ (0 <? h1 1%Z)%float = true
  /\ (0 <? h5 0%Z)%float = true /\ (0 <? h5 1%Z)%float = true.
Proof.
  intros y1 h1 y5 h5.
  repeat split; vm_compute; reflexivity.
Qed.

(** ** The grid generator, in exact arithmetic *)

Lemma Qle_bool_false (x y : Q) : (y < x)%Q -> Qle_bool x y = false.
Proof.
  intros Hlt. destruct (Qle_bool x y) eqn:E; [|reflexivity].
  apply Qle_bool_iff in E. lra.
Qed.

Lemma Qle_bool_true (x y : Q) : (x <= y)%Q -> Qle_bool x y = true.
Proof. apply Qle_bool_iff. Qed.

Lemma Qeq_bool_false (x y : Q) : ~ (x == y)%Q -> Qeq_bool x y = false.
Proof.
  intros Hne. destruct (Qeq_bool x y) eqn:E; [|reflexivity].
  apply Qeq_bool_iff in E. contradiction.
Qed.

Lemma Qfloor_unique (x : Q) (z : Z) :
  (inject_Z z <= x)%Q -> (x < inject_Z (z + 1))%Q -> Qfloor x = z.
Proof.
  intros Hlo Hhi.
  pose proof (Qfloor_le x) as Hfl. pose proof (Qlt_floor x) as Hfu.
  assert (H1 : (inject_Z z < inject_Z (Qfloor x + 1))%Q) by lra.
  assert (H2 : (inject_Z (Qfloor x) < inject_Z (z + 1))%Q) by lra.
  rewrite <- Zlt_Qlt in H1, H2. lia.
Qed.

(** The conversion to [long] of a rational that is not negative is its
    floor. *)
Lemma to_long_floor (q : Q) :
  (0 <= q)%Q -> Qfloor q <= LONG_MAX -> to_long q = Qfloor q.
Proof.
  intros Hq Hmax. unfold to_long. cbn [trunc Q_scalar].
  assert (Hnum : 0 <= Qnum q).
  { destruct q as [qn qd]. unfold Qle in Hq. cbn in Hq. cbn. lia. }
  assert (E : Qnum q ÷ Z.pos (Qden q) = Qfloor q).
  { destruct q as [qn qd]. cbn [Qnum Qden Qfloor] in *.
    apply Z.quot_div_nonneg; lia. }
  rewrite E.
  assert (H0 : 0 <= Qfloor q).
  { rewrite <- E. apply Z.quot_pos; lia. }
  unfold LONG_MIN, LONG_MAX in *.
  destruct (Z.leb_spec (- 2 ^ 63) (Qfloor q)); [|lia].
  destruct (Z.leb_spec (Qfloor q) (2 ^ 63 - 1)); [reflexivity | lia].
Qed.

Lemma wrap_long_small (z : Z) : LONG_MIN <= z <= LONG_MAX -> wrap_long z = z.
Proof.
  unfold wrap_long, LONG_MIN, LONG_MAX. intros Hz.
  rewrite Z.mod_small; lia.
Qed.

Lemma okfinalexcess_init_binary64 : okfinalexcess_init (F := float) = 1e-8%float.
Proof. vm_compute. reflexivity. Qed.

Lemma okfinalexcess_init_eps : (okfinalexcess_init (F := Q) == eps)%Q.
Proof. reflexivity. Qed.

(** Lines 302-306 on a positive spacing: the count before oversampling
    is the floor of the quotient, plus one. *)
Lemma npoints_floor (i f d : Q) :
  (0 < d)%Q -> (i <= (1 + eps) * f)%Q ->
  Qfloor (((1 + eps) * f - i) / d) + 1 <= LONG_MAX ->
  npoints i f d = Qfloor (((1 + eps) * f - i) / d) + 1.
Proof.
  intros Hd Hif Hmax. unfold npoints. to_Q.
  rewrite (Qle_bool_true 0 d) by lra. cbn [negb].
  set (x := (((1 + eps) * f - i) / d)%Q) in *.
  assert (Hx : (0 <= x)%Q).
  { unfold x. apply Qle_shift_div_l; [exact Hd | lra]. }
  assert (Ex : (((1 + okfinalexcess_init) * f - i) / d + 1 == x + 1)%Q)
    by (unfold x; rewrite okfinalexcess_init_eps; reflexivity).
  assert (Efl : Qfloor (x + 1) = Qfloor x + 1).
  { apply Qfloor_unique.
    - rewrite inject_Z_plus. pose proof (Qfloor_le x). change (inject_Z 1) with 1%Q. lra.
    - rewrite !inject_Z_plus. pose proof (Qlt_floor x).
      rewrite inject_Z_plus in H. change (inject_Z 1) with 1%Q in *. lra. }
  assert (Etl : to_long (((1 + okfinalexcess_init) * f - i) / d + 1)%Q = Qfloor x + 1).
  { rewrite to_long_floor.
    - rewrite (Qfloor_comp _ _ Ex). exact Efl.
    - rewrite Ex. lra.
    - rewrite (Qfloor_comp _ _ Ex), Efl. exact Hmax. }
  rewrite Etl.
  assert (0 <= Qfloor x).
  { change 0 with (Qfloor 0). apply Qfloor_resp_le. exact Hx. }
  destruct (Z.ltb_spec (Qfloor x + 1) 0); [lia | reflexivity].
Qed.

(** What a run of [oversample_and_fill] that returns leaves behind. *)
Lemma oversample_and_fill_inv (F : Type) `{Scalar F}
    (samp : prop_samp F) (o res res' : Z) (s : prop_samp F) :
  oversample_and_fill samp o res = Return res' s ->
  res' = res /\ s_i s = s_i samp /\ s_f s = s_f samp /\ s_d s = s_d samp
  /\ s_fct s = s_fct samp /\ s_o s = o
  /\ s_n s = wrap_long ((s_n samp - 1) * o + 1) /\ 0 < s_n s
  /\ s_v s = Block (fill_values (s_i samp) (s_d samp / of_long o)%S (s_n s) zeros).
Proof.
  unfold oversample_and_fill, calloc. cbn [s_n s_o s_d s_i set_n set_o].
  destruct (Z.ltb_spec (wrap_long ((s_n samp - 1) * o + 1)) 0) as [Hneg|Hpos];
    [discriminate|].
  destruct (Z.eqb_spec (wrap_long ((s_n samp - 1) * o + 1)) 0) as [Hz|Hnz];
    [discriminate|].
  intros E. injection E as <- <-. cbn.
  repeat split; lia.
Qed.


Lemma makesample1_inv (samp ref : prop_samp Q) (res : Z) (s : prop_samp Q) :
  makesample1 samp ref = Return res s -> 0 <= res ->
  1 <= s_o s
  /\ s_n s = wrap_long ((npoints (s_i s) (s_f s) (s_d s) - 1) * s_o s + 1)
  /\ 0 < s_n s
  /\ s_v s = Block (fill_values (s_i s) (s_d s / inject_Z (s_o s))%Q (s_n s) zeros).
Proof.
  unfold makesample1. intros Hrun Hres.
  repeat match type of Hrun with
         | context [if ?c then _ else _] => destruct c eqn:?
         end;
    try discriminate;
    try (injection Hrun as <- <-; lia);
    apply oversample_and_fill_inv in Hrun;
    destruct Hrun as (_ & Ei & Ef & Ed & _ & Eo & En & Hpos & Ev);
    cbn [s_n s_d s_i s_f s_o set_n set_d set_i set_f set_fct] in *;
    rewrite Ei, Ef, Ed, Eo; (split; [lia|]); (split; [exact En|]);
    (split; [exact Hpos | exact Ev]).
Qed.






(** The count in binary64 against the count in exact arithmetic.  On the
    bounds 1 and 4 with the spacing 6755399531127737 * 2^-52 (just above
    1.5) the exact quotient is just below 2 and [makesample1] keeps 2
    points in exact arithmetic; in binary64 the quotient rounds to 2 and
    the same call keeps 3 points, the last of them beyond the final
    bound.  The formula with the floor is therefore a fact of exact
    arithmetic only. *)
Lemma grid_count_binary64 :
  let d : float := 0x1.80000055e63b9p+0%float in
  let dq : Q := (6755399531127737 # 4503599627370496)%Q in
  let blankf : prop_samp float := mk_samp 0 0%float 0%float 0%float 0 NULL 0%float in
  let reff : prop_samp float := mk_samp 0 d 1%float 4%float 1 NULL 1%float in
  let blank : prop_samp Q := mk_samp 0 0%Q 0%Q 0%Q 0 NULL 0%Q in
  let ref : prop_samp Q := mk_samp 0 dq 1%Q 4%Q 1 NULL 1%Q in
  Prim2SF d = S754_finite false 6755399531127737 (-52)
  /\ Qfloor (((1 + eps) * 4 - 1) / dq) + 1 = 2
  /\ (exists s, makesample1 blank ref = Return 0 s /\ s_n s = 2)
  /\ (exists s,
        makesample1 blankf reff = Return 0 s /\ s_n s = 3
        /\ values_of s = [1; 2.5000000199999999; 4.0000000399999998]%float).
Proof.
  intros d dq blankf reff blank ref.
  split; [vm_compute; reflexivity|].
  split; [vm_compute; reflexivity|].
  split.
  - eexists. split; [vm_compute; reflexivity | reflexivity].
  - eexists. split; [vm_compute; reflexivity|].
    split; vm_compute; reflexivity.
Qed.

(** C9, as the code has it: a hint with [0 < final < initial] is refused
    with -3, before any allocation (the field [v] of the output is as it
    was), when the spacing in force is positive: a positive hinted spacing,
    or no hinted spacing and a positive spacing in the reference. *)
Theorem makesample_rejects_reversed (samp hint ref : prop_samp Q) :
  (0 < s_f hint)%Q -> (s_f hint < s_i hint)%Q ->
  (0 < s_d hint)%Q \/ ((s_d hint == 0)%Q /\ (0 < s_d ref)%Q) ->
  exists s,
    makesample samp hint ref = Return (-3) s
    /\ s_v s = s_v samp /\ s_n s = s_n samp.
Proof.
  intros Hf Hfi Hd. unfold makesample. to_Q.
  rewrite (Qle_bool_false (s_i hint) 0) by lra.
  rewrite (Qle_bool_false (s_f hint) 0) by lra.
  destruct Hd as [Hd | [Hd0 Hdr]].
  - rewrite (Qeq_bool_false (s_d hint) 0) by (intros E; lra). cbn [negb].
    rewrite (Qle_bool_false (s_d hint) 0) by lra.
    cbn [s_f s_i s_d set_d set_f set_i set_fct].
    rewrite (Qle_bool_true (s_f hint) (s_i hint)) by lra.
    rewrite (Qle_bool_false (s_d hint) 0) by lra. cbn [negb andb orb].
    eexists. split; [reflexivity|].
    split; now destruct (Qle_bool (s_fct hint) 0).
  - rewrite (proj2 (Qeq_bool_iff (s_d hint) 0)) by exact Hd0. cbn [negb].
    rewrite (Qeq_bool_false (s_d ref) 0) by (intros E; lra). cbn [negb andb].
    cbn [s_f s_i s_d set_d set_f set_i set_fct].
    rewrite (Qle_bool_true (s_f hint) (s_i hint)) by lra.
    rewrite (Qle_bool_false (s_d ref) 0) by lra. cbn [negb andb orb].
    eexists. split; [reflexivity|].
    split; now destruct (Qle_bool (s_fct hint) 0).
Qed.

Lemma makesample_rejects_reversed_witness :
  let blank : prop_samp Q := mk_samp 0 0%Q 0%Q 0%Q 0 NULL 0%Q in
  let hint : prop_samp Q := mk_samp 0 (1 # 2)%Q 2%Q 1%Q 2 NULL 1%Q in
  let ref : prop_samp Q := mk_samp 0 0%Q 0%Q 0%Q 0 NULL 1%Q in
  exists s,
    makesample blank hint ref = Return (-3) s
    /\ s_v s = s_v blank /\ s_n s = s_n blank.
Proof.
  intros blank hint ref.
  apply (makesample_rejects_reversed blank hint ref).
  - reflexivity.
  - reflexivity.
  - left. reflexivity.
Defined.

(** A hint with [0 < final < initial] and no spacing of its own, on a
    reference that steps downward (spacing -1): the run succeeds, and
    allocates the grid 2, 1. *)
Lemma reversed_hint_counterexample :
  let blank : prop_samp Q := mk_samp 0 0%Q 0%Q 0%Q 0 NULL 0%Q in
  let hint : prop_samp Q := mk_samp 0 0%Q 2%Q 1%Q 1 NULL 1%Q in
  let ref : prop_samp Q := mk_samp 0 (-1)%Q 0%Q 0%Q 1 NULL 1%Q in
  (0 < s_f hint)%Q /\ (s_f hint < s_i hint)%Q
  /\ exists s a,
       makesample blank hint ref = Return 0 s
       /\ s_v blank = NULL /\ s_v s = Block a /\ s_n s = 2
       /\ (a 0%Z == 2)%Q /\ (a 1%Z == 1)%Q.
Proof.
  intros blank hint ref.
  split; [reflexivity|]. split; [reflexivity|].
  eexists. eexists.
  split; [vm_compute; reflexivity|].
  repeat split; vm_compute; reflexivity.
Qed.

(** ** The spline engine *)

(** A scan that keeps the last index passing a test. *)
Lemma locate_last (P : Z -> bool) (m : nat) (j0 : option Z) (p : Z) :
  0 <= p < Z.of_nat m -> P p = true ->
  (forall q, p < q < Z.of_nat m -> P q = false) ->
  for_up (fun i j => if P i then Some i else j) 0 m j0 = Some p.
Proof.
  induction m as [|m IH]; intros Hp Hpp Hafter; [lia|].
  rewrite for_up_end. cbn [Z.add].
  destruct (Z.eq_dec p (Z.of_nat m)) as [->|Hne].
  - now rewrite Hpp.
  - rewrite (Hafter (Z.of_nat m)) by lia.
    apply IH; [lia | exact Hpp | intros q Hq; apply Hafter; lia].
Qed.

(** Among the indices [0..m-1] of a test that holds at 0, there is a last
    one at which it holds. *)
Lemma last_passing (P : Z -> bool) (m : nat) :
  P 0 = true ->
  exists t, 0 <= t <= Z.of_nat m /\ P t = true
            /\ forall q, t < q <= Z.of_nat m -> P q = false.
Proof.
  intros H0. induction m as [|m (t & Ht & Hpt & Hafter)].
  - exists 0. repeat split; [lia | lia | exact H0 | intros q Hq; lia].
  - destruct (P (Z.of_nat (Datatypes.S m))) eqn:Pm.
    + exists (Z.of_nat (Datatypes.S m)). repeat split; [lia | lia | exact Pm | intros q Hq; lia].
    + exists t. repeat split; [lia | lia | exact Hpt |].
      intros q Hq. destruct (Z.eq_dec q (Z.of_nat (Datatypes.S m))) as [->|Hne];
        [exact Pm | apply Hafter; lia].
Qed.

Section SplineLoops.
Context {F : Type} `{Scalar F}.
Local Open Scope scalar_scope.

(** The bulk evaluation, when the scan of every point finds an interval
    whatever the previous point left in [j]. *)
Lemma spline3_run (xi yi x z h y : arr F) (nx N : Z) (loc : Z -> Z) :
  (forall n j, (0 <= n <= nx)%Z -> spline3_locate xi (x n) N j = Some (loc n)) ->
  exists y',
    spline3 xi yi x z h y nx N = Some y'
    /\ forall n, (0 <= n <= nx)%Z -> y' n = spline3_eval xi yi z h (x n) (loc n).
Proof.
  intros Hloc. unfold spline3.
  assert (Hloop : forall m : nat, (Z.of_nat m <= Z.max 0 (nx + 1))%Z ->
            exists jm ym,
              for_up (spline3_step xi yi x z h N) 0 m (Some (None, upd y 0 (yi 0%Z)))
              = Some (jm, ym)
              /\ forall n, (0 <= n < Z.of_nat m)%Z ->
                   ym n = spline3_eval xi yi z h (x n) (loc n)).
  { induction m as [|m IH]; intros Hm.
    - eexists. eexists. split; [reflexivity | intros n Hn; lia].
    - destruct IH as (jm & ym & Erun & Hvals); [lia|].
      rewrite for_up_end, Erun. cbn [Z.add]. unfold spline3_step.
      rewrite (Hloc (Z.of_nat m) jm) by lia.
      eexists. eexists. split; [reflexivity|].
      intros n Hn. destruct (Z.eq_dec n (Z.of_nat m)) as [->|Hne].
      + now rewrite upd_same.
      + rewrite upd_other by assumption. apply Hvals. lia. }
  destruct (Hloop (Z.to_nat (nx + 1))) as (jm & ym & Erun & Hvals); [lia|].
  rewrite Erun. exists ym. split; [reflexivity|].
  intros n Hn. apply Hvals. lia.
Qed.

(** The search of the point mode never runs out of iterations. *)
Lemma pt_search_enough (x : arr F) (xout : F) (fuel : nat) :
  forall first last,
    (0 <= first)%Z -> (Z.max 0 (last - first + 1) < Z.of_nat fuel)%Z ->
    pt_search fuel x xout first last ((first + last) ÷ 2) <> Spent.
Proof.
  induction fuel as [|fuel IH]; intros first last Hfirst Hfuel; [lia|].
  cbn [pt_search].
  destruct (Z.leb_spec first last) as [Hle|Hgt]; [|discriminate].
  assert (Hmid : (first <= (first + last) ÷ 2 <= last)%Z).
  { rewrite quot2_nonneg by lia. Z.div_mod_to_equations. lia. }
  destruct (_ && _); [discriminate|].
  destruct (x _ <? xout); [apply IH; lia|].
  destruct (xout <? x _); [apply IH; lia | discriminate].
Qed.

Lemma pt_search_total (x : arr F) (xout : F) (N : Z) :
  pt_search (Datatypes.S (Z.to_nat (N - 0 + 1))) x xout 0 N ((0 + N) ÷ 2) <> Spent.
Proof. apply pt_search_enough; lia. Qed.

(** The search of the point mode, asked for a knot, finds its index. *)
Lemma pt_search_knot (x : arr F) (N i : Z) :
  knots_ordered x N -> (0 <= i <= N - 1)%Z ->
  forall (fuel : nat) (first last : Z),
    (0 <= first <= i)%Z -> (i <= last <= N)%Z -> (last - first < Z.of_nat fuel)%Z ->
    pt_search fuel x (x i) first last ((first + last) ÷ 2) = Found i.
Proof.
  intros Hord Hi.
  induction fuel as [|fuel IH]; intros first last Hfirst Hlast Hfuel; [lia|].
  cbn [pt_search].
  destruct (Z.leb_spec first last) as [_|Hgt]; [|lia].
  assert (Hmid : (first <= (first + last) ÷ 2 <= last /\ (first + last) ÷ 2 <= N - 1)%Z).
  { rewrite quot2_nonneg by lia. Z.div_mod_to_equations. lia. }
  set (mid := ((first + last) ÷ 2)%Z) in *.
  destruct (Z.lt_trichotomy mid i) as [Hlt | [Heq | Hgt]].
  - destruct (Hord mid i) as (E1 & _ & _); [lia | lia | lia |].
    destruct (Hord (mid + 1)%Z i) as (_ & E2 & _); [lia | lia | lia |].
    rewrite E1, E2. destruct (Z.ltb_spec mid i); [|lia]. cbn [andb].
    apply IH; lia.
  - rewrite Heq. destruct (Hord i i) as (_ & E1 & _); [lia | lia | lia |].
    rewrite E1. cbn [andb]. reflexivity.
  - destruct (Hord i mid) as (E1 & E2 & _); [lia | lia | lia |].
    rewrite E1, E2. destruct (Z.ltb_spec i mid); [|lia]. cbn [andb].
    apply IH; lia.
Qed.

Lemma splinterp_pt_knot (z x y : arr F) (N i : Z) :
  knots_ordered x N -> (0 <= i < N)%Z ->
  splinterp_pt z N x y (x i) = Some (y i).
Proof.
  intros Hord Hi. unfold splinterp_pt. cbv zeta.
  rewrite (pt_search_knot x N i Hord) by lia.
  destruct (Hord i i) as (_ & _ & E); [lia | lia | lia |].
  now rewrite E.
Qed.

End SplineLoops.

(** *** Exact arithmetic *)

Lemma Qltb_true (a b : Q) : (a < b)%Q -> (a <? b)%S = true.
Proof. intros Hab. to_Q. now rewrite Qle_bool_false. Qed.

Lemma Qltb_false (a b : Q) : (b <= a)%Q -> (a <? b)%S = false.
Proof. intros Hab. to_Q. now rewrite Qle_bool_true. Qed.

Lemma increasing_lt (xi : arr Q) (N : Z) :
  increasing xi N -> forall i j, 0 <= i -> i < j -> j <= N - 1 -> (xi i < xi j)%Q.
Proof.
  intros Hinc i j Hi Hij Hj.
  replace j with (i + 1 + Z.of_nat (Z.to_nat (j - i - 1))) in * by lia.
  induction (Z.to_nat (j - i - 1)) as [|k IH].
  - rewrite Z.add_0_r. apply Hinc. lia.
  - apply Qlt_trans with (xi (i + 1 + Z.of_nat k)); [apply IH; lia|].
    replace (i + 1 + Z.of_nat (Datatypes.S k)) with (i + 1 + Z.of_nat k + 1) by lia.
    apply Hinc. lia.
Qed.

Lemma increasing_le (xi : arr Q) (N : Z) :
  increasing xi N -> forall i j, 0 <= i -> i <= j -> j <= N - 1 -> (xi i <= xi j)%Q.
Proof.
  intros Hinc i j Hi Hij Hj. destruct (Z.eq_dec i j) as [->|Hne].
  - apply Qle_refl.
  - apply Qlt_le_weak. apply (increasing_lt xi N Hinc); lia.
Qed.

Lemma increasing_ordered (xi : arr Q) (N : Z) : increasing xi N -> knots_ordered xi N.
Proof.
  intros Hinc p q Hp Hpq Hq.
  destruct (Z.ltb_spec p q) as [Hlt|Hge].
  - pose proof (increasing_lt xi N Hinc p q Hp Hlt Hq) as Hx.
    split; [apply Qltb_true; exact Hx|].
    split; [apply Qltb_false; lra | intros E; lia].
  - assert (E : p = q) by lia. subst q.
    split; [apply Qltb_false; lra|].
    split; [apply Qltb_false; lra | intros _; apply Qeq_bool_refl].
Qed.

Lemma interval_exists (xi : arr Q) (N : Z) (x : Q) :
  1 <= N -> (xi 0%Z <= x)%Q -> exists t, interval_of xi N x t.
Proof.
  intros HN H0.
  destruct (last_passing (fun q => Qle_bool (xi q) x) (Z.to_nat (N - 1)))
    as (t & Ht & Hpt & Hafter); [now apply Qle_bool_true|].
  exists t. split; [lia|]. split; [now apply Qle_bool_iff|].
  intros q Hq. specialize (Hafter q ltac:(lia)).
  destruct (Qlt_le_dec x (xi q)) as [Hlt|Hge]; [exact Hlt|].
  apply Qle_bool_true in Hge. congruence.
Qed.

(** The scan of the bulk mode stops at the interval of the point, or at
    the last interval for a point on the last knot. *)
Lemma spline3_locate_interval (xi : arr Q) (N : Z) (x : Q) (t : Z) (j : option Z) :
  2 <= N -> increasing xi N -> interval_of xi N x t ->
  spline3_locate xi x N j = Some (Z.min t (N - 2)).
Proof.
  intros HN Hinc (Ht & Hlo & Hhi). unfold spline3_locate. to_Q.
  apply (locate_last (fun i => Qle_bool (xi i) x)).
  - lia.
  - apply Qle_bool_true. apply Qle_trans with (xi t); [|exact Hlo].
    apply (increasing_le xi N Hinc); lia.
  - intros q Hq. apply Qle_bool_false. apply Hhi. lia.
Qed.

(** The search of the point mode finds the interval of the point. *)
Lemma pt_search_finds (xi : arr Q) (N : Z) (x : Q) (t : Z) :
  increasing xi N -> interval_of xi N x t -> (x <= xi (N - 1)%Z)%Q ->
  forall (fuel : nat) (first last : Z),
    0 <= first <= t -> t <= last <= N -> last - first < Z.of_nat fuel ->
    pt_search fuel xi x first last ((first + last) ÷ 2) = Found t.
Proof.
  intros Hinc (Ht & Hlo & Hhi) Hmax.
  induction fuel as [|fuel IH]; intros first last Hfirst Hlast Hfuel; [lia|].
  cbn [pt_search].
  destruct (Z.leb_spec first last) as [_|Hgt]; [|lia].
  assert (Hmid : first <= (first + last) ÷ 2 <= last /\ (first + last) ÷ 2 <= N - 1).
  { rewrite quot2_nonneg by lia. Z.div_mod_to_equations. lia. }
  set (mid := (first + last) ÷ 2) in *.
  destruct (Z.lt_trichotomy mid t) as [Hlt | [Heq | Hgt]].
  - assert (H1 : (xi mid < x)%Q).
    { apply Qlt_le_trans with (xi t); [|exact Hlo]. apply (increasing_lt xi N Hinc); lia. }
    assert (H2 : (xi (mid + 1)%Z <= x)%Q).
    { apply Qle_trans with (xi t); [|exact Hlo]. apply (increasing_le xi N Hinc); lia. }
    rewrite (Qltb_true _ _ H1), (Qltb_false _ _ H2). cbn [andb].
    apply IH; lia.
  - subst mid. rewrite Heq.
    destruct (Qlt_le_dec (xi t) x) as [Hstrict|Hge].
    + assert (t < N - 1).
      { destruct (Z.eq_dec t (N - 1)) as [E|E]; [|lia]. rewrite E in Hstrict. lra. }
      rewrite (Qltb_true _ _ Hstrict), (Qltb_true x (xi (t + 1)%Z)) by (apply Hhi; lia).
      reflexivity.
    + rewrite (Qltb_false (xi t) x Hge), (Qltb_false x (xi t) Hlo). cbn [andb].
      reflexivity.
  - assert (H1 : (x < xi mid)%Q) by (apply Hhi; lia).
    rewrite (Qltb_false (xi mid) x) by lra. cbn [andb].
    rewrite (Qltb_true _ _ H1).
    apply IH; lia.
Qed.

(** The cubic of interval [j]: its value at the left knot, at the right
    knot, and in nested form. *)
Lemma spline3_eval_left (xi yi z h : arr Q) (x : Q) (j : Z) :
  (x == xi j)%Q -> (spline3_eval xi yi z h x j == yi j)%Q.
Proof. intros Hx. unfold spline3_eval. to_Q. rewrite Hx. ring. Qed.

Lemma spline3_eval_right (xi yi z h : arr Q) (x : Q) (j : Z) :
  (x == xi (j + 1)%Z)%Q -> (h j == xi (j + 1)%Z - xi j)%Q -> (xi j < xi (j + 1)%Z)%Q ->
  (spline3_eval xi yi z h x j == yi (j + 1)%Z)%Q.
Proof.
  intros Hx Hh Hlt. unfold spline3_eval. to_Q. rewrite Hx, Hh. field. lra.
Qed.

Lemma spline3_eval_nested (xi yi z h : arr Q) (x : Q) (j : Z) :
  (h j == xi (j + 1)%Z - xi j)%Q -> (xi j < xi (j + 1)%Z)%Q ->
  let hh := (xi (j + 1)%Z - xi j)%Q in
  let dx := (x - xi j)%Q in
  let a := ((z (j + 1)%Z - z j) / (6 * hh))%Q in
  let b := (z j / 2)%Q in
  let c := ((yi (j + 1)%Z - yi j) / hh - hh / 6 * (z (j + 1)%Z + 2 * z j))%Q in
  (spline3_eval xi yi z h x j == yi j + dx * (c + dx * (b + dx * a)))%Q.
Proof.
  intros Hh Hlt hh dx a b c. subst hh dx a b c. unfold spline3_eval. to_Q.
  rewrite Hh. field. lra.
Qed.

Lemma interval_of_knot (xi : arr Q) (N : Z) (x : Q) (i : Z) :
  increasing xi N -> 0 <= i < N -> (x == xi i)%Q -> interval_of xi N x i.
Proof.
  intros Hinc Hi Hx. split; [lia|]. split; [rewrite Hx; apply Qle_refl|].
  intros q Hq. rewrite Hx. apply (increasing_lt xi N Hinc); lia.
Qed.

Lemma scan_of_interval (xi : arr Q) (N : Z) (x : Q) (t : Z) :
  2 <= N -> increasing xi N -> interval_of xi N x t ->
  scan_of xi N x = Z.min t (N - 2)
  /\ forall j, spline3_locate xi x N j = Some (scan_of xi N x).
Proof.
  intros HN Hinc Ht. unfold scan_of.
  rewrite (spline3_locate_interval xi N x t None HN Hinc Ht).
  split; [reflexivity|].
  intros j. apply (spline3_locate_interval xi N x t j HN Hinc Ht).
Qed.

(** The point mode on a point of the table: the branch it takes. *)
Lemma splinterp_pt_interval (z xi yi : arr Q) (N : Z) (x : Q) (t : Z) :
  increasing xi N -> interval_of xi N x t -> (x <= xi (N - 1)%Z)%Q ->
  splinterp_pt z N xi yi x
  = Some (if Qeq_bool (xi t) x then yi t
          else
            let hh := (xi (t + 1)%Z - xi t)%Q in
            if negb (Qle_bool hh 0) then
              let dx := (x - xi t)%Q in
              let a := ((z (t + 1)%Z - z t) / (6 * hh))%Q in
              let b := (z t / 2)%Q in
              let c := ((yi (t + 1)%Z - yi t) / hh - hh / 6 * (z (t + 1)%Z + 2 * z t))%Q in
              (yi t + dx * (c + dx * (b + dx * a)))%Q
            else 0%Q).
Proof.
  intros Hinc Ht Hmax. unfold splinterp_pt. cbv zeta.
  rewrite (pt_search_finds xi N x t Hinc Ht Hmax) by (destruct Ht; lia).
  to_Q. reflexivity.
Qed.

(** The interpolant at its knots.  In exact arithmetic, on strictly
    increasing knots (N >= 2) with any tabulated values, the bulk mode
    ([splinterp], which derives the second derivatives itself) returns
    [yi[i]] for every query that equals a knot [xi[i]].  In any arithmetic
    that sees the knots in increasing order, binary64 included, the point
    mode ([splinterp_pt]) on the query [xi[i]] returns the stored [yi[i]]
    itself, whatever the second derivatives [z]. *)
Theorem spline_exact_at_knots :
  (forall (N : Z) (xi yi : arr Q) (nx : Z) (xout : arr Q),
     2 <= N -> increasing xi N ->
     (forall n, 0 <= n < nx -> (xi 0%Z <= xout n)%Q) ->
     exists y,
       splinterp N xi yi nx xout = Some y
       /\ forall n i, 0 <= n < nx -> 0 <= i < N ->
            (xout n == xi i)%Q -> (y n == yi i)%Q)
  /\ (forall (F : Type) (arith : Scalar F) (N : Z) (xi yi z : arr F) (i : Z),
        knots_ordered xi N -> 0 <= i < N ->
        splinterp_pt z N xi yi (xi i) = Some (yi i)).
Proof.
  split.
  - intros N xi yi nx xout HN Hinc Hdom. unfold splinterp.
    match goal with |- context [spline3 xi yi xout _ ?hh zeros _ _] => set (h := hh) end.
    match goal with |- context [spline3 xi yi xout ?zz h zeros _ _] => set (z := zz) end.
    replace (N - 1 + 1) with N by lia.
    destruct (spline3_run xi yi xout z h zeros (nx - 1) N (fun n => scan_of xi N (xout n)))
      as (y & Erun & Hvals).
    { intros n j Hn.
      destruct (interval_exists xi N (xout n)) as (t & Ht); [lia | apply Hdom; lia |].
      apply (scan_of_interval xi N (xout n) t HN Hinc Ht). }
    exists y. split; [exact Erun|].
    intros n i Hn Hi Hx. rewrite Hvals by lia.
    pose proof (interval_of_knot xi N (xout n) i Hinc Hi Hx) as Ht.
    destruct (scan_of_interval xi N (xout n) i HN Hinc Ht) as [-> _].
    destruct (Z.eq_dec i (N - 1)) as [->|Hne].
    + replace (Z.min (N - 1) (N - 2)) with (N - 2) by lia.
      replace (yi (N - 1)) with (yi (N - 2 + 1)) by (f_equal; lia).
      apply spline3_eval_right.
      * rewrite Hx. replace (N - 2 + 1) with (N - 1) by lia. reflexivity.
      * unfold h. rewrite for_up_fill. to_Q.
        destruct (Z.leb_spec 0 (N - 2)); [|lia].
        destruct (Z.ltb_spec (N - 2) (Z.of_nat (Z.to_nat (N - 1 - 1 + 1)))); [|lia].
        reflexivity.
      * apply Hinc. lia.
    + replace (Z.min i (N - 2)) with i by lia.
      apply spline3_eval_left. exact Hx.
  - intros F arith N xi yi z i Hord Hi. now apply splinterp_pt_knot.
Qed.

Lemma spline_exact_at_knots_witness :
  let xi : arr Q := of_list [0; 1 # 10; 3 # 10; 1]%Q in
  let yi : arr Q := of_list [1; 2; 4; 3]%Q in
  let xf : arr float := of_list [0; 0.1; 0.3; 1]%float in
  let yf : arr float := of_list [1; 2; 4; 3]%float in
  (exists y, splinterp 4 xi yi 4 xi = Some y /\ (y 3%Z == 3)%Q)
  /\ splinterp_pt zeros 4 xf yf (xf 3) = Some (yf 3).
Proof.
  intros xi yi xf yf.
  assert (Hinc : increasing xi 4).
  { intros i Hi. assert (Ei : i = 0 \/ i = 1 \/ i = 2) by lia.
    destruct Ei as [->|[->| ->]]; reflexivity. }
  assert (Hord : knots_ordered xf 4).
  { intros p q Hp Hpq Hq.
    assert (Ep : p = 0 \/ p = 1 \/ p = 2 \/ p = 3) by lia.
    assert (Eq : q = 0 \/ q = 1 \/ q = 2 \/ q = 3) by lia.
    destruct Ep as [->|[->|[->| ->]]]; destruct Eq as [->|[->|[->| ->]]];
      try lia; (split; [vm_compute; reflexivity|]);
      (split; [vm_compute; reflexivity|]); intros E; try discriminate E;
      vm_compute; reflexivity. }
  destruct spline_exact_at_knots as [Hbulk Hpt].
  split.
  - destruct (Hbulk 4 xi yi 4 xi) as (y & Erun & Hy).
    + lia.
    + exact Hinc.
    + intros n Hn. apply (increasing_le xi 4 Hinc); lia.
    + exists y. split; [exact Erun|]. apply (Hy 3 3); [lia | lia | reflexivity].
  - apply (Hpt float binary64 4 xf yf zeros 3 Hord). lia.
Defined.

(** C3: the bulk mode misses the last knot.  In binary64, on the knots 0,
    0.1, 0.3, 1 with values 1, 2, 4, 3, queried at its own knots:
    [splinterp] returns the first three values as tabulated and
    2.9999999999999987 at the last knot, not 3.  The scan of [spline3]
    stops at [i < N-1], so the last knot is never an interval of its own
    and goes through the cubic of the last interval at [dx = h]; the
    point mode, given the same table and the second derivatives of
    [spline_init], tests [x[index] == xout] and returns the tabulated 3. *)
Lemma bulk_last_knot_residual :
  let xi : arr float := of_list [0; 0.1; 0.3; 1]%float in
  let yi : arr float := of_list [1; 2; 4; 3]%float in
  (exists y,
     splinterp 4 xi yi 4 xi = Some y
     /\ to_list y 3 = [1; 2; 4]%float
     /\ y 3 = 2.9999999999999987%float
     /\ (y 3 =? yi 3)%S = false)
  /\ splinterp_pt (spline_init zeros xi yi 4) 4 xi yi (xi 3) = Some (yi 3)
  /\ yi 3 = 3%float.
Proof.
  intros xi yi. split.
  - eexists.
    split; [vm_compute; reflexivity|].
    repeat split; vm_compute; reflexivity.
  - split; vm_compute; reflexivity.
Qed.

(** C6, in exact arithmetic: on shared knots, values, second derivatives
    and widths ([h[i] = xi[i+1] - xi[i]]), for query points of the table,
    the value of the bulk evaluation of [spline3] and the value of the
    point evaluation of [splinterp_pt] are equal as numbers: the two
    ways of writing the cubic (expanded in [spline3], nested in
    [splinterp_pt]) denote the same polynomial. *)
Theorem bulk_and_point_agree (N : Z) (xi yi z h : arr Q) (nx : Z) (x y0 : arr Q) :
  2 <= N -> increasing xi N ->
  (forall i, 0 <= i <= N - 2 -> (h i == xi (i + 1)%Z - xi i)%Q) ->
  (forall n, 0 <= n <= nx -> (xi 0%Z <= x n)%Q /\ (x n <= xi (N - 1)%Z)%Q) ->
  exists yb,
    spline3 xi yi x z h y0 nx N = Some yb
    /\ forall n, 0 <= n <= nx ->
         exists yp, splinterp_pt z N xi yi (x n) = Some yp /\ (yb n == yp)%Q.
Proof.
  intros HN Hinc Hh Hdom.
  destruct (spline3_run xi yi x z h y0 nx N (fun n => scan_of xi N (x n)))
    as (yb & Erun & Hvals).
  { intros n j Hn.
    destruct (interval_exists xi N (x n)) as (t & Ht); [lia | apply Hdom; lia |].
    apply (scan_of_interval xi N (x n) t HN Hinc Ht). }
  exists yb. split; [exact Erun|].
  intros n Hn. destruct (Hdom n Hn) as [Hlo Hhi].
  destruct (interval_exists xi N (x n)) as (t & Ht); [lia | exact Hlo |].
  rewrite (splinterp_pt_interval z xi yi N (x n) t Hinc Ht Hhi).
  eexists. split; [reflexivity|].
  rewrite Hvals by exact Hn.
  destruct (scan_of_interval xi N (x n) t HN Hinc Ht) as [-> _].
  destruct Ht as (Ht & Hxt & Hafter).
  destruct (Qeq_bool (xi t) (x n)) eqn:Eknot.
  - apply Qeq_bool_iff in Eknot.
    destruct (Z.eq_dec t (N - 1)) as [->|Hne].
    + replace (Z.min (N - 1) (N - 2)) with (N - 2) by lia.
      replace (yi (N - 1)) with (yi (N - 2 + 1)) by (f_equal; lia).
      apply spline3_eval_right.
      * rewrite <- Eknot. replace (N - 2 + 1) with (N - 1) by lia. reflexivity.
      * apply Hh. lia.
      * apply Hinc. lia.
    + replace (Z.min t (N - 2)) with t by lia.
      apply spline3_eval_left. now rewrite Eknot.
  - assert (Hstrict : (xi t < x n)%Q).
    { destruct (Qlt_le_dec (xi t) (x n)) as [Hlt|Hge]; [exact Hlt|].
      assert (E : (xi t == x n)%Q) by (apply Qle_antisym; assumption).
      apply Qeq_bool_iff in E. congruence. }
    assert (Hin : t < N - 1).
    { destruct (Z.eq_dec t (N - 1)) as [E|E]; [|lia]. rewrite E in Hstrict. lra. }
    replace (Z.min t (N - 2)) with t by lia.
    cbv zeta. rewrite (Qle_bool_false (xi (t + 1)%Z - xi t)%Q 0).
    + cbn [negb]. apply spline3_eval_nested; [apply Hh; lia | apply Hinc; lia].
    + pose proof (Hinc t ltac:(lia)). lra.
Qed.

Lemma bulk_and_point_agree_witness :
  let xi : arr Q := of_list [0; 1 # 10; 3 # 10; 1]%Q in
  let yi : arr Q := of_list [1; 2; 4; 3]%Q in
  let z : arr Q := spline_init zeros xi yi 4 in
  let h : arr Q := makeh xi zeros 4 in
  let x : arr Q := fun _ => (1 # 5)%Q in
  exists yb,
    spline3 xi yi x z h zeros 0 4 = Some yb
    /\ forall n, 0 <= n <= 0 ->
         exists yp, splinterp_pt z 4 xi yi (x n) = Some yp /\ (yb n == yp)%Q.
Proof.
  intros xi yi z h x.
  apply (bulk_and_point_agree 4 xi yi z h 0 x zeros).
  - lia.
  - intros i Hi. assert (Ei : i = 0 \/ i = 1 \/ i = 2) by lia.
    destruct Ei as [->|[->| ->]]; reflexivity.
  - intros i Hi. assert (Ei : i = 0 \/ i = 1 \/ i = 2) by lia.
    destruct Ei as [->|[->| ->]]; reflexivity.
  - intros n Hn. split; vm_compute; discriminate.
Defined.

(** The same knots and values in binary64, with the second derivatives of
    [spline_init] and the widths of [makeh] shared by both modes, at the
    point 0.2 inside the interval 1: the bulk formula returns
    3.0659340659340661 and the point formula 3.0659340659340657. *)
Lemma bulk_and_point_differ :
  let xi : arr float := of_list [0; 0.1; 0.3; 1]%float in
  let yi : arr float := of_list [1; 2; 4; 3]%float in
  let z : arr float := spline_init zeros xi yi 4 in
  let h : arr float := makeh xi zeros 4 in
  let x : arr float := of_list [0.2]%float in
  (xi 1 <? x 0)%S = true /\ (x 0 <? xi 2)%S = true
  /\ exists yb yp,
       spline3 xi yi x z h zeros 0 4 = Some yb
       /\ splinterp_pt z 4 xi yi (x 0) = Some yp
       /\ yb 0 = 3.0659340659340661%float
       /\ yp = 3.0659340659340657%float
       /\ (yb 0 =? yp)%S = false.
Proof.
  intros xi yi z h x.
  split; [vm_compute; reflexivity|]. split; [vm_compute; reflexivity|].
  eexists. eexists.
  split; [vm_compute; reflexivity|].
  split; [vm_compute; reflexivity|].
  repeat split; vm_compute; reflexivity.
Qed.

(** * More of the grid generator *)

(** The codes [makesample] returns: -3, -5, -6 or the two flag bits; the
    codes -1, -2 and -4 of its header comment are never returned. *)
Theorem makesample_return_codes (F : Type) `{Scalar F}
    (samp hint ref : prop_samp F) (res : Z) (s : prop_samp F) :
  makesample samp hint ref = Return res s ->
  res = -6 \/ res = -5 \/ res = -3 \/ res = 0 \/ res = 1 \/ res = 2 \/ res = 3.
Proof.
  unfold makesample. intros Hrun.
  repeat match type of Hrun with
         | context [if ?c then _ else _] => destruct c eqn:?
         | context [match ?c with _ => _ end] => destruct c eqn:?
         end;
    try discriminate;
    try (injection Hrun as <- <-; cbn; tauto);
    apply oversample_and_fill_inv in Hrun; destruct Hrun as (-> & _); cbn; tauto.
Qed.

Lemma makesample_return_codes_witness :
  let blank : prop_samp Q := mk_samp 0 0%Q 0%Q 0%Q 0 NULL 0%Q in
  let hint : prop_samp Q := mk_samp 0 (1 # 2)%Q 0%Q 2%Q 2 NULL 1%Q in
  let ref : prop_samp Q := mk_samp 0 0%Q 1%Q 0%Q 0 NULL 1%Q in
  exists res s,
    makesample blank hint ref = Return res s
    /\ (res = -6 \/ res = -5 \/ res = -3 \/ res = 0 \/ res = 1 \/ res = 2 \/ res = 3).
Proof.
  intros blank hint ref.
  destruct (makesample blank hint ref) as [res s| |] eqn:Erun;
    try (vm_compute in Erun; discriminate Erun).
  exists res, s. split; [reflexivity|].
  exact (makesample_return_codes Q blank hint ref res s Erun).
Defined.

(** The codes [makesample1] returns: -3, -5, -6 or 0; and its last branch,
    the report of an invalid spacing that stops the program, is never
    taken: it tests again what the branch before it has just tested. *)
Theorem makesample1_return_codes (F : Type) `{Scalar F} (samp ref : prop_samp F) :
  makesample1 samp ref <> Fatal
  /\ forall res s, makesample1 samp ref = Return res s ->
       res = -6 \/ res = -5 \/ res = -3 \/ res = 0.
Proof.
  unfold makesample1. split.
  - destruct (_ <? _)%S; [discriminate|].
    destruct (eqb (s_d ref) (of_long 0)); cbn [negb]; [discriminate|].
    destruct (_ <=? _)%Z; [discriminate|].
    unfold oversample_and_fill. destruct (calloc _); try discriminate.
    destruct (_ =? _)%Z; discriminate.
  - intros res s Hrun.
    repeat match type of Hrun with
           | context [if ?c then _ else _] => destruct c eqn:?
           end;
      try discriminate;
      try (injection Hrun as <- <-; tauto);
      apply oversample_and_fill_inv in Hrun; destruct Hrun as (-> & _); tauto.
Qed.

(** What the flag bits of [makesample] say: bit 1 is set exactly when the
    hinted initial value is not positive, and the initial value is then the
    reference's, else the hint's; bit 2 says the same of the final value;
    the units factor is the hint's when positive, else the reference's.
    The bounds and the factor are in the structure on every return, the
    error returns included. *)
Theorem makesample_flags (F : Type) `{Scalar F}
    (samp hint ref : prop_samp F) (res : Z) (s : prop_samp F) :
  makesample samp hint ref = Return res s ->
  s_i s = (if (s_i hint <=? of_long 0)%S then s_i ref else s_i hint)
  /\ s_f s = (if (s_f hint <=? of_long 0)%S then s_f ref else s_f hint)
  /\ s_fct s = (if (s_fct hint <=? of_long 0)%S then s_fct ref else s_fct hint)
  /\ (0 <= res ->
      res = (if (s_i hint <=? of_long 0)%S then 1 else 0)
            + (if (s_f hint <=? of_long 0)%S then 2 else 0)).
Proof.
  unfold makesample. intros Hrun.
  repeat match type of Hrun with
         | context [if ?c then _ else _] => destruct c eqn:?
         | context [match ?c with _ => _ end] => destruct c eqn:?
         end;
    try discriminate;
    try (injection Hrun as <- <-; cbn; repeat split; intros; lia);
    apply oversample_and_fill_inv in Hrun;
    destruct Hrun as (-> & -> & -> & _ & -> & _); cbn; repeat split; intros; lia.
Qed.

Lemma makesample_flags_witness :
  let blank : prop_samp Q := mk_samp 0 0%Q 0%Q 0%Q 0 NULL 0%Q in
  let hint : prop_samp Q := mk_samp 0 (1 # 2)%Q 0%Q 2%Q 2 NULL 1%Q in
  let ref : prop_samp Q := mk_samp 0 0%Q 1%Q 0%Q 0 NULL 1%Q in
  exists s, makesample blank hint ref = Return 1 s /\ s_i s = 1%Q /\ s_f s = 2%Q.
Proof.
  intros blank hint ref.
  destruct (makesample blank hint ref) as [res s| |] eqn:Erun; try (vm_compute in Erun; discriminate Erun).
  destruct (makesample_flags Q blank hint ref res s Erun) as (Ei & Ef & _ & Hres).
  assert (Eres : res = 1) by (vm_compute in Erun; congruence).
  exists s. split; [now rewrite Eres|]. split; [exact Ei | exact Ef].
Defined.

(** A hint that gives a positive factor, positive bounds, a spacing and a
    positive oversampling decides the run alone: [makesample] does not
    look at the reference. *)
Theorem makesample_complete_hint (F : Type) `{Scalar F}
    (samp hint ref ref' : prop_samp F) :
  (s_fct hint <=? of_long 0)%S = false ->
  (s_i hint <=? of_long 0)%S = false ->
  (s_f hint <=? of_long 0)%S = false ->
  (s_d hint =? of_long 0)%S = false ->
  0 < s_o hint ->
  makesample samp hint ref = makesample samp hint ref'.
Proof.
  intros Hfct Hi Hf Hd Ho. unfold makesample.
  rewrite Hfct, Hi, Hf, Hd. cbn [negb].
  destruct (Z.leb_spec (s_o hint) 0) as [Hle|_]; [lia|].
  reflexivity.
Qed.

Lemma makesample_complete_hint_witness :
  let blank : prop_samp float := mk_samp 0 0%float 0%float 0%float 0 NULL 0%float in
  let hint : prop_samp float := mk_samp 0 0.5%float 1%float 2%float 2 NULL 1%float in
  let ref : prop_samp float := mk_samp 0 0%float 0%float 0%float 0 NULL 1%float in
  let ref' : prop_samp float := mk_samp 7 3%float 5%float 9%float 4 NULL 2%float in
  makesample blank hint ref = makesample blank hint ref'.
Proof.
  intros blank hint ref ref'.
  apply (makesample_complete_hint float blank hint ref ref'); try reflexivity.
Defined.

Lemma makesample1_return_codes_witness :
  let blank : prop_samp Q := mk_samp 0 0%Q 0%Q 0%Q 0 NULL 0%Q in
  let ref : prop_samp Q := mk_samp 0 (1 # 2)%Q 1%Q 2%Q 0 NULL 1%Q in
  exists res s,
    makesample1 blank ref = Return res s
    /\ (res = -6 \/ res = -5 \/ res = -3 \/ res = 0).
Proof.
  intros blank ref.
  destruct (makesample1 blank ref) as [res s| |] eqn:Erun;
    try (vm_compute in Erun; discriminate Erun).
  exists res, s. split; [reflexivity|].
  exact (proj2 (makesample1_return_codes Q blank ref) res s Erun).
Defined.

(** No spacing anywhere: with no hinted spacing, no spacing in the
    reference and no array in the reference, [makesample] returns -5
    whatever the bounds are, and touches neither the count, the spacing,
    the oversampling nor the values of the output. *)
Theorem makesample_missing_spacing (samp hint ref : prop_samp Q) :
  (s_d hint == 0)%Q -> (s_d ref == 0)%Q -> s_n ref <= 0 ->
  exists s,
    makesample samp hint ref = Return (-5) s
    /\ s_v s = s_v samp /\ s_n s = s_n samp /\ s_d s = s_d samp /\ s_o s = s_o samp.
Proof.
  intros Hd Hr Hn. unfold makesample. to_Q.
  rewrite (proj2 (Qeq_bool_iff (s_d hint) 0) Hd), (proj2 (Qeq_bool_iff (s_d ref) 0) Hr).
  cbn [negb andb]. destruct (Z.leb_spec (s_n ref) 0) as [_|Hgt]; [|lia].
  destruct (Qle_bool (s_fct hint) 0), (Qle_bool (s_i hint) 0), (Qle_bool (s_f hint) 0);
    eexists; (split; [reflexivity|]); repeat split.
Qed.

Lemma makesample_missing_spacing_witness :
  let blank : prop_samp Q := mk_samp 4 3%Q 0%Q 0%Q 5 Stale 0%Q in
  let hint : prop_samp Q := mk_samp 0 0%Q 2%Q 1%Q 1 NULL 1%Q in
  let ref : prop_samp Q := mk_samp 0 0%Q 0%Q 0%Q 1 NULL 1%Q in
  exists s,
    makesample blank hint ref = Return (-5) s
    /\ s_v s = s_v blank /\ s_n s = s_n blank /\ s_d s = s_d blank /\ s_o s = s_o blank.
Proof.
  intros blank hint ref.
  apply (makesample_missing_spacing blank hint ref); [reflexivity | reflexivity | cbn; lia].
Defined.

(** No oversampling anywhere: on a complete hint with increasing positive
    bounds and a positive spacing, but no positive oversampling in the hint
    nor in the reference, [makesample] returns -6.  Nothing is allocated,
    but the count of the output has already been overwritten with the
    number of points before oversampling. *)
Theorem makesample_missing_oversample (samp hint ref : prop_samp Q) :
  (0 < s_i hint)%Q -> (s_i hint < s_f hint)%Q -> (0 < s_d hint)%Q ->
  s_o hint <= 0 -> s_o ref <= 0 ->
  exists s,
    makesample samp hint ref = Return (-6) s
    /\ s_v s = s_v samp /\ s_o s = s_o samp
    /\ s_n s = npoints (s_i hint) (s_f hint) (s_d hint).
Proof.
  intros Hi Hif Hd Ho Hor. unfold makesample. to_Q.
  rewrite (Qle_bool_false (s_i hint) 0) by lra.
  rewrite (Qle_bool_false (s_f hint) 0) by lra.
  rewrite (Qeq_bool_false (s_d hint) 0) by (intros E; lra). cbn [negb].
  rewrite (Qle_bool_false (s_d hint) 0) by lra.
  cbn [s_f s_i s_d set_d set_f set_i set_fct].
  rewrite (Qle_bool_false (s_f hint) (s_i hint)) by lra.
  rewrite (Qle_bool_true 0 (s_d hint)) by lra. cbn [negb andb orb].
  rewrite andb_false_r.
  destruct (Z.leb_spec (s_o hint) 0) as [_|Hgt]; [|lia].
  destruct (Z.leb_spec (s_o ref) 0) as [_|Hgt]; [|lia].
  eexists. split; [reflexivity|].
  repeat split; now destruct (Qle_bool (s_fct hint) 0).
Qed.

Lemma makesample_missing_oversample_witness :
  let blank : prop_samp Q := mk_samp 0 0%Q 0%Q 0%Q 7 NULL 0%Q in
  let hint : prop_samp Q := mk_samp 0 (1 # 2)%Q 1%Q 2%Q 0 NULL 1%Q in
  let ref : prop_samp Q := mk_samp 0 0%Q 0%Q 0%Q 0 NULL 1%Q in
  exists s,
    makesample blank hint ref = Return (-6) s
    /\ s_v s = s_v blank /\ s_o s = s_o blank
    /\ s_n s = npoints (s_i hint) (s_f hint) (s_d hint).
Proof.
  intros blank hint ref.
  apply (makesample_missing_oversample blank hint ref);
    [reflexivity | reflexivity | reflexivity | cbn; lia | cbn; lia].
Defined.

(** The fixed array of the reference: with no spacing hinted and none in
    the reference, but an array of [n > 0] values there, [makesample]
    succeeds whatever the bounds are; the output holds a copy of these [n]
    values, a spacing of 0 and an oversampling of 0 (the oversampling of
    the hint and of the reference are dropped). *)
Theorem makesample_fixed_array (samp hint ref : prop_samp Q) (src : arr Q) :
  (s_d hint == 0)%Q -> (s_d ref == 0)%Q -> 0 < s_n ref -> s_v ref = Block src ->
  exists res s,
    makesample samp hint ref = Return res s
    /\ 0 <= res <= 3
    /\ s_n s = s_n ref /\ s_d s = 0%Q /\ s_o s = 0
    /\ values_of s = to_list src (Z.to_nat (s_n ref)).
Proof.
  intros Hd Hr Hn Hv. unfold makesample. to_Q.
  rewrite (proj2 (Qeq_bool_iff (s_d hint) 0) Hd), (proj2 (Qeq_bool_iff (s_d ref) 0) Hr).
  cbn [negb andb]. destruct (Z.leb_spec (s_n ref) 0) as [Hle|_]; [lia|].
  assert (Hcopy : forall dst, to_list (memcpy dst src (s_n ref)) (Z.to_nat (s_n ref))
                              = to_list src (Z.to_nat (s_n ref))).
  { intros dst. unfold to_list. apply map_ext_in. intros k Hk. apply in_seq in Hk.
    unfold memcpy. destruct (Z.leb_spec 0 (Z.of_nat k)); [|lia].
    destruct (Z.ltb_spec (Z.of_nat k) (s_n ref)); [reflexivity | lia]. }
  destruct (Qle_bool (s_fct hint) 0), (Qle_bool (s_i hint) 0), (Qle_bool (s_f hint) 0);
    cbn [s_n s_v set_n set_d set_i set_f set_fct]; unfold calloc;
    (destruct (Z.ltb_spec (s_n ref) 0) as [Hneg|_]; [lia|]);
    rewrite Hv; eexists; eexists; (split; [reflexivity|]);
    (split; [cbn; lia|]); (split; [reflexivity|]); (split; [reflexivity|]);
    (split; [reflexivity|]); unfold values_of; cbn [s_v s_n set_o set_v]; apply Hcopy.
Qed.

Lemma makesample_fixed_array_witness :
  let blank : prop_samp Q := mk_samp 0 0%Q 0%Q 0%Q 0 NULL 0%Q in
  let hint : prop_samp Q := mk_samp 0 0%Q 9%Q 1%Q 4 NULL 1%Q in
  let src : arr Q := of_list [3; 5; 8]%Q in
  let ref : prop_samp Q := mk_samp 3 0%Q 3%Q 8%Q 2 (Block src) 1%Q in
  exists res s,
    makesample blank hint ref = Return res s
    /\ 0 <= res <= 3
    /\ s_n s = s_n ref /\ s_d s = 0%Q /\ s_o s = 0
    /\ values_of s = to_list src (Z.to_nat (s_n ref)).
Proof.
  intros blank hint src ref.
  apply (makesample_fixed_array blank hint ref src);
    [reflexivity | reflexivity | cbn; lia | reflexivity].
Defined.

(** A successful run of [makesample] that leaves a non-zero spacing went
    through the count, the oversampling and the fill, whatever the sign of
    the spacing. *)
Lemma makesample_grid_inv (samp hint ref : prop_samp Q) (res : Z) (s : prop_samp Q) :
  makesample samp hint ref = Return res s -> 0 <= res -> ~ (s_d s == 0)%Q ->
  1 <= s_o s /\ 0 < s_n s
  /\ s_v s = Block (fill_values (s_i s) (s_d s / inject_Z (s_o s))%Q (s_n s) zeros).
Proof.
  unfold makesample. intros Hrun Hres Hd.
  repeat match type of Hrun with
         | context [if ?c then _ else _] => destruct c eqn:?
         | context [match ?c with _ => _ end] => destruct c eqn:?
         end;
    try discriminate;
    try (injection Hrun as <- <-;
         first [lia | exfalso; apply Hd; reflexivity]);
    apply oversample_and_fill_inv in Hrun;
    destruct Hrun as (_ & Ei & Ef & Ed & _ & Eo & En & Hpos & Ev);
    cbn [s_n s_d s_i s_f s_o set_n set_d set_i set_f set_fct] in *;
    rewrite Ei, Ed, Eo; (split; [lia|]); (split; [exact Hpos | exact Ev]).
Qed.

(** The grid is equispaced.  After a successful run of either generator
    that leaves a non-zero spacing, in exact arithmetic: the oversampling is
    at least 1, there is at least one value, [values[0]] is the initial
    value, and each value exceeds the one before it by exactly
    [spacing/oversample]; so the values go strictly up on a positive
    spacing and strictly down on a negative one. *)
Theorem grid_equispaced (s : prop_samp Q) :
  (exists samp hint ref res, makesample samp hint ref = Return res s /\ 0 <= res)
  \/ (exists samp ref res, makesample1 samp ref = Return res s /\ 0 <= res) ->
  ~ (s_d s == 0)%Q ->
  1 <= s_o s /\ 1 <= s_n s
  /\ exists a,
       s_v s = Block a /\ a 0 = s_i s
       /\ forall k, 0 <= k < s_n s - 1 ->
            (a (k + 1)%Z - a k == s_d s / inject_Z (s_o s))%Q
            /\ ((0 < s_d s)%Q -> (a k < a (k + 1)%Z)%Q)
            /\ ((s_d s < 0)%Q -> (a (k + 1)%Z < a k)%Q).
Proof.
  intros Hrun Hd.
  assert (Hinv : 1 <= s_o s /\ 0 < s_n s
                 /\ s_v s = Block (fill_values (s_i s) (s_d s / inject_Z (s_o s))%Q (s_n s) zeros)).
  { destruct Hrun as [(samp & hint & ref & res & Hrun & Hres) | (samp & ref & res & Hrun & Hres)].
    - exact (makesample_grid_inv samp hint ref res s Hrun Hres Hd).
    - destruct (makesample1_inv samp ref res s Hrun Hres) as (Ho & _ & Hn & Hv).
      split; [exact Ho|]. split; [exact Hn | exact Hv]. }
  destruct Hinv as (Ho & Hpos & Ev).
  split; [exact Ho|]. split; [lia|].
  destruct (fill_values_cells (s_i s) (s_d s / inject_Z (s_o s))%Q (s_n s) zeros)
    as (H0 & Hk & _); [lia|].
  eexists. split; [exact Ev|]. split; [exact H0|].
  intros k Hkr.
  assert (Ho' : (0 < inject_Z (s_o s))%Q).
  { change 0%Q with (inject_Z 0). rewrite <- Zlt_Qlt. lia. }
  assert (Estep : (fill_values (s_i s) (s_d s / inject_Z (s_o s)) (s_n s) zeros (k + 1)%Z
                   - fill_values (s_i s) (s_d s / inject_Z (s_o s)) (s_n s) zeros k
                   == s_d s / inject_Z (s_o s))%Q).
  { rewrite (Hk (k + 1)) by lia. to_Q.
    destruct (Z.eq_dec k 0) as [->|Hne].
    - rewrite H0. change (inject_Z (0 + 1)) with 1%Q. field. lra.
    - rewrite (Hk k) by lia. to_Q. rewrite inject_Z_plus.
      change (inject_Z 1) with 1%Q. field. lra. }
  split; [exact Estep|].
  split; intros Hsign.
  - assert (0 < s_d s / inject_Z (s_o s))%Q by (apply Qlt_shift_div_l; lra). lra.
  - assert (s_d s / inject_Z (s_o s) < 0)%Q by (apply Qlt_shift_div_r; lra). lra.
Qed.

Lemma grid_equispaced_witness :
  let blank : prop_samp Q := mk_samp 0 0%Q 0%Q 0%Q 0 NULL 0%Q in
  let hint : prop_samp Q := mk_samp 0 0%Q 2%Q 1%Q 2 NULL 1%Q in
  let ref : prop_samp Q := mk_samp 0 (-1)%Q 0%Q 0%Q 1 NULL 1%Q in
  exists s a,
    makesample blank hint ref = Return 0 s /\ s_v s = Block a
    /\ (a (0 + 1)%Z - a 0%Z == s_d s / inject_Z (s_o s))%Q.
Proof.
  intros blank hint ref.
  destruct (makesample blank hint ref) as [res s| |] eqn:Erun;
    try (vm_compute in Erun; discriminate Erun).
  assert (Eres : res = 0) by (vm_compute in Erun; congruence).
  assert (Ed : s_d s = (-1)%Q) by (vm_compute in Erun; injection Erun as _ <-; reflexivity).
  assert (En : s_n s = 3) by (vm_compute in Erun; injection Erun as _ <-; reflexivity).
  destruct (grid_equispaced s) as (_ & _ & a & Ev & _ & Hstep).
  - left. exists blank, hint, ref, res. split; [exact Erun | lia].
  - rewrite Ed. intros E. discriminate E.
  - exists s, a. split; [now rewrite Eres|]. split; [exact Ev|].
    apply (Hstep 0). rewrite En. lia.
Defined.

(** * More of the spline engine *)

(** What [tri] leaves in its three blocks, for any arithmetic. *)
Lemma tri_recurrences (F : Type) `{Scalar F} (a d c b e : arr F) (n : Z) :
  1 <= n ->
  let r := tri a d c b e n in
  (forall i, 1 <= i <= n ->
     tri_d r i = (d i - a (i - 1)%Z / tri_d r (i - 1)%Z * c (i - 1)%Z)%S
     /\ tri_b r i = (b i - a (i - 1)%Z / tri_d r (i - 1)%Z * tri_b r (i - 1)%Z)%S)
  /\ (forall i, i < 1 \/ n < i -> tri_d r i = d i /\ tri_b r i = b i)
  /\ (forall j, 1 <= j <= n ->
        tri_e r j = ((tri_b r (j - 1)%Z
                      - c (j - 1)%Z
                        * (if (j =? n)%Z then e (n + 1)%Z else tri_e r (j + 1)%Z))
                     / tri_d r (j - 1)%Z)%S)
  /\ tri_e r 0 = of_long 0
  /\ tri_e r (n + 1) = of_long 0.
Proof.
  intros Hn r. subst r. unfold tri.
  pose proof (tri_forward_spec a c d b (Z.to_nat n)) as Hf. cbv zeta in Hf.
  destruct (for_up (tri_forward a c) 1 (Z.to_nat n) (d, b)) as [d' b'].
  cbn [fst snd] in Hf. destruct Hf as [Hin Hout]. cbn [tri_d tri_b tri_e].
  set (e1 := upd e (n - 1) (b' (n - 1)%Z / d' (n - 1)%Z)%S).
  pose proof (tri_backward_spec d' c b' e1 n (Z.to_nat n)) as Hb. cbv zeta in Hb.
  set (e2 := for_down (tri_backward d' c b') n (Z.to_nat n) e1) in *.
  destruct Hb as [Hbin Hbout].
  split; [|split; [|split; [|split]]].
  - intros i Hi. apply Hin. lia.
  - intros i Hi. apply Hout. lia.
  - intros j Hj. rewrite !upd_other by lia. rewrite Hbin by lia.
    destruct (Z.eqb_spec j n) as [->|Hne].
    + rewrite Hbout by lia. unfold e1. rewrite upd_other by lia. reflexivity.
    + rewrite (upd_other _ (n + 1)) by lia. rewrite (upd_other _ 0) by lia.
      reflexivity.
  - rewrite upd_other by lia. apply upd_same.
  - apply upd_same.
Qed.

(** Elimination and back substitution undo each other: the rows of the
    system on entry hold of what [tri] leaves in [e]. *)
Lemma tri_rows (a d c b e : arr Q) (n : Z) :
  1 <= n -> (e (n + 1)%Z == 0)%Q ->
  let r := tri a d c b e n in
  (forall i, 0 <= i <= n - 1 -> ~ (tri_d r i == 0)%Q) ->
  forall i, 0 <= i <= n - 1 ->
    (a (i - 1)%Z * tri_e r i + d i * tri_e r (i + 1)%Z + c i * tri_e r (i + 2)%Z == b i)%Q.
Proof.
  intros Hn He r Hpiv.
  destruct (tri_recurrences Q a d c b e n Hn) as (Hfw & Hframe & Hbw & E0 & En).
  fold r in Hfw, Hframe, Hbw, E0, En. to_Q.
  assert (Hrow : forall i, 0 <= i <= n - 1 ->
            (tri_d r i * tri_e r (i + 1)%Z + c i * tri_e r (i + 2)%Z == tri_b r i)%Q).
  { intros i Hi. rewrite (Hbw (i + 1)) by lia.
    replace (i + 1 - 1) with i by lia. replace (i + 1 + 1) with (i + 2) by lia.
    assert (Enext : ((if i + 1 =? n then e (n + 1)%Z else tri_e r (i + 2)%Z)
                     == tri_e r (i + 2)%Z)%Q).
    { destruct (Z.eqb_spec (i + 1) n) as [E|E]; [|reflexivity].
      replace (i + 2) with (n + 1) by lia. rewrite En, He. reflexivity. }
    rewrite Enext. field. apply Hpiv. lia. }
  intros i Hi. destruct (Z.eq_dec i 0) as [->|Hne].
  - destruct (Hframe 0) as [Ed Eb]; [lia|].
    pose proof (Hrow 0 ltac:(lia)) as H0. rewrite Ed, Eb in H0.
    change (0 + 1) with 1 in *. change (0 + 2) with 2 in *.
    rewrite E0. rewrite <- H0. ring.
  - destruct (Hfw i) as [Ed Eb]; [lia|].
    pose proof (Hrow i ltac:(lia)) as Hi'. rewrite Ed, Eb in Hi'.
    pose proof (Hrow (i - 1) ltac:(lia)) as Hprev.
    replace (i - 1 + 1) with i in Hprev by lia.
    replace (i - 1 + 2) with (i + 1) in Hprev by lia.
    set (m := (a (i - 1)%Z / tri_d r (i - 1)%Z)%Q) in *.
    assert (Ha : (a (i - 1)%Z * tri_e r i
                  == m * (tri_b r (i - 1)%Z - c (i - 1)%Z * tri_e r (i + 1)%Z))%Q).
    { rewrite <- Hprev. unfold m. field. apply Hpiv. lia. }
    rewrite Ha.
    transitivity ((d i - m * c (i - 1)%Z) * tri_e r (i + 1)%Z + c i * tri_e r (i + 2)%Z
                  + m * tri_b r (i - 1)%Z)%Q; [ring|].
    rewrite Hi'. ring.
Qed.

(** [tri] solves the system.  In exact arithmetic, for a system of size
    [n >= 1] whose eliminated diagonal has no zero, and an output buffer
    that holds 0 in the cell [n+1] on entry: the unknowns [x[i] = e[i+1]]
    satisfy every row [a[i-1]*x[i-1] + d[i]*x[i] + c[i]*x[i+1] = b[i]] of
    the system the caller passed, with [x[-1] = x[n] = 0] (the rows are
    those of the arrays on entry, not of what elimination leaves in
    them). *)
Theorem tri_solves (a d c b e : arr Q) (n : Z) :
  1 <= n -> (e (n + 1)%Z == 0)%Q ->
  let r := tri a d c b e n in
  (forall i, 0 <= i <= n - 1 -> ~ (tri_d r i == 0)%Q) ->
  forall i, 0 <= i <= n - 1 ->
    (a (i - 1)%Z * tri_e r i + d i * tri_e r (i + 1)%Z + c i * tri_e r (i + 2)%Z == b i)%Q.
Proof. exact (tri_rows a d c b e n). Qed.

Lemma tri_solves_witness :
  let a : arr Q := of_list [1; 1]%Q in
  let d : arr Q := of_list [4; 4]%Q in
  let b : arr Q := of_list [6; 9]%Q in
  let r := tri a d a b zeros 2 in
  (a (0 - 1)%Z * tri_e r 0%Z + d 0%Z * tri_e r (0 + 1)%Z + a 0%Z * tri_e r (0 + 2)%Z == b 0%Z)%Q
  /\ (a (1 - 1)%Z * tri_e r 1%Z + d 1%Z * tri_e r (1 + 1)%Z + a 1%Z * tri_e r (1 + 2)%Z == b 1%Z)%Q.
Proof.
  intros a d b r.
  assert (Hpiv : forall i, 0 <= i <= 2 - 1 -> ~ (tri_d (tri a d a b zeros 2) i == 0)%Q).
  { intros i Hi. assert (Ei : i = 0 \/ i = 1) by lia.
    destruct Ei as [->| ->]; vm_compute; discriminate. }
  assert (Hz : (zeros (F := Q) (2 + 1)%Z == 0)%Q) by (vm_compute; reflexivity).
  split.
  - apply (tri_solves a d a b zeros 2 ltac:(lia) Hz Hpiv 0). lia.
  - apply (tri_solves a d a b zeros 2 ltac:(lia) Hz Hpiv 1). lia.
Defined.

(** In exact arithmetic, each cubic piece passes through its two knots,
    whatever the second derivatives are: the piece of interval [j] takes
    the value [yi[j]] at [xi[j]] and [yi[j+1]] at [xi[j+1]], so two
    neighbouring pieces denote functions that meet at their common knot.
    (In binary64 the value at the right knot is rounded:
    [bulk_last_knot_residual].) *)
Theorem spline3_piece_ends (xi yi z h : arr Q) (j : Z) :
  (h j == xi (j + 1)%Z - xi j)%Q -> (xi j < xi (j + 1)%Z)%Q ->
  (spline3_eval xi yi z h (xi j) j == yi j)%Q
  /\ (spline3_eval xi yi z h (xi (j + 1)%Z) j == yi (j + 1)%Z)%Q.
Proof.
  intros Hh Hlt. split.
  - apply spline3_eval_left. reflexivity.
  - apply spline3_eval_right; [reflexivity | exact Hh | exact Hlt].
Qed.

Lemma spline3_piece_ends_witness :
  let xi : arr Q := of_list [0; 1 # 10; 3 # 10; 1]%Q in
  let yi : arr Q := of_list [1; 2; 4; 3]%Q in
  let z : arr Q := of_list [0; 7; -5; 0]%Q in
  let h : arr Q := makeh xi zeros 4 in
  (spline3_eval xi yi z h (xi 1%Z) 1 == yi 1%Z)%Q
  /\ (spline3_eval xi yi z h (xi (1 + 1)%Z) 1 == yi (1 + 1)%Z)%Q.
Proof.
  intros xi yi z h.
  apply (spline3_piece_ends xi yi z h 1); reflexivity.
Defined.

(** The widths between increasing knots are positive. *)
Lemma width_pos (xi : arr Q) (N : Z) (i : Z) :
  increasing xi N -> 0 <= i < N - 1 -> (0 < xi (i + 1)%Z - xi i)%Q.
Proof. intros Hinc Hi. pose proof (Hinc i Hi). lra. Qed.

(** The eliminated diagonal of a spline system stays above the width next
    to it, hence above zero: the system [tri] is given needs no pivoting. *)
Lemma spline_pivots (h a d c b e : arr Q) (n : Z) :
  1 <= n ->
  (forall i, 0 <= i <= n -> (0 < h i)%Q) ->
  (forall i, 0 <= i <= n - 1 -> a i = h (i + 1)%Z /\ c i = h (i + 1)%Z
                                /\ d i = (2 * (h i + h (i + 1)%Z))%Q) ->
  forall i, 0 <= i <= n - 1 -> (h (i + 1)%Z < tri_d (tri a d c b e n) i)%Q.
Proof.
  intros Hn Hh Hsys.
  destruct (tri_recurrences Q a d c b e n Hn) as (Hfw & Hframe & _).
  to_Q. set (r := tri a d c b e n) in *.
  intros i Hi. replace i with (Z.of_nat (Z.to_nat i)) by lia.
  assert (Hi' : Z.of_nat (Z.to_nat i) <= n - 1) by lia. clear Hi.
  induction (Z.to_nat i) as [|k IH].
  - destruct (Hframe 0) as [Ed _]; [lia|]. cbn [Z.of_nat]. rewrite Ed.
    destruct (Hsys 0) as (_ & _ & ->); [lia|].
    pose proof (Hh 0 ltac:(lia)). pose proof (Hh (0 + 1) ltac:(lia)). lra.
  - specialize (IH ltac:(lia)).
    destruct (Hfw (Z.of_nat (Datatypes.S k))) as [Ed _]; [lia|].
    rewrite Ed.
    replace (Z.of_nat (Datatypes.S k) - 1) with (Z.of_nat k) by lia.
    destruct (Hsys (Z.of_nat k)) as (-> & -> & _); [lia|].
    destruct (Hsys (Z.of_nat (Datatypes.S k))) as (_ & _ & ->); [lia|].
    replace (Z.of_nat k + 1) with (Z.of_nat (Datatypes.S k)) in * by lia.
    set (w := h (Z.of_nat (Datatypes.S k))) in *.
    set (w' := h (Z.of_nat (Datatypes.S k) + 1)%Z).
    set (p := tri_d r (Z.of_nat k)) in *.
    assert (Hw : (0 < w)%Q) by (apply Hh; lia).
    assert (Hw' : (0 < w')%Q) by (apply Hh; lia).
    assert (Hq1 : (w / p < 1)%Q) by (apply Qlt_shift_div_r; lra).
    assert (Hq0 : (0 < w / p)%Q) by (apply Qlt_shift_div_l; lra).
    assert (Hqw : (w / p * w < w)%Q) by nra.
    lra.
Qed.

(** [spline_init] yields the second derivatives of the natural cubic
    spline.  In exact arithmetic, for at least three strictly increasing
    knots and a buffer [z] that holds 0 in its last cell [z[N-1]] on entry:
    the result is 0 at both end knots and satisfies, at every inner knot
    [i], the equation
    [h[i-1]*z[i-1] + 2*(h[i-1]+h[i])*z[i] + h[i]*z[i+1]
       = 6*((y[i+1]-y[i])/h[i] - (y[i]-y[i-1])/h[i-1])]
    with [h[i] = x[i+1] - x[i]]. *)
Theorem spline_init_natural (z x y : arr Q) (N : Z) :
  3 <= N -> increasing x N -> (z (N - 1)%Z == 0)%Q ->
  let zz := spline_init z x y N in
  (zz 0%Z == 0)%Q /\ (zz (N - 1)%Z == 0)%Q
  /\ forall i, 1 <= i <= N - 2 ->
       ((x i - x (i - 1)%Z) * zz (i - 1)%Z
        + 2 * ((x i - x (i - 1)%Z) + (x (i + 1)%Z - x i)) * zz i
        + (x (i + 1)%Z - x i) * zz (i + 1)%Z
        == 6 * ((y (i + 1)%Z - y i) / (x (i + 1)%Z - x i)
                - (y i - y (i - 1)%Z) / (x i - x (i - 1)%Z)))%Q.
Proof.
  intros HN Hinc Hz zz. subst zz. unfold spline_init.
  match goal with |- context [tri ?aa ?dd ?aa ?kk z _] =>
    set (a := aa); set (d := dd); set (k := kk) end.
  match goal with a := for_up _ _ _ _ |- _ => idtac end.
  set (h := for_up (fun i h => upd h i (sub (x (i + 1)%Z) (x i))) 0 (Z.to_nat (N - 1)) zeros) in *.
  assert (Hh : forall i, 0 <= i <= N - 2 -> h i = (x (i + 1)%Z - x i)%Q).
  { intros i Hi. unfold h. rewrite for_up_fill.
    destruct (Z.leb_spec 0 i); [|lia].
    destruct (Z.ltb_spec i (Z.of_nat (Z.to_nat (N - 1)))); [reflexivity | lia]. }
  assert (Ha : forall i, 0 <= i <= N - 3 -> a i = h (i + 1)%Z).
  { intros i Hi. unfold a. rewrite for_up_fill.
    destruct (Z.leb_spec 0 i); [|lia].
    destruct (Z.ltb_spec i (Z.of_nat (Z.to_nat (N - 2)))); [reflexivity | lia]. }
  assert (Hd : forall i, 0 <= i <= N - 3 -> d i = (2 * (h i + h (i + 1)%Z))%Q).
  { intros i Hi. unfold d. rewrite for_up_fill.
    destruct (Z.leb_spec 0 i); [|lia].
    destruct (Z.ltb_spec i (Z.of_nat (Z.to_nat (N - 2)))); [reflexivity | lia]. }
  assert (Hk : forall i, 0 <= i <= N - 2 ->
            k i = (6 * ((y (i + 2)%Z - y (i + 1)%Z) / h (i + 1)%Z - (y (i + 1)%Z - y i) / h i))%Q).
  { intros i Hi. unfold k. rewrite for_up_fill.
    destruct (Z.leb_spec 0 i); [|lia].
    destruct (Z.ltb_spec i (Z.of_nat (Z.to_nat (N - 1)))); [reflexivity | lia]. }
  assert (Hhpos : forall i, 0 <= i <= N - 2 -> (0 < h i)%Q).
  { intros i Hi. rewrite Hh by lia. apply (width_pos x N); [exact Hinc | lia]. }
  destruct (tri_recurrences Q a d a k z (N - 2) ltac:(lia)) as (_ & _ & _ & E0 & En).
  replace (N - 2 + 1) with (N - 1) in * by lia.
  assert (Hpiv : forall i, 0 <= i <= N - 2 - 1 ->
            ~ (tri_d (tri a d a k z (N - 2)) i == 0)%Q).
  { intros i Hi Hzero.
    pose proof (spline_pivots h a d a k z (N - 2) ltac:(lia) Hhpos
                  ltac:(intros j Hj; rewrite Ha, Hd by lia; repeat split) i Hi) as Hp.
    pose proof (Hhpos (i + 1) ltac:(lia)). lra. }
  pose proof (tri_rows a d a k z (N - 2) ltac:(lia)) as Hsolve.
  replace (N - 2 + 1) with (N - 1) in Hsolve by lia.
  specialize (Hsolve Hz). cbv zeta in Hsolve. specialize (Hsolve Hpiv).
  set (E := tri_e (tri a d a k z (N - 2))) in *.
  split; [rewrite E0; reflexivity|]. split; [rewrite En; reflexivity|].
  intros i Hi. specialize (Hsolve (i - 1) ltac:(lia)).
  replace (i - 1 + 1) with i in Hsolve by lia.
  replace (i - 1 + 2) with (i + 1) in Hsolve by lia.
  rewrite (Hd (i - 1)), (Ha (i - 1)), (Hk (i - 1)) in Hsolve by lia.
  replace (i - 1 + 1) with i in Hsolve by lia.
  replace (i - 1 + 2) with (i + 1) in Hsolve by lia.
  rewrite (Hh i), (Hh (i - 1)) in Hsolve by lia.
  replace (i - 1 + 1) with i in Hsolve by lia.
  rewrite <- Hsolve.
  destruct (Z.eq_dec i 1) as [->|Hne].
  - change (1 - 1) with 0. change (0 - 1) with (-1). rewrite E0. to_Q. ring.
  - rewrite (Ha (i - 1 - 1)) by lia. replace (i - 1 - 1 + 1) with (i - 1) by lia.
    rewrite (Hh (i - 1)) by lia. replace (i - 1 + 1) with i by lia. ring.
Qed.

Lemma spline_init_natural_witness :
  let x : arr Q := of_list [0; 1; 3; 4]%Q in
  let y : arr Q := of_list [1; 2; 0; 5]%Q in
  let zz := spline_init zeros x y 4 in
  (zz 0%Z == 0)%Q /\ (zz (4 - 1)%Z == 0)%Q
  /\ forall i, 1 <= i <= 4 - 2 ->
       ((x i - x (i - 1)%Z) * zz (i - 1)%Z
        + 2 * ((x i - x (i - 1)%Z) + (x (i + 1)%Z - x i)) * zz i
        + (x (i + 1)%Z - x i) * zz (i + 1)%Z
        == 6 * ((y (i + 1)%Z - y i) / (x (i + 1)%Z - x i)
                - (y i - y (i - 1)%Z) / (x i - x (i - 1)%Z)))%Q.
Proof.
  intros x y.
  apply (spline_init_natural zeros x y 4).
  - lia.
  - intros i Hi. assert (Ei : i = 0 \/ i = 1 \/ i = 2) by lia.
    destruct Ei as [->|[->| ->]]; reflexivity.
  - reflexivity.
Defined.

(** A system with a zero right-hand side has the zero solution: [tri]
    leaves 0 in [e[0..n+1]]. *)
Lemma tri_zero_rhs (a d c b e : arr Q) (n : Z) :
  0 <= n -> (e (n + 1)%Z == 0)%Q ->
  (forall i, 0 <= i <= n - 1 -> (b i == 0)%Q) ->
  forall j, 0 <= j <= n + 1 -> (tri_e (tri a d c b e n) j == 0)%Q.
Proof.
  intros Hn He Hb.
  destruct (Z.eq_dec n 0) as [->|Hn0].
  { intros j Hj. unfold tri. cbn [Z.to_nat for_up for_down tri_e].
    assert (Ej : j = 0 \/ j = 1) by lia. destruct Ej as [->| ->].
    - rewrite upd_other by lia. rewrite upd_same. reflexivity.
    - rewrite upd_same. reflexivity. }
  destruct (tri_recurrences Q a d c b e n ltac:(lia)) as (Hfw & Hframe & Hbw & E0 & En).
  to_Q. set (r := tri a d c b e n) in *.
  assert (HB : forall i, 0 <= i <= n - 1 -> (tri_b r i == 0)%Q).
  { intros i Hi. replace i with (Z.of_nat (Z.to_nat i)) by lia.
    assert (Hi' : Z.of_nat (Z.to_nat i) <= n - 1) by lia. clear Hi.
    induction (Z.to_nat i) as [|k IH].
    - destruct (Hframe 0) as [_ Eb]; [lia|]. cbn [Z.of_nat]. rewrite Eb. apply Hb. lia.
    - specialize (IH ltac:(lia)).
      destruct (Hfw (Z.of_nat (Datatypes.S k))) as [_ Eb]; [lia|]. rewrite Eb.
      replace (Z.of_nat (Datatypes.S k) - 1) with (Z.of_nat k) by lia.
      rewrite IH, (Hb (Z.of_nat (Datatypes.S k))) by lia. ring. }
  assert (HE : forall m : nat, Z.of_nat m <= n -> (tri_e r (n + 1 - Z.of_nat m)%Z == 0)%Q).
  { induction m as [|m IH]; intros Hm.
    - replace (n + 1 - Z.of_nat 0) with (n + 1) by lia. rewrite En. reflexivity.
    - specialize (IH ltac:(lia)).
      rewrite (Hbw (n + 1 - Z.of_nat (Datatypes.S m))) by lia.
      replace (n + 1 - Z.of_nat (Datatypes.S m) + 1) with (n + 1 - Z.of_nat m) by lia.
      rewrite HB by lia.
      destruct (Z.eqb_spec (n + 1 - Z.of_nat (Datatypes.S m)) n) as [E|E].
      + rewrite He. unfold Qdiv. ring.
      + rewrite IH. unfold Qdiv. ring. }
  intros j Hj. destruct (Z.eq_dec j 0) as [->|Hj0].
  - rewrite E0. reflexivity.
  - replace j with (n + 1 - Z.of_nat (Z.to_nat (n + 1 - j))) by lia. apply HE. lia.
Qed.

(** The bulk mode reproduces straight lines.  In exact arithmetic, for at
    least two strictly increasing knots whose ordinates lie on a line
    [m*x + q], [splinterp] returns the value of that line at every
    requested abscissa that is not below the first knot, also beyond the
    last knot. *)
Theorem splinterp_reproduces_lines (N : Z) (xi yi : arr Q) (nx : Z) (xout : arr Q) (m q : Q) :
  2 <= N -> increasing xi N ->
  (forall i, 0 <= i < N -> (yi i == m * xi i + q)%Q) ->
  (forall n, 0 <= n < nx -> (xi 0%Z <= xout n)%Q) ->
  exists y, splinterp N xi yi nx xout = Some y
            /\ forall n, 0 <= n < nx -> (y n == m * xout n + q)%Q.
Proof.
  intros HN Hinc Hy Hx. unfold splinterp. cbv zeta.
  replace (N - 1 + 1) with N by lia.
  replace (N - 1 - 1 + 1) with (N - 1) by lia.
  replace (N - 1 - 2 + 1) with (N - 2) by lia.
  set (h := for_up (fun i h => upd h i (sub (xi (i + 1)%Z) (xi i))) 0 (Z.to_nat (N - 1)) zeros).
  match goal with |- context [tri ?aa ?dd ?aa ?kk zeros _] =>
    set (a := aa); set (d := dd); set (k := kk) end.
  set (z := tri_e (tri a d a k zeros (N - 2))).
  assert (Hh : forall i, 0 <= i <= N - 2 -> h i = (xi (i + 1)%Z - xi i)%Q).
  { intros i Hi. unfold h. rewrite for_up_fill.
    destruct (Z.leb_spec 0 i); [|lia].
    destruct (Z.ltb_spec i (Z.of_nat (Z.to_nat (N - 1)))); [reflexivity | lia]. }
  assert (Hk : forall i, 0 <= i <= N - 2 - 1 -> (k i == 0)%Q).
  { intros i Hi. unfold k. rewrite for_up_fill.
    destruct (Z.leb_spec 0 i); [|lia].
    destruct (Z.ltb_spec i (Z.of_nat (Z.to_nat (N - 2)))); [|lia].
    cbn [andb]. rewrite (Hh i), (Hh (i + 1)) by lia. to_Q.
    rewrite (Hy i), (Hy (i + 1)), (Hy (i + 2)) by lia.
    replace (i + 1 + 1) with (i + 2) by lia.
    pose proof (Hinc i ltac:(lia)). pose proof (Hinc (i + 1) ltac:(lia)).
    replace (i + 1 + 1) with (i + 2) in * by lia.
    field. split; lra. }
  assert (Hz : forall j, 0 <= j <= N - 1 -> (z j == 0)%Q).
  { intros j Hj. unfold z. apply tri_zero_rhs; [lia | reflexivity | exact Hk | lia]. }
  destruct (spline3_run xi yi xout z h zeros (nx - 1) N (fun n => scan_of xi N (xout n)))
    as (y & Ey & Hvals).
  { intros n j Hn.
    destruct (interval_exists xi N (xout n)) as (t & Ht); [lia | apply Hx; lia|].
    apply (scan_of_interval xi N (xout n) t HN Hinc Ht). }
  exists y. split; [exact Ey|].
  intros n Hn. rewrite Hvals by lia.
  destruct (interval_exists xi N (xout n)) as (t & Ht); [lia | apply Hx; lia|].
  destruct (scan_of_interval xi N (xout n) t HN Hinc Ht) as [Escan _].
  rewrite Escan. set (j := Z.min t (N - 2)).
  assert (Hj : 0 <= j <= N - 2) by (destruct Ht; lia).
  unfold spline3_eval. to_Q.
  rewrite (Hz j), (Hz (j + 1)), (Hh j), (Hy j), (Hy (j + 1)) by lia.
  pose proof (Hinc j ltac:(lia)).
  field. lra.
Qed.

Lemma splinterp_reproduces_lines_witness :
  let xi : arr Q := of_list [0; 1; 3; 4]%Q in
  let yi : arr Q := of_list [1; 3; 7; 9]%Q in
  let xout : arr Q := of_list [1 # 2; 3; 5]%Q in
  exists y, splinterp 4 xi yi 3 xout = Some y
            /\ forall n, 0 <= n < 3 -> (y n == 2 * xout n + 1)%Q.
Proof.
  intros xi yi xout.
  apply (splinterp_reproduces_lines 4 xi yi 3 xout 2 1).
  - lia.
  - intros i Hi. assert (Ei : i = 0 \/ i = 1 \/ i = 2) by lia.
    destruct Ei as [->|[->| ->]]; reflexivity.
  - intros i Hi. assert (Ei : i = 0 \/ i = 1 \/ i = 2 \/ i = 3) by lia.
    destruct Ei as [->|[->|[->| ->]]]; reflexivity.
  - intros n Hn. assert (En : n = 0 \/ n = 1 \/ n = 2) by lia.
    destruct En as [->|[->| ->]]; vm_compute; discriminate.
Defined.

(** * More of the quadrature engine *)

(** One pair of intervals under a polynomial of degree at most two: the
    three weights integrate it exactly, whatever the two widths. *)
Lemma pair_quadratic (c0 c1 c2 x0 x1 x2 : Q) :
  (x0 < x1)%Q -> (x1 < x2)%Q ->
  let a := (x1 - x0)%Q in
  let b := (x2 - x1)%Q in
  ((quadratic c0 c1 c2 x0 * (2 - b / a)
    + quadratic c0 c1 c2 x1 * ((a + b) * (a + b) / (a * b))
    + quadratic c0 c1 c2 x2 * (2 - 1 / (b / a))) * (a + b)
   == 6 * quadratic_integral c0 c1 c2 x0 x2)%Q.
Proof.
  intros H01 H12 a b. subst a b. unfold quadratic, quadratic_integral.
  field. split; lra.
Qed.

Lemma simpson_quadratic (x y h hsum hratio hfactor : arr Q) (c0 c1 c2 : Q) (n : Z) (m : nat) :
  let off := if Z.rem n 2 =? 0 then 1 else 0 in
  (forall i, 0 <= i < Z.of_nat m ->
     let j := 2 * i + off in
     hsum i = (h j + h (j + 1)%Z)%Q
     /\ hratio i = (h (j + 1)%Z / h j)%Q
     /\ hfactor i = ((h j + h (j + 1)%Z) * (h j + h (j + 1)%Z) / (h j * h (j + 1)%Z))%Q) ->
  (forall i, 0 <= i < 2 * Z.of_nat m + off -> h i = (x (i + 1)%Z - x i)%Q /\ (x i < x (i + 1)%Z)%Q) ->
  (forall i, 0 <= i <= 2 * Z.of_nat m + off -> (y i == quadratic c0 c1 c2 (x i))%Q) ->
  (for_up (fun i res => (res + simpson_term y hsum hratio hfactor n i)%S) 0 m 0%Q
   == 6 * quadratic_integral c0 c1 c2 (x off) (x (2 * Z.of_nat m + off)%Z))%Q.
Proof.
  intros off. induction m as [|m IH]; intros Hg Hh Hy.
  - cbn [for_up Z.of_nat Z.mul Z.add]. unfold quadratic_integral. field.
  - rewrite for_up_end. cbn [Z.add]. to_Q.
    rewrite IH.
    + unfold simpson_term. fold off.
      destruct (Hg (Z.of_nat m)) as (-> & -> & ->); [lia|]. to_Q.
      assert (Hoff : 0 <= off <= 1) by (subst off; destruct (Z.rem n 2 =? 0); lia).
      rewrite (Hy (2 * Z.of_nat m + off)), (Hy (2 * Z.of_nat m + off + 1)),
        (Hy (2 * Z.of_nat m + off + 2)) by lia.
      destruct (Hh (2 * Z.of_nat m + off)) as [-> H01]; [lia|].
      destruct (Hh (2 * Z.of_nat m + off + 1)) as [-> H12]; [lia|].
      replace (2 * Z.of_nat m + off + 1 + 1) with (2 * Z.of_nat m + off + 2) in * by lia.
      rewrite (pair_quadratic c0 c1 c2 _ _ _ H01 H12).
      replace (2 * Z.of_nat (Datatypes.S m) + off) with (2 * Z.of_nat m + off + 2) by lia.
      unfold quadratic_integral. field.
    + intros i Hi. apply Hg. lia.
    + intros i Hi. apply Hh. lia.
    + intros i Hi. apply Hy. lia.
Qed.

(** [makeh], [geth] and [simps] in a row integrate polynomials of degree
    at most two.  In exact arithmetic, for [n >= 1] strictly increasing
    abscissas [x] and the ordinates [y[i] = c2*x[i]^2 + c1*x[i] + c0]:
    with an odd number of samples the result is the integral of the
    polynomial from [x[0]] to [x[n-1]]; with an even number the first
    interval is done by the trapezoid rule and the result exceeds the
    integral by [c2*(x[1]-x[0])^3/6], which is nothing for a straight
    line. *)
Theorem simps_quadratic (n : Z) (x y h0 hs0 hr0 hf0 : arr Q) (c0 c1 c2 : Q) :
  1 <= n -> increasing x n ->
  (forall i, 0 <= i < n -> (y i == quadratic c0 c1 c2 (x i))%Q) ->
  let h := makeh x h0 n in
  let '(hsum, hratio, hfactor) := geth h hs0 hr0 hf0 n in
  (simps y h hsum hratio hfactor n
   == quadratic_integral c0 c1 c2 (x 0%Z) (x (n - 1)%Z)
      + (if Z.even n
         then c2 * ((x 1%Z - x 0%Z) * (x 1%Z - x 0%Z) * (x 1%Z - x 0%Z)) / 6
         else 0))%Q.
Proof.
  intros Hn Hinc Hy h.
  assert (Hh : forall i, 0 <= i < n - 1 -> h i = (x (i + 1)%Z - x i)%Q /\ (x i < x (i + 1)%Z)%Q).
  { intros i Hi. split; [|apply Hinc; lia].
    unfold h, makeh. rewrite for_up_fill.
    destruct (Z.leb_spec 0 i); [|lia].
    destruct (Z.ltb_spec i (Z.of_nat (Z.to_nat (n - 1)))); [reflexivity | lia]. }
  destruct (geth h hs0 hr0 hf0 n) as [[hsum hratio] hfactor] eqn:Eg.
  unfold simps.
  destruct (Z.eqb_spec n 1) as [->|Hn1].
  { change (1 - 1) with 0. cbn [Z.even]. unfold quadratic_integral. to_Q. field. }
  destruct (Z.eqb_spec n 2) as [->|Hn2].
  { change (2 - 1) with 1. cbn [Z.even]. destruct (Hh 0) as [-> _]; [lia|]. to_Q.
    rewrite (Hy 0), (Hy 1) by lia. change (0 + 1) with 1.
    unfold quadratic, quadratic_integral. field. }
  pose proof (geth_loop_spec h (if Z.rem n 2 =? 0 then 1 else 0)
                (Z.to_nat (n ÷ 2)) hs0 hr0 hf0) as Hg.
  cbv zeta in Hg. unfold geth in Eg.
  destruct (Z.eqb_spec n 0); [lia|]. rewrite Eg in Hg. cbn [fst snd] in Hg.
  assert (Hq : n ÷ 2 = n / 2) by (apply quot2_nonneg; lia).
  assert (Hq1 : (n - 1) ÷ 2 = (n - 1) / 2) by (apply quot2_nonneg; lia).
  pose proof (simpson_quadratic x y h hsum hratio hfactor c0 c1 c2 n
                (Z.to_nat ((n - 1) ÷ 2))) as Hs.
  cbv zeta in Hs. unfold simpson.
  destruct (Z.even n) eqn:He.
  - pose proof (rem_even n He) as Hrem. rewrite Hrem in *. cbn [Z.eqb] in *.
    apply Z.even_spec in He. destruct He as [p Hp].
    assert (Hm : 2 * Z.of_nat (Z.to_nat ((n - 1) ÷ 2)) + 1 = n - 1)
      by (rewrite Hq1; subst n; Z.div_mod_to_equations; lia).
    to_Q. rewrite Hs.
    + rewrite Hm. destruct (Hh 0) as [-> _]; [lia|].
      rewrite (Hy 0), (Hy 1) by lia. change (0 + 1) with 1.
      unfold quadratic, quadratic_integral. field.
    + intros i Hi. apply Hg. rewrite Hq. subst n. Z.div_mod_to_equations. lia.
    + intros i Hi. apply Hh. lia.
    + intros i Hi. apply Hy. lia.
  - assert (Hrem : Z.rem n 2 = 1) by (apply rem_odd; [lia | exact He]).
    rewrite Hrem in *. cbn [Z.eqb] in *.
    assert (Ho : Z.odd n = true) by (rewrite <- Z.negb_even, He; reflexivity).
    apply Z.odd_spec in Ho. destruct Ho as [p Hp].
    assert (Hm : 2 * Z.of_nat (Z.to_nat ((n - 1) ÷ 2)) + 0 = n - 1)
      by (rewrite Hq1; subst n; Z.div_mod_to_equations; lia).
    to_Q. rewrite Hs.
    + rewrite Hm. unfold quadratic_integral. field.
    + intros i Hi. apply Hg. rewrite Hq. subst n. Z.div_mod_to_equations. lia.
    + intros i Hi. apply Hh. lia.
    + intros i Hi. apply Hy. lia.
Qed.

Lemma simps_quadratic_witness :
  let x : arr Q := of_list [0; 1; 3; 4; 6]%Q in
  let y : arr Q := of_list [1; 6; 34; 57; 121]%Q in
  let h := makeh x zeros 5 in
  let '(hsum, hratio, hfactor) := geth h zeros zeros zeros 5 in
  (simps y h hsum hratio hfactor 5
   == quadratic_integral 1 2 3 (x 0%Z) (x (5 - 1)%Z)
      + (if Z.even 5
         then 3 * ((x 1%Z - x 0%Z) * (x 1%Z - x 0%Z) * (x 1%Z - x 0%Z)) / 6
         else 0))%Q.
Proof.
  intros x y.
  apply (simps_quadratic 5 x y zeros zeros zeros zeros 1 2 3).
  - lia.
  - intros i Hi. assert (Ei : i = 0 \/ i = 1 \/ i = 2 \/ i = 3) by lia.
    destruct Ei as [->|[->|[->| ->]]]; reflexivity.
  - intros i Hi. assert (Ei : i = 0 \/ i = 1 \/ i = 2 \/ i = 3 \/ i = 4) by lia.
    destruct Ei as [->|[->|[->|[->| ->]]]]; reflexivity.
Defined.

(** * More of the persistence *)

Section PersistenceMore.
Context {F : Type} `{Scalar F}.

(** A read that meets the end of the file before its count is reached
    returns the doubles that were there. *)
Lemma fread_vals_short (xs : list F) :
  forall cnt : nat, (length xs <= cnt)%nat -> fread_vals cnt (map Val xs) = (xs, []).
Proof.
  induction xs as [|x xs IH]; intros cnt Hc.
  - now destruct cnt.
  - destruct cnt as [|cnt]; [cbn [length] in Hc; lia|].
    cbn [map fread_vals]. rewrite IH by (cbn [length] in Hc; lia). reflexivity.
Qed.

(** What [savesample] appends: the record, then the values. *)
Lemma savesample_writes (samp : prop_samp F) (out : list (item F)) :
  0 <= s_n samp ->
  (0 < s_n samp -> exists a, s_v samp = Block a) ->
  savesample out samp
  = Some (out ++ Rec (set_v samp (address_of (s_v samp))) :: map Val (values_of samp))
  /\ Z.of_nat (length (values_of samp)) = s_n samp.
Proof.
  intros Hn Hv. unfold savesample, savesample_arr, values_of.
  destruct (Z.gtb_spec (s_n samp) 0) as [Hpos|Hzero].
  - destruct Hv as [a Ha]; [lia|]. rewrite Ha, <- app_assoc, to_list_length.
    split; [reflexivity | lia].
  - assert (E : s_n samp = 0) by lia. rewrite E.
    split; [|now destruct (s_v samp)].
    now destruct (s_v samp).
Qed.

End PersistenceMore.

(** A saved structure cut short does not restore.  Of what [savesample]
    writes for a structure of 0 to 1,000,000 values, every proper prefix
    (cut between two objects) makes [restsample] return -1 at the end of
    the file: with nothing read the structure of the caller is left as it
    was; with the record and [k-1] of the values read, the structure has
    the stored count and a fresh block that holds these [k-1] values,
    followed by zeros. *)
Theorem restore_truncated (F : Type) `{Scalar F}
    (samp old : prop_samp F) (chunk : list (item F)) (k : nat) :
  0 <= s_n samp <= 1000000 ->
  (0 < s_n samp -> exists a, s_v samp = Block a) ->
  savesample [] samp = Some chunk ->
  (k < length chunk)%nat ->
  exists back,
    restsample (firstn k chunk) old = (-1, back, [])
    /\ (k = 0%nat -> back = old)
    /\ ((0 < k)%nat ->
        s_n back = s_n samp
        /\ exists a, s_v back = Block a
             /\ to_list a (k - 1) = firstn (k - 1) (values_of samp)
             /\ forall j, Z.of_nat (k - 1) <= j -> a j = of_long 0).
Proof.
  intros Hn Hv Hsave Hk.
  destruct (savesample_writes samp [] ltac:(lia) Hv) as [Ew Hlen].
  rewrite Ew in Hsave. injection Hsave as <-. cbn [app length] in *.
  destruct k as [|k].
  { exists old. cbn [firstn restsample]. split; [reflexivity|]. split; [reflexivity | lia]. }
  cbn [firstn restsample]. rewrite length_map in Hk. rewrite firstn_map.
  set (xs := firstn k (values_of samp)).
  assert (Hxs : length xs = k) by (unfold xs; rewrite length_firstn; lia).
  unfold restsample_arr, calloc. cbn [s_n s_v set_v].
  destruct (Z.ltb_spec (s_n samp) 0); [lia|].
  destruct (Z.gtb_spec (s_n samp) 1000000); [lia|].
  destruct (Z.eqb_spec (s_n samp) 0); [lia|].
  rewrite fread_vals_short by lia. cbn [s_n set_v].
  destruct (Z.eqb_spec (Z.of_nat (length xs)) (s_n samp)); [lia|]. cbn [negb].
  eexists. split; [reflexivity|]. split; [discriminate|].
  intros _. cbn [s_n s_v]. split; [reflexivity|].
  exists (store zeros xs). split; [reflexivity|].
  replace (Datatypes.S k - 1)%nat with k by lia. split.
  - rewrite <- Hxs at 1. apply to_list_store.
  - intros j Hj. unfold store. rewrite Hxs.
    destruct (Z.leb_spec 0 j); destruct (Z.ltb_spec j (Z.of_nat k)); try lia; reflexivity.
Qed.

Lemma restore_truncated_witness :
  let samp : prop_samp Q :=
    mk_samp 3 (1 # 2)%Q 1%Q 2%Q 1 (Block (of_list [1; 3 # 2; 2]%Q)) 1%Q in
  let old : prop_samp Q := mk_samp 0 0%Q 0%Q 0%Q 0 NULL 1%Q in
  let chunk := [Rec (set_v samp Stale); Val 1%Q; Val (3 # 2)%Q; Val 2%Q] in
  exists back,
    restsample (firstn 3 chunk) old = (-1, back, [])
    /\ (3%nat = 0%nat -> back = old)
    /\ ((0 < 3)%nat ->
        s_n back = s_n samp
        /\ exists a, s_v back = Block a
             /\ to_list a (3 - 1) = firstn (3 - 1) (values_of samp)
             /\ forall j, Z.of_nat (3 - 1) <= j -> a j = of_long 0).
Proof.
  intros samp old chunk.
  apply (restore_truncated Q samp old chunk 3).
  - cbn. lia.
  - intros _. eexists. reflexivity.
  - reflexivity.
  - cbn. lia.
Defined.

(** * The domain grid builders *)

Section BuilderFacts.
Context {F : Type} `{Scalar F}.

Lemma to_list_nth (a : arr F) (cnt k : nat) (d : F) :
  (k < cnt)%nat -> nth k (to_list a cnt) d = a (Z.of_nat k).
Proof.
  intros Hk. unfold to_list.
  rewrite (nth_indep _ _ (a (Z.of_nat 0))) by now rewrite length_map, length_seq.
  rewrite (map_nth (fun j => a (Z.of_nat j))), seq_nth by assumption.
  reflexivity.
Qed.

(** An array filled from the far end of another holds its cells in
    reverse order. *)
Lemma to_list_reversed (a b : arr F) (cnt : nat) :
  (forall k, 0 <= k < Z.of_nat cnt -> a k = b (Z.of_nat cnt - k - 1)) ->
  to_list a cnt = rev (to_list b cnt).
Proof.
  intros Hab. apply nth_ext with (d := of_long 0) (d' := of_long 0).
  - now rewrite length_rev, !to_list_length.
  - intros k Hk. rewrite to_list_length in Hk.
    rewrite rev_nth by now rewrite to_list_length.
    rewrite to_list_length, !to_list_nth by lia.
    rewrite Hab by lia. f_equal. lia.
Qed.

End BuilderFacts.

(** The impact-parameter grid of the pass-through branch is the radius
    grid in reverse.  When the hinted radius spacing is -1 and the radius
    grid has a count that is not negative and a block of values,
    [makeipsample] returns 0 and sets its progress bit; the grid it leaves
    has the values of the radius grid in reverse order, the same count and
    units factor, the two bounds exchanged, and 0 for both the spacing and
    the oversampling; the radius grid is as it was. *)
Theorem makeipsample_reverses (F : Type) `{Scalar F}
    (TRPI_MAKEIP TRPI_MAKERAD : Z) (check : Z -> Z -> bool) (tr : transit F) :
  (s_d (th_rads (tr_th tr)) =? of_long (-1))%S = true ->
  0 <= s_n (tr_rads tr) ->
  (exists src, s_v (tr_rads tr) = Block src) ->
  exists tr',
    makeipsample TRPI_MAKEIP TRPI_MAKERAD check tr = Done 0 tr'
    /\ tr_pi tr' = Z.lor (tr_pi tr) TRPI_MAKEIP
    /\ values_of (tr_ips tr') = rev (values_of (tr_rads tr))
    /\ s_n (tr_ips tr') = s_n (tr_rads tr)
    /\ s_i (tr_ips tr') = s_f (tr_rads tr)
    /\ s_f (tr_ips tr') = s_i (tr_rads tr)
    /\ s_d (tr_ips tr') = of_long 0
    /\ s_o (tr_ips tr') = 0
    /\ s_fct (tr_ips tr') = s_fct (tr_rads tr)
    /\ tr_rads tr' = tr_rads tr.
Proof.
  intros Hd Hn [src Hsrc]. unfold makeipsample. rewrite Hd.
  cbn [s_n s_v set_n set_d set_i set_f set_v]. unfold calloc.
  destruct (Z.ltb_spec (s_n (tr_rads tr)) 0) as [|_]; [lia|]. rewrite Hsrc.
  destruct (Z.ltb_spec 0 (s_n (tr_rads tr))) as [Hpos|Hzero].
  - eexists. split; [reflexivity|]. cbn. split; [reflexivity|].
    split; [|repeat split].
    unfold values_of. cbn [s_v s_n]. rewrite Hsrc.
    apply to_list_reversed. intros k Hk. rewrite for_up_fill.
    destruct (Z.leb_spec 0 k); destruct (Z.ltb_spec k (Z.of_nat (Z.to_nat (s_n (tr_rads tr)))));
      try lia.
    cbn [andb]. f_equal. lia.
  - eexists. split; [reflexivity|]. cbn. split; [reflexivity|].
    split; [|repeat split].
    unfold values_of. cbn [s_v s_n]. rewrite Hsrc.
    replace (s_n (tr_rads tr)) with 0 by lia. reflexivity.
Qed.

Lemma makeipsample_reverses_witness :
  let rads : prop_samp float :=
    mk_samp 3 0%float 1%float 4%float 0 (Block (of_list [1; 2.5; 4]%float)) 100000%float in
  let none : prop_samp float := mk_samp 0 0%float 0%float 0%float 0 NULL 0%float in
  let th := mk_hint none none (mk_samp 0 (-1)%float 0%float 0%float 0 NULL 0%float) none none in
  let tr := mk_transit th none none rads none none 4 in
  exists tr',
    makeipsample 8 4 (fun pi bit => Z.eqb (Z.land pi bit) bit) tr = Done 0 tr'
    /\ tr_pi tr' = Z.lor (tr_pi tr) 8
    /\ values_of (tr_ips tr') = rev (values_of (tr_rads tr))
    /\ s_n (tr_ips tr') = s_n (tr_rads tr)
    /\ s_i (tr_ips tr') = s_f (tr_rads tr)
    /\ s_f (tr_ips tr') = s_i (tr_rads tr)
    /\ s_d (tr_ips tr') = of_long 0
    /\ s_o (tr_ips tr') = 0
    /\ s_fct (tr_ips tr') = s_fct (tr_rads tr)
    /\ tr_rads tr' = tr_rads tr.
Proof.
  intros rads none th tr.
  apply (makeipsample_reverses float 8 4 (fun pi bit => Z.eqb (Z.land pi bit) bit) tr).
  - vm_compute. reflexivity.
  - cbn. lia.
  - eexists. reflexivity.
Defined.

(** [makesample1] on a reference with ordered bounds, a positive spacing
    and a count that fits: with an oversampling of at least 1 it builds the
    grid; without, it returns -6 after it has stored the bounds, the
    spacing and the count. *)
Lemma makesample1_builds (samp ref : prop_samp Q) :
  (s_i ref <= s_f ref)%Q -> (0 <= s_f ref)%Q -> (0 < s_d ref)%Q -> 1 <= s_o ref ->
  let np := Qfloor (((1 + eps) * s_f ref - s_i ref) / s_d ref) + 1 in
  (np - 1) * s_o ref + 1 <= LONG_MAX ->
  1 <= np
  /\ makesample1 samp ref
     = Return 0 (mk_samp ((np - 1) * s_o ref + 1) (s_d ref) (s_i ref) (s_f ref) (s_o ref)
                   (Block (fill_values (s_i ref) (s_d ref / inject_Z (s_o ref))%Q
                             ((np - 1) * s_o ref + 1) zeros))
                   (s_fct ref)).
Proof.
  intros Hif Hf Hd Ho np Hfit.
  assert (Hx : (0 <= ((1 + eps) * s_f ref - s_i ref) / s_d ref)%Q).
  { apply Qle_shift_div_l; [exact Hd|]. unfold eps. lra. }
  assert (Hnp : 1 <= np).
  { unfold np. apply Qfloor_resp_le in Hx. change (Qfloor 0) with 0 in Hx. lia. }
  split; [exact Hnp|].
  unfold makesample1. cbn [s_i s_f s_d s_o s_n set_fct set_i set_f set_d set_n]. to_Q.
  rewrite (Qle_bool_true (s_i ref) (s_f ref)) by exact Hif.
  rewrite (Qeq_bool_false (s_d ref) 0) by (intros E; lra). cbn [negb].
  rewrite npoints_floor; [| exact Hd | unfold eps; lra | fold np; nia].
  fold np. destruct (Z.leb_spec (s_o ref) 0); [lia|].
  unfold oversample_and_fill, calloc. cbn [s_i s_f s_d s_o s_n set_o set_n set_v].
  rewrite wrap_long_small by (unfold LONG_MIN; unfold LONG_MAX in *; nia).
  destruct (Z.ltb_spec ((np - 1) * s_o ref + 1) 0); [nia|].
  destruct (Z.eqb_spec ((np - 1) * s_o ref + 1) 0); [nia|].
  reflexivity.
Qed.

Lemma makesample1_unsampled (samp ref : prop_samp Q) :
  (s_i ref <= s_f ref)%Q -> (0 <= s_f ref)%Q -> (0 < s_d ref)%Q -> s_o ref <= 0 ->
  let np := Qfloor (((1 + eps) * s_f ref - s_i ref) / s_d ref) + 1 in
  np <= LONG_MAX ->
  makesample1 samp ref
  = Return (-6) (mk_samp np (s_d ref) (s_i ref) (s_f ref) (s_o samp) (s_v samp) (s_fct ref)).
Proof.
  intros Hif Hf Hd Ho np Hfit.
  unfold makesample1. cbn [s_i s_f s_d s_o s_n set_fct set_i set_f set_d set_n]. to_Q.
  rewrite (Qle_bool_true (s_i ref) (s_f ref)) by exact Hif.
  rewrite (Qeq_bool_false (s_d ref) 0) by (intros E; lra). cbn [negb].
  rewrite npoints_floor; [| exact Hd | unfold eps; lra | exact Hfit].
  destruct (Z.leb_spec (s_o ref) 0); [reflexivity | lia].
Qed.

(** The initial wavenumber the builder settles on is positive. *)
Lemma wn_initial_pos (hsamp wlsamp : prop_samp Q) (i : Q) :
  wn_initial hsamp wlsamp = Some i -> (0 < i)%Q.
Proof.
  unfold wn_initial. to_Q. intros Hi.
  destruct (Qle_bool (s_i hsamp) 0) eqn:E1; cbn [negb] in Hi.
  - destruct (Qle_bool (s_f wlsamp) 0) eqn:E2; cbn [negb] in Hi; [discriminate|].
    destruct (Qle_bool (s_fct wlsamp) 0) eqn:E3; [discriminate|].
    injection Hi as <-.
    assert (H2 : (0 < s_f wlsamp)%Q).
    { destruct (Qlt_le_dec 0 (s_f wlsamp)) as [Hlt|Hle]; [exact Hlt|].
      apply Qle_bool_true in Hle. congruence. }
    assert (H3 : (0 < s_fct wlsamp)%Q).
    { destruct (Qlt_le_dec 0 (s_fct wlsamp)) as [Hlt|Hle]; [exact Hlt|].
      apply Qle_bool_true in Hle. congruence. }
    apply Qlt_shift_div_l; [nra | lra].
  - destruct (Qle_bool (s_fct hsamp) 0) eqn:E3; [discriminate|].
    injection Hi as <-.
    assert (H2 : (0 < s_i hsamp)%Q).
    { destruct (Qlt_le_dec 0 (s_i hsamp)) as [Hlt|Hle]; [exact Hlt|].
      apply Qle_bool_true in Hle. congruence. }
    assert (H3 : (0 < s_fct hsamp)%Q).
    { destruct (Qlt_le_dec 0 (s_fct hsamp)) as [Hlt|Hle]; [exact Hlt|].
      apply Qle_bool_true in Hle. congruence. }
    nra.
Qed.

(** The two wavenumber grids fit together.  In exact arithmetic, when the
    bounds [i <= f] the builder settles on, the positive hinted spacing
    [d] and a hinted oversampling [o >= 1] give counts that fit a [long]:
    [makewnsample] returns 0 and sets its progress bit; the plain grid has
    oversampling 1 and [np = floor((f*(1+eps) - i)/d) + 1] values
    [i + k*d]; the oversampled grid has oversampling [o] and
    [(np-1)*o + 1] values; and every [o]-th value of the oversampled grid
    is a value of the plain grid: [owns.v[k*o] = wns.v[k]]. *)
Theorem makewnsample_decimates (TRPI_MAKEWN : Z) (tr : transit Q) (i f : Q) :
  let hsamp := th_wns (tr_th tr) in
  let wlsamp := th_wavs (tr_th tr) in
  wn_initial hsamp wlsamp = Some i -> wn_final hsamp wlsamp = Some f ->
  (i <= f)%Q -> (0 < s_d hsamp)%Q -> 1 <= s_o hsamp ->
  let np := Qfloor (((1 + eps) * f - i) / s_d hsamp) + 1 in
  (np - 1) * s_o hsamp + 1 <= LONG_MAX ->
  exists tr' ov wv,
    makewnsample TRPI_MAKEWN tr = Done 0 tr'
    /\ tr_pi tr' = Z.lor (tr_pi tr) TRPI_MAKEWN
    /\ s_n (tr_wns tr') = np /\ s_o (tr_wns tr') = 1
    /\ s_n (tr_owns tr') = (np - 1) * s_o hsamp + 1 /\ s_o (tr_owns tr') = s_o hsamp
    /\ s_v (tr_wns tr') = Block wv /\ s_v (tr_owns tr') = Block ov
    /\ (forall k, 0 <= k < np -> (wv k == i + inject_Z k * s_d hsamp)%Q)
    /\ (forall k, 0 <= k < np -> (ov (k * s_o hsamp)%Z == wv k)%Q).
Proof.
  intros hsamp wlsamp Hi Hf Hif Hd Ho np Hfit.
  pose proof (wn_initial_pos hsamp wlsamp i Hi) as Hipos.
  unfold makewnsample. fold hsamp wlsamp. rewrite Hi, Hf. to_Q.
  rewrite (Qle_bool_false (s_d hsamp) 0) by exact Hd.
  cbn [set_i set_f set_o set_fct set_n set_d s_n s_d s_i s_f s_o s_v s_fct].
  match goal with |- context [makesample1 (tr_owns tr) ?r] => set (rsamp := r) end.
  destruct (makesample1_builds (tr_owns tr) rsamp) as [Hnp Eowns];
    [exact Hif | cbn; lra | exact Hd | exact Ho | exact Hfit |].
  subst rsamp. cbn [s_n s_d s_i s_f s_o s_v s_fct set_n set_d set_i set_f set_o set_v set_fct] in Eowns, Hnp. fold np in Eowns, Hnp.
  assert (Hnp1 : np <= LONG_MAX).
  { pose proof (Z.mul_nonneg_nonneg (np - 1) (s_o hsamp - 1) ltac:(lia) ltac:(lia)). lia. }
  rewrite Eowns. cbn [set_owns tr_wns tr_owns tr_th tr_pi].
  match goal with |- context [makesample1 (tr_wns tr) ?r] => set (rsamp1 := r) end.
  destruct (makesample1_builds (tr_wns tr) rsamp1) as [_ Ewns];
    [exact Hif | cbn; lra | exact Hd | cbn; lia
    | unfold rsamp1; cbn [s_n s_d s_i s_f s_o s_v s_fct set_n set_d set_i set_f set_o set_v set_fct]; fold np; lia |].
  subst rsamp1. cbn [s_n s_d s_i s_f s_o s_v s_fct set_n set_d set_i set_f set_o set_v set_fct] in Ewns. fold np in Ewns.
  rewrite Ewns. unfold progress. cbn [Z.geb Z.compare].
  eexists. eexists. eexists. split; [reflexivity|].
  cbn [set_wns set_pi tr_wns tr_owns tr_pi s_n s_o s_v].
  split; [reflexivity|]. split; [lia|]. split; [reflexivity|].
  split; [reflexivity|]. split; [reflexivity|].
  split; [reflexivity|]. split; [reflexivity|].
  destruct (fill_values_cells i (s_d hsamp / inject_Z 1)%Q ((np - 1) * 1 + 1) zeros)
    as (W0 & Win & _); [lia|].
  destruct (fill_values_cells i (s_d hsamp / inject_Z (s_o hsamp))%Q
              ((np - 1) * s_o hsamp + 1) zeros) as (O0 & Oin & _); [nia|].
  to_Q.
  assert (Hw : forall k, 0 <= k < np ->
            (fill_values i (s_d hsamp / 1) ((np - 1) * 1 + 1) zeros k
             == i + inject_Z k * s_d hsamp)%Q).
  { intros k Hk. destruct (Z.eq_dec k 0) as [->|Hk0].
    - rewrite W0. change (inject_Z 0) with 0%Q. ring.
    - rewrite Win by lia. field. }
  split; [exact Hw|].
  intros k Hk. rewrite Hw by exact Hk.
  destruct (Z.eq_dec k 0) as [->|Hk0].
  - change (0 * s_o hsamp) with 0. rewrite O0. change (inject_Z 0) with 0%Q. ring.
  - rewrite Oin by nia. rewrite inject_Z_mult.
    assert (Hoq : (0 < inject_Z (s_o hsamp))%Q).
    { change 0%Q with (inject_Z 0). rewrite <- Zlt_Qlt. lia. }
    field. lra.
Qed.

Lemma makewnsample_decimates_witness :
  let none : prop_samp Q := mk_samp 0 0%Q 0%Q 0%Q 0 NULL 0%Q in
  let hsamp : prop_samp Q := mk_samp 0 (1 # 2)%Q 1%Q 3%Q 2 NULL 1%Q in
  let tr := mk_transit (mk_hint hsamp none none none none) none none none none none 0 in
  let np := Qfloor (((1 + eps) * 3 - 1) / (1 # 2)) + 1 in
  exists tr' ov wv,
    makewnsample 16 tr = Done 0 tr'
    /\ tr_pi tr' = Z.lor (tr_pi tr) 16
    /\ s_n (tr_wns tr') = np /\ s_o (tr_wns tr') = 1
    /\ s_n (tr_owns tr') = (np - 1) * 2 + 1 /\ s_o (tr_owns tr') = 2
    /\ s_v (tr_wns tr') = Block wv /\ s_v (tr_owns tr') = Block ov
    /\ (forall k, 0 <= k < np -> (wv k == 1 + inject_Z k * (1 # 2))%Q)
    /\ (forall k, 0 <= k < np -> (ov (k * 2)%Z == wv k)%Q).
Proof.
  intros none hsamp tr np.
  apply (makewnsample_decimates 16 tr 1 3).
  - reflexivity.
  - reflexivity.
  - vm_compute. discriminate.
  - reflexivity.
  - cbn. lia.
  - vm_compute. discriminate.
Defined.

(** A missing oversampling goes unreported.  With the same bounds and
    spacing but a hinted oversampling that is not positive,
    [makewnsample] still returns 0 and sets its progress bit: the code -6
    of the first call of [makesample1] is overwritten by the code of the
    second.  The plain grid is built; the oversampled grid has received
    the count of the plain grid but no values: its array and its
    oversampling are what they were before the call. *)
Theorem makewnsample_masks_oversampling (TRPI_MAKEWN : Z) (tr : transit Q) (i f : Q) :
  let hsamp := th_wns (tr_th tr) in
  let wlsamp := th_wavs (tr_th tr) in
  wn_initial hsamp wlsamp = Some i -> wn_final hsamp wlsamp = Some f ->
  (i <= f)%Q -> (0 < s_d hsamp)%Q -> s_o hsamp <= 0 ->
  let np := Qfloor (((1 + eps) * f - i) / s_d hsamp) + 1 in
  np <= LONG_MAX ->
  exists tr',
    makewnsample TRPI_MAKEWN tr = Done 0 tr'
    /\ tr_pi tr' = Z.lor (tr_pi tr) TRPI_MAKEWN
    /\ s_n (tr_wns tr') = np /\ s_o (tr_wns tr') = 1
    /\ (exists wv, s_v (tr_wns tr') = Block wv)
    /\ s_n (tr_owns tr') = np
    /\ s_v (tr_owns tr') = s_v (tr_owns tr)
    /\ s_o (tr_owns tr') = s_o (tr_owns tr).
Proof.
  intros hsamp wlsamp Hi Hf Hif Hd Ho np Hfit.
  pose proof (wn_initial_pos hsamp wlsamp i Hi) as Hipos.
  unfold makewnsample. fold hsamp wlsamp. rewrite Hi, Hf. to_Q.
  rewrite (Qle_bool_false (s_d hsamp) 0) by exact Hd.
  cbn [set_i set_f set_o set_fct set_n set_d s_n s_d s_i s_f s_o s_v s_fct].
  match goal with |- context [makesample1 (tr_owns tr) ?r] => set (rsamp := r) end.
  rewrite (makesample1_unsampled (tr_owns tr) rsamp);
    [| exact Hif | cbn; lra | exact Hd | exact Ho | exact Hfit].
  subst rsamp. cbn [s_n s_d s_i s_f s_o s_v s_fct set_n set_d set_i set_f set_o set_v set_fct]. fold np.
  cbn [set_owns tr_wns tr_owns tr_th tr_pi].
  match goal with |- context [makesample1 (tr_wns tr) ?r] => set (rsamp1 := r) end.
  destruct (makesample1_builds (tr_wns tr) rsamp1) as [_ Ewns];
    [exact Hif | cbn; lra | exact Hd | cbn; lia
    | unfold rsamp1; cbn [s_n s_d s_i s_f s_o s_v s_fct set_n set_d set_i set_f set_o set_v set_fct]; fold np; lia |].
  subst rsamp1. cbn [s_n s_d s_i s_f s_o s_v s_fct set_n set_d set_i set_f set_o set_v set_fct] in Ewns. fold np in Ewns.
  rewrite Ewns. unfold progress. cbn [Z.geb Z.compare].
  eexists. split; [reflexivity|].
  cbn [set_wns set_pi tr_wns tr_owns tr_pi s_n s_o s_v].
  split; [reflexivity|]. split; [lia|]. split; [reflexivity|].
  split; [eexists; reflexivity|]. repeat split.
Qed.

Lemma makewnsample_masks_oversampling_witness :
  let none : prop_samp Q := mk_samp 0 0%Q 0%Q 0%Q 0 NULL 0%Q in
  let hsamp : prop_samp Q := mk_samp 0 (1 # 2)%Q 1%Q 3%Q 0 NULL 1%Q in
  let tr := mk_transit (mk_hint hsamp none none none none) none none none none none 0 in
  let np := Qfloor (((1 + eps) * 3 - 1) / (1 # 2)) + 1 in
  exists tr',
    makewnsample 16 tr = Done 0 tr'
    /\ tr_pi tr' = Z.lor (tr_pi tr) 16
    /\ s_n (tr_wns tr') = np /\ s_o (tr_wns tr') = 1
    /\ (exists wv, s_v (tr_wns tr') = Block wv)
    /\ s_n (tr_owns tr') = np
    /\ s_v (tr_owns tr') = s_v (tr_owns tr)
    /\ s_o (tr_owns tr') = s_o (tr_owns tr).
Proof.
  intros none hsamp tr np.
  apply (makewnsample_masks_oversampling 16 tr 1 3).
  - reflexivity.
  - reflexivity.
  - vm_compute. discriminate.
  - reflexivity.
  - cbn. lia.
  - vm_compute. discriminate.
Defined.

Lemma Qle_bool_false_lt (x y : Q) : Qle_bool x y = false -> (y < x)%Q.
Proof.
  intros E. destruct (Qlt_le_dec y x) as [Hlt|Hle]; [exact Hlt|].
  apply Qle_bool_iff in Hle. congruence.
Qed.

(** The tests on rationals of the hypotheses, as order facts. *)
Ltac qfacts :=
  repeat match goal with
         | E : Qle_bool _ _ = true |- _ => apply Qle_bool_iff in E
         | E : Qle_bool _ _ = false |- _ => apply Qle_bool_false_lt in E
         | E : Qeq_bool _ _ = true |- _ => apply Qeq_bool_iff in E
         | E : Qeq_bool _ _ = false |- _ => apply Qeq_bool_neq in E
         | E : negb _ = true |- _ => apply negb_true_iff in E
         | E : negb _ = false |- _ => apply negb_false_iff in E
         | E : (_ && _)%bool = true |- _ => apply andb_true_iff in E; destruct E
         | E : (_ || _)%bool = false |- _ => apply orb_false_iff in E; destruct E
         end.

(** What [maketempsample] can return.  In exact arithmetic, a call that
    returns had hinted bounds in order and a hinted spacing that is not
    negative (the program stops otherwise); the code is -5, -3, 0 or 1,
    never -6, 2 or 3: -5 exactly when no spacing was hinted, and on
    success 1 exactly when the hinted initial value is not positive, in
    which case the grid starts at 0.  The progress bit is set exactly on
    success, and the grid built then has oversampling 1, units factor 1
    and the hinted spacing and final value, which is positive. *)
Theorem maketempsample_codes (TRPI_MAKETEMP : Z) (tr : transit Q) (res : Z) (tr' : transit Q) :
  let hint := th_temp (tr_th tr) in
  maketempsample TRPI_MAKETEMP tr = Done res tr' ->
  (s_i hint <= s_f hint)%Q /\ (0 <= s_d hint)%Q
  /\ (res = -5 \/ res = -3 \/ res = 0 \/ res = 1)
  /\ (res = -5 <-> (s_d hint == 0)%Q)
  /\ (res < 0 -> tr_pi tr' = tr_pi tr)
  /\ (0 <= res ->
      tr_pi tr' = Z.lor (tr_pi tr) TRPI_MAKETEMP
      /\ (res = 1 <-> (s_i hint <= 0)%Q)
      /\ (0 < s_f hint)%Q
      /\ s_o (tr_temp tr') = 1 /\ (s_fct (tr_temp tr') == 1)%Q
      /\ s_d (tr_temp tr') = s_d hint
      /\ s_f (tr_temp tr') = s_f hint
      /\ (s_i (tr_temp tr') == (if Qle_bool (s_i hint) 0 then 0 else s_i hint))%Q).
Proof.
  intros hint Hrun. unfold maketempsample in Hrun. fold hint in Hrun.
  cbn [s_i s_f] in Hrun. to_Q.
  destruct (Qle_bool (s_i hint) (s_f hint)) eqn:Eif; cbn [negb] in Hrun; [|discriminate].
  destruct (makesample _ _ _) as [code temp| |] eqn:Em; try discriminate.
  unfold progress in Hrun. injection Hrun as <- <-.
  unfold makesample in Em.
  cbn [s_n s_d s_i s_f s_o s_v s_fct set_n set_d set_i set_f set_o set_v set_fct] in Em.
  to_Q.
  repeat match type of Em with
         | context [if ?c then _ else _] => destruct c eqn:?
         | context [match ?c with _ => _ end] => destruct c eqn:?
         end;
    cbn [negb andb orb] in *; try discriminate;
    try (apply oversample_and_fill_inv in Em;
         destruct Em as (-> & Ei & Ef & Ed & Efct & Eo & _);
         cbn [s_n s_d s_i s_f s_o s_v s_fct set_n set_d set_i set_f set_o set_v set_fct] in *);
    try (injection Em as <- <-);
    qfacts;
    cbn [Z.lor Z.geb Z.compare set_temp set_pi tr_temp tr_pi
         s_n s_d s_i s_f s_o s_v s_fct set_n set_d set_i set_f set_o set_v set_fct] in *.
  all: try (exfalso; lra).
  all: repeat match goal with
              | |- _ /\ _ => split
              | |- _ <-> _ => split
              | |- _ -> _ => intro
              end.
  all: try lia; try lra; try reflexivity; try assumption; try tauto.
  all: try (exfalso; lra).
  all: match goal with E : ?x = _ |- (?x == _)%Q => rewrite E; reflexivity end.
Qed.

Lemma maketempsample_codes_witness :
  let none : prop_samp Q := mk_samp 0 0%Q 0%Q 0%Q 0 NULL 0%Q in
  let hint : prop_samp Q := mk_samp 0 (1 # 2)%Q 0%Q 3%Q 0 NULL 0%Q in
  let tr := mk_transit (mk_hint none none none none hint) none none none none none 0 in
  let tr' := match maketempsample 32 tr with Done _ t => t | _ => tr end in
  maketempsample 32 tr = Done 1 tr'
  /\ (s_i hint <= s_f hint)%Q /\ (0 <= s_d hint)%Q
  /\ (1 = -5 \/ 1 = -3 \/ 1 = 0 \/ 1 = 1)
  /\ (1 = -5 <-> (s_d hint == 0)%Q)
  /\ (1 < 0 -> tr_pi tr' = tr_pi tr)
  /\ (0 <= 1 ->
      tr_pi tr' = Z.lor (tr_pi tr) 32
      /\ (1 = 1 <-> (s_i hint <= 0)%Q)
      /\ (0 < s_f hint)%Q
      /\ s_o (tr_temp tr') = 1 /\ (s_fct (tr_temp tr') == 1)%Q
      /\ s_d (tr_temp tr') = s_d hint
      /\ s_f (tr_temp tr') = s_f hint
      /\ (s_i (tr_temp tr') == (if Qle_bool (s_i hint) 0 then 0 else s_i hint))%Q).
Proof.
  intros none hint tr tr'.
  assert (Hrun : maketempsample 32 tr = Done 1 tr') by (vm_compute; reflexivity).
  split; [exact Hrun|].
  exact (maketempsample_codes 32 tr 1 tr' Hrun).
Defined.

(** The count before oversampling on a negative spacing: the excess
    changes sign with the spacing. *)
Lemma npoints_floor_neg (i f d : Q) :
  (d < 0)%Q -> ((1 - eps) * f <= i)%Q ->
  Qfloor (((1 - eps) * f - i) / d) + 1 <= LONG_MAX ->
  npoints i f d = Qfloor (((1 - eps) * f - i) / d) + 1.
Proof.
  intros Hd Hif Hmax. unfold npoints. to_Q.
  rewrite (Qle_bool_false 0 d) by lra. cbn [negb].
  set (x := (((1 - eps) * f - i) / d)%Q) in *.
  assert (Hx : (0 <= x)%Q).
  { assert (E : (x == (i - (1 - eps) * f) / (- d))%Q) by (unfold x; field; lra).
    rewrite E. apply Qle_shift_div_l; lra. }
  assert (Ex : (((1 + - okfinalexcess_init) * f - i) / d + 1 == x + 1)%Q).
  { unfold x. rewrite okfinalexcess_init_eps. field. lra. }
  assert (Efl : Qfloor (x + 1) = Qfloor x + 1).
  { apply Qfloor_unique.
    - rewrite inject_Z_plus. pose proof (Qfloor_le x). change (inject_Z 1) with 1%Q. lra.
    - rewrite !inject_Z_plus. pose proof (Qlt_floor x).
      rewrite inject_Z_plus in H. change (inject_Z 1) with 1%Q in *. lra. }
  assert (Etl : to_long (((1 + - okfinalexcess_init) * f - i) / d + 1)%Q = Qfloor x + 1).
  { rewrite to_long_floor.
    - rewrite (Qfloor_comp _ _ Ex). exact Efl.
    - rewrite Ex. lra.
    - rewrite (Qfloor_comp _ _ Ex), Efl. exact Hmax. }
  rewrite Etl.
  assert (0 <= Qfloor x).
  { change 0 with (Qfloor 0). apply Qfloor_resp_le. exact Hx. }
  destruct (Z.ltb_spec (Qfloor x + 1) 0); [lia | reflexivity].
Qed.

(** The allocation and the fill run whenever the oversampled count is
    positive and fits a [long]. *)
Lemma oversample_and_fill_runs (F : Type) `{Scalar F} (samp : prop_samp F) (o res : Z) :
  0 < (s_n samp - 1) * o + 1 <= LONG_MAX ->
  oversample_and_fill samp o res
  = Return res (mk_samp ((s_n samp - 1) * o + 1) (s_d samp) (s_i samp) (s_f samp) o
                  (Block (fill_values (s_i samp) (s_d samp / of_long o)%S
                            ((s_n samp - 1) * o + 1) zeros))
                  (s_fct samp)).
Proof.
  intros Hn. unfold oversample_and_fill, calloc.
  cbn [s_n s_d s_i s_f s_o s_v s_fct set_n set_o set_v].
  rewrite wrap_long_small by (unfold LONG_MIN; unfold LONG_MAX in *; lia).
  destruct (Z.ltb_spec ((s_n samp - 1) * o + 1) 0); [lia|].
  destruct (Z.eqb_spec ((s_n samp - 1) * o + 1) 0); [lia|].
  reflexivity.
Qed.

(** The impact-parameter grid built from an equispaced radius grid is that
    grid in reverse.  In exact arithmetic, in the branch that calls the
    generator (hinted radius spacing other than -1, radius builder
    completed), with no impact-parameter hint (spacing and bounds 0,
    oversampling and factor not positive) and a radius grid as the
    generator leaves it (spacing [d > 0], oversampling [o >= 1],
    [(np-1)*o + 1] values [v[0] + k*d/o] with [np >= 2]) that starts at
    [v[0] >= 0] with [eps*v[0] < d]: [makeipsample] returns 3 (both bounds
    taken from the reference), sets its progress bit, and leaves a grid of
    as many values with the same oversampling and the spacing negated,
    whose value [k] is the value [n-1-k] of the radius grid. *)
Theorem makeipsample_resamples_reversed
    (TRPI_MAKEIP TRPI_MAKERAD : Z) (check : Z -> Z -> bool)
    (tr : transit Q) (a : arr Q) (np : Z) :
  let rads := tr_rads tr in
  let hint := th_ips (tr_th tr) in
  ~ (s_d (th_rads (tr_th tr)) == -1)%Q ->
  check (tr_pi tr) TRPI_MAKERAD = true ->
  (s_d hint == 0)%Q -> (s_i hint == 0)%Q -> (s_f hint == 0)%Q ->
  s_o hint <= 0 -> (s_fct hint <= 0)%Q ->
  (0 < s_d rads)%Q -> 1 <= s_o rads -> 2 <= np ->
  s_n rads = (np - 1) * s_o rads + 1 -> s_n rads <= LONG_MAX ->
  s_v rads = Block a ->
  (forall k, 0 <= k < s_n rads ->
     (a k == a 0%Z + inject_Z k * (s_d rads / inject_Z (s_o rads)))%Q) ->
  (0 <= a 0%Z)%Q -> (eps * a 0%Z < s_d rads)%Q ->
  exists tr' b,
    makeipsample TRPI_MAKEIP TRPI_MAKERAD check tr = Done 3 tr'
    /\ tr_pi tr' = Z.lor (tr_pi tr) TRPI_MAKEIP
    /\ s_n (tr_ips tr') = s_n rads
    /\ s_o (tr_ips tr') = s_o rads
    /\ s_d (tr_ips tr') = (- s_d rads)%Q
    /\ s_fct (tr_ips tr') = s_fct rads
    /\ s_v (tr_ips tr') = Block b
    /\ forall k, 0 <= k < s_n rads -> (b k == a (s_n rads - 1 - k)%Z)%Q.
Proof.
  intros rads hint Hpass Hcheck Hd0 Hi0 Hf0 Ho0 Hfct0 Hd Ho Hnp Hn Hmax Hv Hgrid Ha0 Heps.
  assert (Hoq : (0 < inject_Z (s_o rads))%Q).
  { change 0%Q with (inject_Z 0). rewrite <- Zlt_Qlt. lia. }
  assert (Hnpo : np - 1 <= (np - 1) * s_o rads).
  { pose proof (Z.mul_nonneg_nonneg (np - 1) (s_o rads - 1) ltac:(lia) ltac:(lia)). lia. }
  assert (Hlast : (a (s_n rads - 1)%Z == a 0%Z + inject_Z (np - 1) * s_d rads)%Q).
  { rewrite Hgrid by lia. rewrite Hn.
    replace ((np - 1) * s_o rads + 1 - 1) with ((np - 1) * s_o rads) by lia.
    rewrite inject_Z_mult. field. lra. }
  assert (Hnp1 : (1 <= inject_Z (np - 1))%Q).
  { change 1%Q with (inject_Z 1). rewrite <- Zle_Qle. lia. }
  assert (Hcount : npoints (a (s_n rads - 1)%Z) (a 0%Z) (- s_d rads)%Q = np).
  { assert (Efl : Qfloor (((1 - eps) * a 0%Z - a (s_n rads - 1)%Z) / - s_d rads) = np - 1).
    { assert (Eq : (((1 - eps) * a 0%Z - a (s_n rads - 1)%Z) / - s_d rads
                    == (a (s_n rads - 1)%Z - (1 - eps) * a 0%Z) / s_d rads)%Q)
        by (field; lra).
      rewrite (Qfloor_comp _ _ Eq). apply Qfloor_unique.
      - apply Qle_shift_div_l; [lra|]. rewrite Hlast. unfold eps in *. nra.
      - apply Qlt_shift_div_r; [lra|]. rewrite Hlast, inject_Z_plus.
        change (inject_Z 1) with 1%Q. unfold eps in *. nra. }
    rewrite npoints_floor_neg; [rewrite Efl; lia | lra | | rewrite Efl; lia].
    rewrite Hlast. unfold eps in *. nra. }
  unfold makeipsample. fold rads hint. to_Q.
  change (inject_Z (-1)) with (-1)%Q.
  rewrite (Qeq_bool_false _ _ Hpass), Hv, Hcheck.
  cbn [s_n s_d s_i s_f s_o s_v s_fct negb].
  rewrite (Qle_bool_true (s_f hint) (s_i hint)) by lra. cbn [negb].
  assert (Em : makesample (tr_ips tr)
                 (mk_samp 0 (- s_d hint)%Q (s_f hint) (s_i hint) (s_o hint) NULL (s_fct hint))
                 (mk_samp 0 (- s_d rads)%Q (a (s_n rads - 1)%Z) (a 0%Z) (s_o rads) NULL
                    (s_fct rads))
               = Return 3
                   (mk_samp (s_n rads) (- s_d rads)%Q (a (s_n rads - 1)%Z) (a 0%Z) (s_o rads)
                      (Block (fill_values (a (s_n rads - 1)%Z)
                                (- s_d rads / inject_Z (s_o rads))%Q (s_n rads) zeros))
                      (s_fct rads))).
  { unfold makesample.
    cbn [s_n s_d s_i s_f s_o s_v s_fct set_n set_d set_i set_f set_o set_v set_fct]. to_Q.
    rewrite (Qeq_eq_bool (- s_d hint) 0) by lra.
    rewrite (Qle_bool_true (s_fct hint) 0) by exact Hfct0.
    rewrite (Qle_bool_true (s_f hint) 0), (Qle_bool_true (s_i hint) 0) by lra.
    rewrite (Qeq_bool_false (- s_d rads) 0) by (intros E; lra).
    cbn [negb andb s_n s_d s_i s_f s_o s_v s_fct set_n set_d set_i set_f set_o set_v set_fct].
    rewrite (Qle_bool_true (- s_d rads) 0) by lra.
    rewrite (Qle_bool_false (a (s_n rads - 1)%Z) (a 0%Z)) by (rewrite Hlast; nra).
    rewrite andb_false_r. cbn [negb andb orb].
    rewrite Hcount.
    destruct (Z.leb_spec (s_o hint) 0); [|lia].
    destruct (Z.leb_spec (s_o rads) 0); [lia|].
    rewrite oversample_and_fill_runs
      by (cbn [s_n s_d s_i s_f s_o s_v s_fct set_n set_d set_i set_f set_o set_v set_fct]; lia).
    cbn [s_n s_d s_i s_f s_o s_v s_fct set_n set_d set_i set_f set_o set_v set_fct].
    to_Q. rewrite <- Hn. reflexivity. }
  rewrite Em. unfold progress. cbn [Z.geb Z.compare].
  eexists. eexists. split; [reflexivity|].
  cbn [set_ips set_pi tr_ips tr_pi s_n s_d s_o s_v s_fct].
  repeat (split; [reflexivity|]).
  intros k Hk.
  destruct (fill_values_cells (a (s_n rads - 1)%Z) (- s_d rads / inject_Z (s_o rads))%Q
              (s_n rads) zeros) as (B0 & Bin & _); [lia|].
  to_Q. destruct (Z.eq_dec k 0) as [->|Hk0].
  - rewrite B0. replace (s_n rads - 1 - 0) with (s_n rads - 1) by lia. reflexivity.
  - rewrite Bin by lia. rewrite (Hgrid (s_n rads - 1)), (Hgrid (s_n rads - 1 - k)) by lia.
    replace (s_n rads - 1 - k) with ((s_n rads - 1) + - k) by lia.
    rewrite inject_Z_plus, inject_Z_opp. field. lra.
Qed.

Lemma makeipsample_resamples_reversed_witness :
  let none : prop_samp Q := mk_samp 0 0%Q 0%Q 0%Q 0 NULL 0%Q in
  let a : arr Q := of_list [10; 21 # 2; 11; 23 # 2; 12]%Q in
  let rads : prop_samp Q := mk_samp 5 1%Q 10%Q 12%Q 2 (Block a) 1%Q in
  let tr := mk_transit (mk_hint none none none none none) none none rads none none 4 in
  exists tr' b,
    makeipsample 8 4 (fun pi bit => Z.eqb (Z.land pi bit) bit) tr = Done 3 tr'
    /\ tr_pi tr' = Z.lor (tr_pi tr) 8
    /\ s_n (tr_ips tr') = s_n rads
    /\ s_o (tr_ips tr') = s_o rads
    /\ s_d (tr_ips tr') = (- s_d rads)%Q
    /\ s_fct (tr_ips tr') = s_fct rads
    /\ s_v (tr_ips tr') = Block b
    /\ forall k, 0 <= k < s_n rads -> (b k == a (s_n rads - 1 - k)%Z)%Q.
Proof.
  intros none a rads tr.
  apply (makeipsample_resamples_reversed 8 4 (fun pi bit => Z.eqb (Z.land pi bit) bit) tr a 3).
  - vm_compute. discriminate.
  - reflexivity.
  - reflexivity.
  - reflexivity.
  - reflexivity.
  - cbn. lia.
  - vm_compute. discriminate.
  - reflexivity.
  - cbn. lia.
  - lia.
  - reflexivity.
  - vm_compute. discriminate.
  - reflexivity.
  - intros k Hk. cbn [tr_rads tr s_n rads] in Hk.
    assert (Ek : k = 0 \/ k = 1 \/ k = 2 \/ k = 3 \/ k = 4) by lia.
    destruct Ek as [->|[->|[->|[->| ->]]]]; reflexivity.
  - vm_compute. discriminate.
  - reflexivity.
Defined.

(** * Requests below the table *)

(** Below the first knot the search of the point mode only ever lowers
    [last], until the range is empty. *)
Lemma pt_search_below (xi : arr Q) (N : Z) (x : Q) :
  1 <= N -> increasing xi N -> (x < xi 0%Z)%Q ->
  forall (fuel : nat) (last : Z),
    last <= N -> Z.max 0 (last + 1) < Z.of_nat fuel ->
    pt_search fuel xi x 0 last ((0 + last) ÷ 2) = Unset.
Proof.
  intros HN Hinc Hx.
  induction fuel as [|fuel IH]; intros last Hlast Hfuel; [lia|].
  cbn [pt_search].
  destruct (Z.leb_spec 0 last) as [Hle|Hgt]; [|reflexivity].
  assert (Hmid : 0 <= (0 + last) ÷ 2 <= N - 1 /\ (0 + last) ÷ 2 <= last).
  { rewrite quot2_nonneg by lia. Z.div_mod_to_equations. lia. }
  set (mid := (0 + last) ÷ 2) in *.
  assert (H0 : (xi 0%Z <= xi mid)%Q) by (apply (increasing_le xi N Hinc); lia).
  rewrite (Qltb_false (xi mid) x) by lra. cbn [andb].
  rewrite (Qltb_true x (xi mid)) by lra.
  apply IH; lia.
Qed.

(** The point mode has no result below the table.  For at least one
    interval of strictly increasing knots and a request below the first
    knot, the search of [splinterp_pt] ends with an empty range and never
    assigns [index], which the evaluation then uses. *)
Theorem splinterp_pt_below_table (z xi yi : arr Q) (N : Z) (x : Q) :
  1 <= N -> increasing xi N -> (x < xi 0%Z)%Q ->
  splinterp_pt z N xi yi x = None.
Proof.
  intros HN Hinc Hx. unfold splinterp_pt. cbv zeta.
  rewrite (pt_search_below xi N x HN Hinc Hx) by lia.
  reflexivity.
Qed.

Lemma splinterp_pt_below_table_witness :
  let xi : arr Q := of_list [1; 2; 4]%Q in
  let yi : arr Q := of_list [3; 5; 4]%Q in
  splinterp_pt (spline_init zeros xi yi 3) 3 xi yi (1 # 2) = None.
Proof.
  intros xi yi.
  apply (splinterp_pt_below_table (spline_init zeros xi yi 3) xi yi 3 (1 # 2)).
  - lia.
  - intros i Hi. assert (Ei : i = 0 \/ i = 1) by lia.
    destruct Ei as [->| ->]; reflexivity.
  - reflexivity.
Defined.

(** Once a point has no interval, the bulk evaluation has no result. *)
Lemma spline3_steps_none {F : Type} `{Scalar F} (xi yi x z h : arr F) (N : Z) (m : nat) :
  forall lo, for_up (spline3_step xi yi x z h N) lo m None = None.
Proof.
  induction m as [|m IH]; intros lo; [reflexivity|].
  cbn [for_up spline3_step]. apply IH.
Qed.

(** The bulk mode has no result when its first request is below the
    table.  For strictly increasing knots and at least one request, the
    first of them below the first knot: the scan of [spline3] finds no
    knot at or below the request and leaves [j], which has no value yet,
    to the evaluation. *)
Theorem splinterp_below_table (N : Z) (xi yi : arr Q) (nx : Z) (xout : arr Q) :
  increasing xi N -> 1 <= nx -> (xout 0%Z < xi 0%Z)%Q ->
  splinterp N xi yi nx xout = None.
Proof.
  intros Hinc Hnx Hx. unfold splinterp, spline3. cbv zeta.
  replace (N - 1 + 1) with N by lia.
  replace (Z.to_nat (nx - 1 + 1)) with (Datatypes.S (Z.to_nat (nx - 1))) by lia.
  cbn [for_up].
  match goal with |- context [spline3_step ?a ?b ?c ?d ?e ?f 0 ?s] =>
    assert (E : spline3_step a b c d e f 0 s = None) end.
  { unfold spline3_step, spline3_locate.
    assert (Hscan : forall m : nat, Z.of_nat m <= Z.max 0 (N - 1) ->
              for_up (fun i j => if (xi i <=? xout 0%Z)%S then Some i else j) 0 m None = None).
    { induction m as [|m IH]; intros Hm; [reflexivity|].
      rewrite for_up_end, IH by lia. cbn [Z.add]. to_Q.
      rewrite Qle_bool_false; [reflexivity|].
      apply Qlt_le_trans with (xi 0%Z); [exact Hx|].
      apply (increasing_le xi N Hinc); lia. }
    rewrite Hscan by lia. reflexivity. }
  rewrite E, spline3_steps_none. reflexivity.
Qed.

Lemma splinterp_below_table_witness :
  let xi : arr Q := of_list [1; 2; 4]%Q in
  let yi : arr Q := of_list [3; 5; 4]%Q in
  let xout : arr Q := of_list [1 # 2; 3]%Q in
  splinterp 3 xi yi 2 xout = None.
Proof.
  intros xi yi xout.
  apply (splinterp_below_table 3 xi yi 2 xout).
  - intros i Hi. assert (Ei : i = 0 \/ i = 1) by lia.
    destruct Ei as [->| ->]; reflexivity.
  - lia.
  - reflexivity.
Defined.
